(** * HP-model lattice folding: placement engines and contact analysis

    A shallow embedding of the notebooks' placement engines
    (stochastic break sampling, deterministic-directional break sampling,
    recursive backtracking) and of the contact analyser, with the
    properties their description states about them.

    Python values are modelled as follows.
    - Amino acids, cell contents, turns and orientations are Python
      strings, modelled as [string]; an empty cell holds the empty string.
    - Row and column numbers are Python integers, modelled as [Z].
    - The numpy grid [np.full((n, n), '')] is a list of [n] rows of [n]
      cells; indexing follows numpy (a negative index counts from the end,
      an index out of range raises IndexError).
    - A raised exception is the [Raise] alternative of [result].
    - The random generator is a stream of draws [nat -> nat]; each
      [np.random.shuffle] or [np.random.choice] consumes one draw. *)

From Stdlib Require Import ZArith QArith Lia.
From stdpp Require Import base list gmap strings.

Close Scope Q_scope.
Open Scope string_scope.
Open Scope list_scope.

(** ** Exceptions and results *)

Inductive exn := IndexError | KeyError | ZeroDivisionError | RecursionError.

Inductive result (A : Type) : Type :=
| Ok (a : A)
| Raise (e : exn).
Arguments Ok {A} a.
Arguments Raise {A} e.

Global Instance result_ret : MRet result := λ A a, Ok a.
Global Instance result_bind : MBind result := λ A B k m,
  match m with
  | Ok a => k a
  | Raise e => Raise e
  end.

(** ** Random draws *)

Abbreviation draws := (nat → nat).
Definition next_draws (rng : draws) : draws := λ k, rng (S k).

(** [np.random.shuffle(l)] followed by [l[0]]: any element of [l] can come
    first; the draw selects which one. *)
Definition shuffled_first {A} (d : nat) (l : list A) : result A :=
  match l !! (d `mod` length l)%nat with
  | Some x => Ok x
  | None => Raise IndexError
  end.

(** ** Positions and the lattice *)

Abbreviation pos := (Z * Z)%type.
Abbreviation placement := (string * pos)%type.
Abbreviation Grid := (list (list string)).

Definition np_full (n : nat) : Grid := replicate n (replicate n "").

(** numpy index normalisation along an axis of length [n] *)
Definition norm_index (n : nat) (i : Z) : option nat :=
  if decide (0 ≤ i < Z.of_nat n)%Z then Some (Z.to_nat i)
  else if decide (- Z.of_nat n ≤ i < 0)%Z then Some (Z.to_nat (i + Z.of_nat n))
  else None.

Definition getitem (g : Grid) (p : pos) : result string :=
  match norm_index (length g) p.1 with
  | None => Raise IndexError
  | Some r =>
      let row := default [] (g !! r) in
      match norm_index (length row) p.2 with
      | None => Raise IndexError
      | Some c => Ok (default "" (row !! c))
      end
  end.

Definition setitem (g : Grid) (p : pos) (v : string) : result Grid :=
  match norm_index (length g) p.1 with
  | None => Raise IndexError
  | Some r =>
      let row := default [] (g !! r) in
      match norm_index (length row) p.2 with
      | None => Raise IndexError
      | Some c => Ok (<[r := <[c := v]> row]> g)
      end
  end.

Definition in_range (grid_size : Z) (p : pos) : bool :=
  bool_decide (0 ≤ p.1 < grid_size)%Z && bool_decide (0 ≤ p.2 < grid_size)%Z.

(** [0 <= row < grid_size and 0 <= col < grid_size and grid[row, col] == ''];
    the cell is read only after both range tests succeeded. *)
Definition free_cell (grid_size : Z) (grid : Grid) (p : pos) : result bool :=
  if in_range grid_size p
  then s ← getitem grid p; Ok (String.eqb s "")
  else Ok false.

Fixpoint filter_r {A} (f : A → result bool) (l : list A) : result (list A) :=
  match l with
  | [] => Ok []
  | x :: l' =>
      b ← f x;
      l'' ← filter_r f l';
      Ok (if (b : bool) then x :: l'' else l'')
  end.

Definition four_neighbors (p : pos) : list pos :=
  [ (p.1 - 1, p.2); (p.1 + 1, p.2); (p.1, p.2 - 1); (p.1, p.2 + 1) ]%Z.

Definition valid_neighbors (grid_size : Z) (grid : Grid) (last : pos)
  : result (list pos) :=
  filter_r (free_cell grid_size grid) (four_neighbors last).

(** [amino_acid_order[-1]] *)
Definition last_placement (order : list placement) : result placement :=
  match last order with
  | Some e => Ok e
  | None => Raise IndexError
  end.

(** ** Stochastic placement engine (experiment 1) *)

Module Stochastic.

(** The [while total_amino_acids > 0] loop. *)
Fixpoint place_loop (rng : draws) (total_amino_acids : nat) (grid_size : Z)
    (grid : Grid) (amino_acids_copy : list string)
    (amino_acid_order : list placement)
  : result (Grid * list placement) :=
  match total_amino_acids with
  | O => Ok (grid, amino_acid_order)
  | S total' =>
      '(_, last) ← last_placement amino_acid_order;
      valid ← valid_neighbors grid_size grid last;
      match valid, amino_acids_copy with
      | _ :: _, amino_acid_type :: copy' =>
          chosen ← shuffled_first (rng 0%nat) valid;
          grid' ← setitem grid chosen amino_acid_type;
          place_loop (next_draws rng) total' grid_size grid' copy'
            (amino_acid_order ++ [(amino_acid_type, chosen)])
      | _, _ => Ok (grid, amino_acid_order)
      end
  end.

(** [initialize_grid].  Its parameters [num_hydrophobic] and [num_polar] are
    not used by the source and are left out. *)
Definition initialize_grid (rng : draws) (amino_acids : list string)
  : result (Grid * list placement) :=
  let total_amino_acids := length amino_acids in
  let grid_size := (Z.of_nat total_amino_acids * 2)%Z in
  let grid := np_full (total_amino_acids * 2) in
  let first := (grid_size `div` 2)%Z in
  match amino_acids with
  | [] => Raise IndexError
  | amino_acid_type :: copy =>
      grid' ← setitem grid (first, first) amino_acid_type;
      place_loop rng (total_amino_acids - 1) grid_size grid' copy
        [(amino_acid_type, (first, first))]
  end.

End Stochastic.

(** ** Direction model *)

(** The dictionary [movement_vectors]; a key it does not hold raises
    KeyError. *)
Definition movement_vectors (key : string) : result pos :=
  if String.eqb key "up" then Ok (-1, 0)%Z
  else if String.eqb key "down" then Ok (1, 0)%Z
  else if String.eqb key "left" then Ok (0, -1)%Z
  else if String.eqb key "right" then Ok (0, 1)%Z
  else Raise KeyError.

Definition position_at (order : list placement) (i : nat) : result pos :=
  match order !! i with
  | Some (_, p) => Ok p
  | None => Raise IndexError
  end.

Definition pos_eqb (p q : pos) : bool := bool_decide (p = q).

(** Body of the loop of [determine_directions] at index [i >= 1]. *)
Definition direction_at (amino_acid_order : list placement) (i : nat)
  : result string :=
  cur ← position_at amino_acid_order i;
  prev ← position_at amino_acid_order (i - 1);
  let move_vector := (cur.1 - prev.1, cur.2 - prev.2)%Z in
  up ← movement_vectors "up";
  down ← movement_vectors "down";
  left ← movement_vectors "left";
  right ← movement_vectors "right";
  if (i =? 1)%nat then Ok "straight"
  else
    prev_prev ← position_at amino_acid_order (i - 2);
    let prev_move_vector :=
      (prev.1 - prev_prev.1, prev.2 - prev_prev.2)%Z in
    if pos_eqb prev_move_vector up || pos_eqb prev_move_vector down then
      if pos_eqb move_vector left then
        Ok (if pos_eqb prev_move_vector up then "left" else "right")
      else if pos_eqb move_vector right then
        Ok (if pos_eqb prev_move_vector up then "right" else "left")
      else Ok "straight"
    else
      if pos_eqb move_vector up then
        Ok (if pos_eqb prev_move_vector right then "left" else "right")
      else if pos_eqb move_vector down then
        Ok (if pos_eqb prev_move_vector right then "right" else "left")
      else Ok "straight".

Fixpoint map_r {A B} (f : A → result B) (l : list A) : result (list B) :=
  match l with
  | [] => Ok []
  | x :: l' => y ← f x; ys ← map_r f l'; Ok (y :: ys)
  end.

Definition determine_directions (amino_acid_order : list placement)
  : result (list string) :=
  ds ← map_r (direction_at amino_acid_order)
        (seq 1 (length amino_acid_order - 1));
  Ok ("Start" :: ds).

(** ** Deterministic-directional placement engine (experiment 2) *)

Module Directional.

(** [np.random.choice(['left', 'straight', 'right'])] *)
Definition random_turn (d : nat) : string :=
  match (d `mod` 3)%nat with
  | 0%nat => "left"
  | 1%nat => "straight"
  | _ => "right"
  end.

Fixpoint random_turns (rng : draws) (k : nat) : list string :=
  match k with
  | O => []
  | S k' => random_turn (rng 0%nat) :: random_turns (next_draws rng) k'
  end.

Definition generate_random_directions (rng : draws) (total_amino_acids : nat)
  : list string :=
  ["Start"; "straight"] ++ random_turns rng (total_amino_acids - 2).

(** The nested function [get_new_orientation]; falling off the end of the
    [if]/[elif] chain returns Python's [None]. *)
Definition get_new_orientation (current_orientation turn : string)
  : option string :=
  if String.eqb current_orientation "up" then
    Some (if String.eqb turn "left" then "left" else "right")
  else if String.eqb current_orientation "down" then
    Some (if String.eqb turn "left" then "right" else "left")
  else if String.eqb current_orientation "left" then
    Some (if String.eqb turn "left" then "down" else "up")
  else if String.eqb current_orientation "right" then
    Some (if String.eqb turn "left" then "up" else "down")
  else None.

(** The call site: the rotation is skipped for ['straight']; an orientation
    of [None] makes the following [movement_vectors[current_orientation]]
    raise KeyError. *)
Definition turn_orientation (current_orientation direction : string)
  : result string :=
  if negb (String.eqb direction "straight") then
    match get_new_orientation current_orientation direction with
    | Some o => Ok o
    | None => Raise KeyError
    end
  else Ok current_orientation.

(** The [for direction in directions] loop. *)
Fixpoint walk (directions : list string) (grid_size : Z) (grid : Grid)
    (amino_acids_copy : list string) (amino_acid_order : list placement)
    (current : pos) (current_orientation : string)
  : result (Grid * list placement) :=
  match directions with
  | [] => Ok (grid, amino_acid_order)
  | direction :: rest =>
      if String.eqb direction "Start" then
        match amino_acids_copy with
        | [] => Raise IndexError
        | amino_acid_type :: copy' =>
            grid' ← setitem grid current amino_acid_type;
            let order' := amino_acid_order ++ [(amino_acid_type, current)] in
            match copy' with
            | [] => Ok (grid', order')
            | _ => walk rest grid_size grid' copy' order' current
                     current_orientation
            end
        end
      else
        orientation' ← turn_orientation current_orientation direction;
        move ← movement_vectors orientation';
        let next := (current.1 + move.1, current.2 + move.2)%Z in
        free ← free_cell grid_size grid next;
        if (free : bool) then
          match amino_acids_copy with
          | [] => Raise IndexError
          | amino_acid_type :: copy' =>
              grid' ← setitem grid next amino_acid_type;
              let order' := amino_acid_order ++ [(amino_acid_type, next)] in
              match copy' with
              | [] => Ok (grid', order')
              | _ => walk rest grid_size grid' copy' order' next orientation'
              end
          end
        else Ok (grid, amino_acid_order)
  end.

Definition initialize_grid_directional (amino_acids directions : list string)
  : result (Grid * list placement) :=
  let total_amino_acids := length amino_acids in
  let grid_size := (Z.of_nat total_amino_acids * 2)%Z in
  let grid := np_full (total_amino_acids * 2) in
  walk directions grid_size grid amino_acids []
    (grid_size `div` 2, grid_size `div` 2)%Z "right".

End Directional.

(** ** Backtracking placement engine (experiment 4) *)

Module Backtracking.

(** The double loop that resets every cell holding ['F']. *)
Definition clear_fences (grid : Grid) : Grid :=
  (λ row : list string,
     (λ s, if String.eqb s "F" then "" else s) <$> row) <$> grid.

(** [place_amino_acid].  Every call of the source is a nested Python call;
    [depth] is the number of stack frames still available, and running out of
    them raises RecursionError.  [grid], [amino_acids_copy] and
    [amino_acid_order] are mutated in place by the source and are returned
    here next to the pair the source returns.  [last] is
    [(last_amino_row, last_amino_col)], [None] on the first call.  The
    parameter [fenced] of the source is never read and is left out. *)
Fixpoint place_amino_acid (depth : nat) (rng : draws) (grid : Grid)
    (amino_acids_copy : list string) (amino_acid_order : list placement)
    (backtrack_count : nat) (last : option pos)
    (we_just_backtracked fence_limit fences acids_placed_since_backtrack : nat)
  : result (bool * nat * Grid * list placement) :=
  match depth with
  | O => Raise RecursionError
  | S depth' =>
    let grid_size := Z.of_nat (length grid) in
    match amino_acids_copy with
    | [] => Ok (true, backtrack_count, grid, amino_acid_order)
    | amino_acid_type :: copy' =>
      match last with
      | None =>
          let first := (grid_size `div` 2)%Z in
          grid' ← setitem grid (first, first) amino_acid_type;
          place_amino_acid depth' rng grid' copy'
            (amino_acid_order ++ [(amino_acid_type, (first, first))])
            backtrack_count (Some (first, first)) we_just_backtracked
            fence_limit fences acids_placed_since_backtrack
      | Some last_pos =>
          valid ← valid_neighbors grid_size grid last_pos;
          match valid with
          | _ :: _ =>
              chosen ← shuffled_first (rng 0%nat) valid;
              grid' ← setitem grid chosen amino_acid_type;
              place_amino_acid depth' (next_draws rng) grid' copy'
                (amino_acid_order ++ [(amino_acid_type, chosen)])
                backtrack_count (Some chosen) 0 fence_limit fences
                (acids_placed_since_backtrack + 1)
          | [] =>
              let backtrack_count := (backtrack_count + 1)%nat in
              let fence_limit := (fence_limit + 1)%nat in
              grid' ← setitem grid last_pos "";
              match amino_acid_order with
              | [] => Raise IndexError
              | _ :: _ =>
                  let order' := removelast amino_acid_order in
                  let '(grid'', fences') :=
                    if (fences <? acids_placed_since_backtrack)%nat
                    then (clear_fences grid', O) else (grid', fences) in
                  match list.last order' with
                  | None => Ok (false, backtrack_count, grid'', order')
                  | Some (_, prev) =>
                      place_amino_acid depth' (next_draws rng) grid''
                        amino_acids_copy order' backtrack_count (Some prev)
                        1 fence_limit fences' 0
                  end
              end
          end
      end
    end
  end.

(** [initialize_grid] of experiment 4; it drops the flag [is_placed]. *)
Definition initialize_grid (depth : nat) (rng : draws)
    (amino_acids : list string)
  : result (Grid * list placement * nat) :=
  let total_amino_acids := length amino_acids in
  let grid := np_full (total_amino_acids * 2) in
  '(is_placed, backtrack_count, grid', amino_acid_order) ←
     place_amino_acid depth rng grid amino_acids [] 0 None 0 0 0 0;
  Ok (grid', amino_acid_order, backtrack_count).

End Backtracking.

(** ** Contact analyser *)

Fixpoint fold_r {A S} (f : S → A → result S) (s : S) (l : list A)
  : result S :=
  match l with
  | [] => Ok s
  | x :: l' => s' ← f s x; fold_r f s' l'
  end.

(** [frozenset({p, q})] *)
Definition frozen_pair (p q : pos) : gset pos := {[p; q]}.

Definition grid_shape (grid : Grid) : Z * Z :=
  (Z.of_nat (length grid), Z.of_nat (length (default [] (head grid)))).

Definition add_H_neighbor (grid : Grid) (p : pos)
    (acc : gset (gset pos)) (nb : pos) : result (gset (gset pos)) :=
  if bool_decide (0 ≤ nb.1 < (grid_shape grid).1)%Z
     && bool_decide (0 ≤ nb.2 < (grid_shape grid).2)%Z
  then
    neighbor_acid ← getitem grid nb;
    Ok (if String.eqb neighbor_acid "H"
        then {[ frozen_pair p nb ]} ∪ acc else acc)
  else Ok acc.

Definition scan_cell (grid : Grid) (row : Z) (acc : gset (gset pos))
    (col : Z) : result (gset (gset pos)) :=
  current_acid ← getitem grid (row, col);
  if String.eqb current_acid "H"
  then fold_r (add_H_neighbor grid (row, col)) acc (four_neighbors (row, col))
  else Ok acc.

Definition find_H_pairs_grid (grid : Grid) : result (gset (gset pos)) :=
  fold_r (λ acc row,
            fold_r (scan_cell grid row) acc (seqZ 0 (grid_shape grid).2))
         ∅ (seqZ 0 (grid_shape grid).1).

Fixpoint find_H_pairs_order (amino_acid_order : list placement)
  : gset (gset pos) :=
  match amino_acid_order with
  | (current_acid, current_position) :: rest =>
      match rest with
      | (next_acid, next_position) :: _ =>
          (if String.eqb current_acid "H" && String.eqb next_acid "H"
           then {[ frozen_pair current_position next_position ]} else ∅)
          ∪ find_H_pairs_order rest
      | [] => ∅
      end
  | [] => ∅
  end.

Definition find_H_bonds (grid : Grid) (amino_acid_order : list placement)
  : result (gset (gset pos)) :=
  grid_h_pairs ← find_H_pairs_grid grid;
  Ok (grid_h_pairs ∖ find_H_pairs_order amino_acid_order).

(** ** Sample statistics *)

(** [np.count_nonzero(grid != '')] *)
Definition count_nonzero (grid : Grid) : nat :=
  sum_list_with (sum_list_with (λ s, if String.eqb s "" then 0 else 1)%nat)
    grid.

(** Python's [/] on two non-negative integers, with the quotient kept as an
    exact rational. *)
Definition true_div (a b : nat) : result Q :=
  match b with
  | O => Raise ZeroDivisionError
  | S _ => Ok (Qmake (Z.of_nat a) (Pos.of_nat b))
  end.

(** The part of the body of the loop of [generate_random_samples] that
    follows the call of the engine: residues on the grid, bond count and
    H-ratio. *)
Definition sample_stats (conformation : Grid * list placement)
  : result (nat * nat * Q) :=
  let '(initial_grid, amino_acid_order) := conformation in
  let amino_acids_on_grid := count_nonzero initial_grid in
  bonds ← find_H_bonds initial_grid amino_acid_order;
  let hbonds := size bonds in
  hratio ← true_div hbonds amino_acids_on_grid;
  Ok (amino_acids_on_grid, hbonds, hratio).

(** ** Specification vocabulary *)

(** A residue of the HP model. *)
Definition residue (a : string) : Prop := a = "H" ∨ a = "P".

(** The cell read by [grid[row, col]] for an index inside the grid. *)
Definition cell (g : Grid) (p : pos) : string :=
  default "" (row ← g !! Z.to_nat p.1; row !! Z.to_nat p.2).

Definition square (n : nat) (g : Grid) : Prop :=
  length g = n ∧ Forall (λ row, length row = n) g.

Definition inside (n : nat) (p : pos) : Prop :=
  (0 ≤ p.1 < Z.of_nat n)%Z ∧ (0 ≤ p.2 < Z.of_nat n)%Z.

(** Lattice adjacency: Manhattan distance one. *)
Definition adjacent (p q : pos) : Prop :=
  (Z.abs (p.1 - q.1) + Z.abs (p.2 - q.2) = 1)%Z.

(** No two entries of a placement order share a position. *)
Definition self_avoiding (order : list placement) : Prop :=
  ∀ i j a p b q,
    order !! i = Some (a, p) → order !! j = Some (b, q) → p = q → i = j.

(** Every entry after the first is adjacent to its predecessor. *)
Definition connected (order : list placement) : Prop :=
  ∀ i a p b q,
    order !! i = Some (a, p) → order !! S i = Some (b, q) → adjacent q p.

(** Every placed residue is on the grid at its recorded position. *)
Definition on_grid (grid : Grid) (order : list placement) : Prop :=
  ∀ a p, (a, p) ∈ order → getitem grid p = Ok a.

(** The grid and the placement order describe the same conformation on an
    [n] by [n] lattice. *)
Record consistent (n : nat) (grid : Grid) (order : list placement) : Prop := {
  c_square : square n grid;
  c_placed : ∀ a p, (a, p) ∈ order → inside n p ∧ residue a ∧ cell grid p = a;
  c_empty : ∀ p, inside n p → p ∉ order.*2 → cell grid p = "";
  c_nodup : NoDup order.*2;
  c_count : count_nonzero grid = length order;
}.

(** A walk of a chain of length [L] that started at the centre [(L, L)] of
    the [2L] by [2L] lattice. *)
Record walk_inv (L : nat) (grid : Grid) (order : list placement) : Prop := {
  w_consistent : consistent (L * 2) grid order;
  w_connected : connected order;
  w_first : ∀ a p, order !! 0%nat = Some (a, p) → p = (Z.of_nat L, Z.of_nat L);
  w_near : ∀ i a p, order !! i = Some (a, p) →
      (Z.abs (p.1 - Z.of_nat L) + Z.abs (p.2 - Z.of_nat L) ≤ Z.of_nat i)%Z;
}.

(** The four headings of the direction model. *)
Definition valid_orientation (o : string) : Prop :=
  o = "up" ∨ o = "down" ∨ o = "left" ∨ o = "right".

(** A turn sequence as the deterministic engine expects it: ['Start'] first
    and nowhere else. *)
Definition turn_sequence (directions : list string) : Prop :=
  ∃ turns, directions = "Start" :: turns ∧ "Start" ∉ turns.

(** A cell of the first or last row or column of the [2L] by [2L] lattice. *)
Definition on_border (L : nat) (p : pos) : Prop :=
  (p.1 = 0 ∨ p.1 = 2 * Z.of_nat L - 1 ∨ p.2 = 0 ∨ p.2 = 2 * Z.of_nat L - 1)%Z.

(** The three turns of the direction model. *)
Definition relative_turn (t : string) : Prop :=
  t = "left" ∨ t = "straight" ∨ t = "right".

(** The pairs that [find_H_pairs_grid] collects while it visits cell [p] of
    an [n] by [n] grid. *)
Definition H_pair_with (n : nat) (g : Grid) (p q : pos) : gset (gset pos) :=
  if decide (inside n q ∧ cell g q = "H") then {[ frozen_pair p q ]} else ∅.

Definition H_pairs_at (n : nat) (g : Grid) (p : pos) : gset (gset pos) :=
  if decide (cell g p = "H")
  then ⋃ (H_pair_with n g p <$> four_neighbors p) else ∅.

(** A placement order that lies on one lattice line: entry [i] is [i] steps
    of the unit vector [d] away from [p0]. *)
Definition straight_line (order : list placement) : Prop :=
  ∃ (p0 d : pos),
    (Z.abs d.1 + Z.abs d.2 = 1)%Z ∧
    ∀ i a p, order !! i = Some (a, p) →
      p = (p0.1 + Z.of_nat i * d.1, p0.2 + Z.of_nat i * d.2)%Z.

(** What [generate_random_samples] records for a conformation: the residues
    on the grid are the entries of the placement order, there is at least
    one, and the H-ratio is the bond count divided by their number. *)
Definition sample_ok (conformation : Grid * list placement) : Prop :=
  ∃ bonds hratio,
    let amino_acids_on_grid := length conformation.2 in
    let hbonds := size bonds in
    find_H_bonds conformation.1 conformation.2 = Ok bonds ∧
    count_nonzero conformation.1 = amino_acids_on_grid ∧
    (0 < amino_acids_on_grid)%nat ∧
    sample_stats conformation = Ok (amino_acids_on_grid, hbonds, hratio) ∧
    Qeq hratio (inject_Z (Z.of_nat hbonds)
                / inject_Z (Z.of_nat amino_acids_on_grid))%Q ∧
    (Qeq hratio 0 ↔ hbonds = 0%nat).

(** The placement order a run stopped with: its residues are the first
    residues of the chain, in order, and each is on the grid where the order
    says. *)
Definition partial_conformation (amino_acids : list string)
    (grid : Grid) (order : list placement) : Prop :=
  order.*1 `prefix_of` amino_acids ∧ on_grid grid order.

(** ** Sample inputs *)

Definition chain_HHPPH : list string := ["H"; "H"; "P"; "P"; "H"].
Definition chain_HPHPH : list string := ["H"; "P"; "H"; "P"; "H"].
Definition turns_straight : list string :=
  ["Start"; "straight"; "straight"; "straight"; "straight"].
Definition turns_spiral : list string :=
  ["Start"; "straight"; "left"; "left"; "left"].
Definition draws_counting : draws := λ k, k.
(** Draws that send the stochastic walk straight down. *)
Definition draws_down : draws := λ k, match k with O => 1%nat | S _ => 0%nat end.

(** A chain of nine residues and draws that lead the backtracking engine
    into the smallest dead end (eight cells), after which the ninth residue
    is placed next to the seventh. *)
Definition chain_9 : list string :=
  ["H"; "P"; "H"; "P"; "H"; "P"; "H"; "P"; "H"].
Definition draws_dead_end : draws := λ k,
  match k with
  | 0 => 3 | 1 => 1 | 2 => 0 | 3 => 1 | 4 => 2 | 5 => 0 | 6 => 2 | _ => 0
  end%nat.

(** ** Further sample inputs *)

(** The 2 by 2 block [H H / P H]. *)
Definition grid_block : Grid := [["H"; "H"]; ["P"; "H"]].

(** A turn sequence as [generate_random_directions] builds it: ['Start'],
    ['straight'], then turns of left, straight, right. *)
Definition generated_directions (directions : list string) : Prop :=
  ∃ turns, directions = "Start" :: "straight" :: turns ∧
           Forall relative_turn turns.

(** ** Helpers of the heuristic variant (experiment 4) *)

(** The items of the dictionary [movement_vectors], in insertion order. *)
Definition movement_vector_items : list (string * pos) :=
  [("up", (-1, 0)); ("down", (1, 0)); ("left", (0, -1)); ("right", (0, 1))]%Z.

(** [determine_direction(prev_row, prev_col, current_row, current_col)]: the
    first key of [movement_vectors] whose vector is the move, Python's
    [None] when there is none. *)
Definition determine_direction (prev current : pos) : option string :=
  let current_move_vector := (current.1 - prev.1, current.2 - prev.2)%Z in
  match find (λ item, pos_eqb current_move_vector item.2)
          movement_vector_items with
  | Some (direction, _) => Some direction
  | None => None
  end.

(** [get_deterministic_neighbors(last_row, last_col, relative_direction)] *)
Definition get_deterministic_neighbors (last : pos)
    (relative_direction : string) : list pos :=
  let '(left_, middle, right_) :=
    if String.eqb relative_direction "down" then
      ((last.1, last.2 + 1), (last.1 + 1, last.2), (last.1, last.2 - 1))%Z
    else if String.eqb relative_direction "up" then
      ((last.1, last.2 - 1), (last.1 - 1, last.2), (last.1, last.2 + 1))%Z
    else if String.eqb relative_direction "left" then
      ((last.1 + 1, last.2), (last.1, last.2 - 1), (last.1 - 1, last.2))%Z
    else
      ((last.1 - 1, last.2), (last.1, last.2 + 1), (last.1 + 1, last.2))%Z in
  [left_; middle; right_].

(** ** Bounding box of a conformation *)

(** The boolean array [grid != ''] *)
Definition not_empty (grid : Grid) : list (list bool) :=
  map (map (λ s, negb (String.eqb s ""))) grid.

(** [np.any(a, axis=1)]: the flags of each row joined with [or]. *)
Definition any_axis1 (a : list (list bool)) : list bool :=
  map (foldr orb false) a.

(** The rows of [a] joined with [or], cell by cell. *)
Definition logical_or_reduce (width : nat) (a : list (list bool))
  : list bool :=
  foldr (zip_with orb) (replicate width false) a.

(** [np.any(a, axis=0)]: one flag per column. *)
Definition any_axis0 (a : list (list bool)) : list bool :=
  logical_or_reduce (length (default [] (head a))) a.

(** Indexing with a boolean array, [l[flags]] *)
Fixpoint mask {A} (flags : list bool) (l : list A) : list A :=
  match flags, l with
  | b :: flags', x :: l' => if b then x :: mask flags' l' else mask flags' l'
  | _, _ => []
  end.

Definition trim_empty_rows_and_columns (grid : Grid) : Grid :=
  let non_empty_rows := any_axis1 (not_empty grid) in
  let non_empty_columns := any_axis0 (not_empty grid) in
  let trimmed_grid := map (mask non_empty_columns) (mask non_empty_rows grid) in
  trimmed_grid.

(** Number of [True] flags. *)
Definition count_true (flags : list bool) : nat :=
  sum_list_with (λ b : bool, if b then 1 else 0)%nat flags.

(** All rows of an array have [width] cells. *)
Definition rectangular {A} (width : nat) (grid : list (list A)) : Prop :=
  Forall (λ row, length row = width) grid.

(** The residues of a grid read row by row. *)
Definition residues_of (grid : Grid) : list string :=
  filter (λ s, s ≠ "") (concat grid).

Definition grid_sparse : Grid :=
  [[""; ""; ""; ""]; [""; "H"; ""; "P"]; [""; ""; ""; ""]; [""; "P"; ""; ""]].

(** The rows and the columns that a placement order touches. *)
Definition rows_of (order : list placement) : gset nat :=
  list_to_set (map (λ e : placement, Z.to_nat e.2.1) order).
Definition columns_of (order : list placement) : gset nat :=
  list_to_set (map (λ e : placement, Z.to_nat e.2.2) order).

(** ** Random chains *)

(** What a sampling function does: it returns, or raises the ValueError of
    [np.random.randint], or raises one of the exceptions of the engines. *)
Inductive sampled (A : Type) : Type :=
| Sampled (a : A)
| ValueError
| Failed (e : exn).
Arguments Sampled {A} a.
Arguments ValueError {A}.
Arguments Failed {A} e.

Global Instance sampled_ret : MRet sampled := λ A a, Sampled a.
Global Instance sampled_bind : MBind sampled := λ A B k m,
  match m with
  | Sampled a => k a
  | ValueError => ValueError
  | Failed e => Failed e
  end.

Definition of_result {A} (r : result A) : sampled A :=
  match r with
  | Ok a => Sampled a
  | Raise e => Failed e
  end.

(** [np.random.randint(low, high)]: the draw selects one of
    [low, ..., high - 1]; ValueError when there is none. *)
Definition randint (d low high : nat) : sampled nat :=
  if decide (low < high)%nat then Sampled (low + d `mod` (high - low))%nat
  else ValueError.

(** [np.random.shuffle(l)]: the draw selects the permutation, element by
    element; the first element is the one [shuffled_first] reads. *)
Fixpoint shuffle_from {A} (n d : nat) (l : list A) : list A :=
  match n with
  | O => []
  | S n' =>
      let i := (d `mod` length l)%nat in
      match l !! i with
      | Some x => x :: shuffle_from n' (d `div` length l)%nat (delete i l)
      | None => []
      end
  end.

Definition shuffle {A} (d : nat) (l : list A) : list A :=
  shuffle_from (length l) d l.

Definition random_division (rng : draws) (total_amino_acids : nat)
  : sampled (nat * nat * list string) :=
  num_hydrophobic ← randint (rng 0%nat) 1 total_amino_acids;
  let num_polar := (total_amino_acids - num_hydrophobic)%nat in
  let amino_acids :=
    replicate num_hydrophobic "H" ++ replicate num_polar "P" in
  Sampled (num_hydrophobic, num_polar, shuffle (rng 1%nat) amino_acids).

(** Number of residues [a] in a chain. *)
Definition count_residue (a : string) (chain : list string) : nat :=
  length (filter (λ b, b = a) chain).

(** ** Sampling *)

(** One entry of the list [random_samples]. *)
Record sample : Type := {
  num_hydrophobic : nat;
  num_polar : nat;
  amino_acids : list string;
  initial_grid : Grid;
  amino_acids_on_grid : nat;
  amino_acid_order : list placement;
  amino_acids_directions : list string;
  trimmed_grid : Grid;
  protein_dimensions : Z * Z;
  hbonds : nat;
  hratio : Q;
}.

(** The body of the loop of [generate_random_samples] from the call of
    [trim_empty_rows_and_columns] on; [directions_of] is the notebook's
    [determine_directions]. *)
Definition record_sample
    (directions_of : list placement → result (list string))
    (nh np : nat) (chain : list string) (grid : Grid)
    (order : list placement) : result sample :=
  let trimmed := trim_empty_rows_and_columns grid in
  let dimensions := grid_shape trimmed in
  directions ← directions_of order;
  '(on_grid, bonds, ratio) ← sample_stats (grid, order);
  Ok {| num_hydrophobic := nh; num_polar := np; amino_acids := chain;
        initial_grid := grid; amino_acids_on_grid := on_grid;
        amino_acid_order := order; amino_acids_directions := directions;
        trimmed_grid := trimmed; protein_dimensions := dimensions;
        hbonds := bonds; hratio := ratio |}.

(** [for _ in range(N)] with the list [random_samples].  Each pass reads
    its own stream of draws: the rest of the generator's stream at the start
    of the pass. *)
Fixpoint repeat_sample {T} (one_sample : draws → sampled T)
    (rngs : nat → draws) (N : nat) : sampled (list T) :=
  match N with
  | O => Sampled []
  | S N' =>
      s ← one_sample (rngs 0%nat);
      random_samples ← repeat_sample one_sample (λ k, rngs (S k)) N';
      Sampled (s :: random_samples)
  end.

Module Experiment1.

Definition one_sample (total_amino_acids : nat) (rng : draws)
  : sampled sample :=
  '(nh, np, chain) ← random_division rng total_amino_acids;
  '(grid, order) ←
     of_result (Stochastic.initialize_grid (next_draws (next_draws rng)) chain);
  of_result (record_sample determine_directions nh np chain grid order).

Definition generate_random_samples (rngs : nat → draws)
    (N total_amino_acids : nat) : sampled (list sample) :=
  repeat_sample (one_sample total_amino_acids) rngs N.

End Experiment1.

Module Experiment2.

Definition one_sample (total_amino_acids : nat) (rng : draws)
  : sampled sample :=
  '(nh, np, chain) ← random_division rng total_amino_acids;
  let directions :=
    Directional.generate_random_directions (next_draws (next_draws rng))
      total_amino_acids in
  '(grid, order) ←
     of_result (Directional.initialize_grid_directional chain directions);
  of_result (record_sample determine_directions nh np chain grid order).

Definition generate_random_samples (rngs : nat → draws)
    (N total_amino_acids : nat) : sampled (list sample) :=
  repeat_sample (one_sample total_amino_acids) rngs N.

End Experiment2.

Module Experiment4.

(** [determine_directions] of experiment 4 writes the first label in lower
    case. *)
Definition determine_directions (amino_acid_order : list placement)
  : result (list string) :=
  ds ← map_r (direction_at amino_acid_order)
        (seq 1 (length amino_acid_order - 1));
  Ok ("start" :: ds).

(** A sample of experiment 4 ends with the field [backtracks]. *)
Definition one_sample (depth total_amino_acids : nat) (rng : draws)
  : sampled (sample * nat) :=
  '(nh, np, chain) ← random_division rng total_amino_acids;
  '(grid, order, backtrack_count) ←
     of_result
       (Backtracking.initialize_grid depth (next_draws (next_draws rng))
          chain);
  s ← of_result (record_sample determine_directions nh np chain grid order);
  let backtracks := backtrack_count in
  Sampled (s, backtracks).

Definition generate_random_samples (depth : nat) (rngs : nat → draws)
    (N total_amino_acids : nat) : sampled (list (sample * nat)) :=
  repeat_sample (one_sample depth total_amino_acids) rngs N.

End Experiment4.

(** What every recorded sample satisfies, for chains of [total] residues. *)
Definition sample_sound (total : nat) (s : sample) : Prop :=
  (1 ≤ num_hydrophobic s)%nat ∧ (1 ≤ num_polar s)%nat ∧
  (num_hydrophobic s + num_polar s = total)%nat ∧
  amino_acids s ≡ₚ replicate (num_hydrophobic s) "H"
                   ++ replicate (num_polar s) "P" ∧
  walk_inv total (initial_grid s) (amino_acid_order s) ∧
  (amino_acid_order s).*1 `sublist_of` amino_acids s ∧
  amino_acids_on_grid s = length (amino_acid_order s) ∧
  (1 ≤ amino_acids_on_grid s ≤ total)%nat ∧
  length (amino_acids_directions s) = amino_acids_on_grid s ∧
  trimmed_grid s = trim_empty_rows_and_columns (initial_grid s) ∧
  protein_dimensions s = grid_shape (trimmed_grid s) ∧
  (∃ bonds, find_H_bonds (initial_grid s) (amino_acid_order s) = Ok bonds ∧
            hbonds s = size bonds) ∧
  Qeq (hratio s)
    (inject_Z (Z.of_nat (hbonds s))
     / inject_Z (Z.of_nat (amino_acids_on_grid s)))%Q.

(** A conformation of the HP model as a placement order: a self-avoiding,
    connected walk of residues that starts at the centre of the lattice of
    its chain. *)
Definition centred_walk (order : list placement) : Prop :=
  order ≠ [] ∧ Forall residue order.*1 ∧ NoDup order.*2 ∧ connected order ∧
  ∀ a p, order !! 0%nat = Some (a, p) →
         p = (Z.of_nat (length order), Z.of_nat (length order)).

(** The draws [d] followed by the draws of [rng]. *)
Definition draws_cons (d : nat) (rng : draws) : draws := λ k,
  match k with
  | O => d
  | S k' => rng k'
  end.

Definition walk_hook : list placement :=
  [("H", (4, 4)); ("P", (3, 4)); ("P", (3, 3)); ("H", (4, 3))]%Z.

Definition walk_hook_right : list placement :=
  [("H", (4, 4)); ("P", (4, 5)); ("P", (3, 5)); ("H", (3, 4))]%Z.

(** What is asked of the H-ratio of a recorded sample: the residues on the
    grid are counted on the grid and there is at least one, the division is
    defined, its value is the bond count divided by the residues on the
    grid, and it is 0 exactly when the bond count is 0 (the residues on the
    grid being positive). *)
Definition h_ratio_ok (s : sample) : Prop :=
  amino_acids_on_grid s = count_nonzero (initial_grid s) ∧
  (0 < amino_acids_on_grid s)%nat ∧
  (∃ bonds,
     find_H_bonds (initial_grid s) (amino_acid_order s) = Ok bonds ∧
     hbonds s = size bonds) ∧
  true_div (hbonds s) (amino_acids_on_grid s) = Ok (hratio s) ∧
  Qeq (hratio s)
    (inject_Z (Z.of_nat (hbonds s))
     / inject_Z (Z.of_nat (amino_acids_on_grid s)))%Q ∧
  (Qeq (hratio s) 0 ↔
   hbonds s = 0%nat ∧ (0 < amino_acids_on_grid s)%nat).

(** A run of [generate_random_samples(N, total)] that never divides by zero
    residues: it returns [N] samples with a defined H-ratio, and does so for
    every total of at least 2; the only exception it can raise is the
    ValueError of [random_division], for a total below 2, before any engine
    has run. *)
Definition ratio_guarded (N total : nat) (run : sampled (list sample))
  : Prop :=
  match run with
  | Sampled random_samples =>
      length random_samples = N ∧ Forall h_ratio_ok random_samples
  | ValueError => (total < 2)%nat ∧ (0 < N)%nat
  | Failed _ => False
  end ∧
  ((2 ≤ total)%nat → ∃ random_samples, run = Sampled random_samples).

(** * Properties *)

Lemma bind_Ok {A B} (a : A) (k : A → result B) : Ok a ≫= k = k a.
Proof. done. Qed.

(** ** The lattice *)

Lemma norm_index_inside n i :
  (0 ≤ i < Z.of_nat n)%Z → norm_index n i = Some (Z.to_nat i).
Proof. intros H. unfold norm_index. by rewrite decide_True. Qed.

Lemma in_range_inside n p : in_range (Z.of_nat n) p = true ↔ inside n p.
Proof.
  unfold in_range, inside. rewrite andb_true_iff, !bool_decide_eq_true. done.
Qed.

Lemma in_range_outside n p : in_range (Z.of_nat n) p = false ↔ ¬ inside n p.
Proof. rewrite <- in_range_inside. by destruct (in_range _ _). Qed.

Lemma square_full n : square n (np_full n).
Proof.
  split; [apply length_replicate|].
  apply Forall_forall. intros row Hrow.
  apply elem_of_replicate in Hrow as [-> _]. apply length_replicate.
Qed.

Lemma square_row n g r row : square n g → g !! r = Some row → length row = n.
Proof.
  intros [_ Hrows] Hr. rewrite Forall_forall in Hrows.
  apply Hrows. eapply list_elem_of_lookup_2; eauto.
Qed.

Lemma square_lookup n g p :
  square n g → inside n p →
  ∃ row, g !! Z.to_nat p.1 = Some row ∧ length row = n.
Proof.
  intros Hsq [Hr _].
  destruct (lookup_lt_is_Some_2 g (Z.to_nat p.1)) as [row Hrow].
  { destruct Hsq as [-> _]. lia. }
  exists row. split; [done|]. eapply square_row; eauto.
Qed.

Lemma getitem_inside n g p :
  square n g → inside n p → getitem g p = Ok (cell g p).
Proof.
  intros Hsq Hin. destruct (square_lookup n g p Hsq Hin) as (row & Hrow & Hlen).
  destruct Hin as [Hr Hc]. unfold getitem, cell.
  rewrite (proj1 Hsq), (norm_index_inside _ _ Hr), Hrow. simpl.
  by rewrite Hlen, (norm_index_inside _ _ Hc).
Qed.

Lemma cell_full n p : cell (np_full n) p = "".
Proof.
  unfold cell, np_full.
  destruct (decide (Z.to_nat p.1 < n)%nat) as [Hr|Hr].
  - rewrite lookup_replicate_2 by done. simpl.
    destruct (decide (Z.to_nat p.2 < n)%nat) as [Hc|Hc].
    + by rewrite lookup_replicate_2.
    + rewrite lookup_ge_None_2; [done|]. rewrite length_replicate. lia.
  - rewrite lookup_ge_None_2; [done|]. rewrite length_replicate. lia.
Qed.

Lemma sum_list_with_insert {A} (f : A → nat) (l : list A) i x y :
  l !! i = Some x →
  (sum_list_with f (<[i:=y]> l) + f x = sum_list_with f l + f y)%nat.
Proof.
  intros Hi. rewrite insert_take_drop by (by eapply lookup_lt_Some).
  assert (Hl : (sum_list_with f l
                = sum_list_with f (take i l) + (f x
                  + sum_list_with f (drop (S i) l)))%nat).
  { rewrite <- (take_drop_middle l i x Hi) at 1.
    by rewrite sum_list_with_app. }
  rewrite sum_list_with_app. simpl. lia.
Qed.

Lemma count_nonzero_full n : count_nonzero (np_full n) = 0%nat.
Proof.
  unfold count_nonzero, np_full.
  assert (Hrow : sum_list_with (λ s, if String.eqb s "" then 0 else 1)%nat
                   (replicate n "") = 0%nat).
  { induction n as [|n IH]; [done|]. simpl. by rewrite IH. }
  generalize n at 1. intros m. induction m as [|m IH]; [done|].
  simpl. by rewrite Hrow, IH.
Qed.

Lemma count_nonzero_setitem n g p v g' :
  square n g → inside n p → setitem g p v = Ok g' →
  (count_nonzero g' + (if String.eqb (cell g p) "" then 0 else 1)
   = count_nonzero g + (if String.eqb v "" then 0 else 1))%nat.
Proof.
  intros Hsq Hin. destruct (square_lookup n g p Hsq Hin) as (row & Hrow & Hlen).
  pose proof Hin as [Hr Hc]. unfold setitem.
  rewrite (proj1 Hsq), (norm_index_inside _ _ Hr), Hrow. simpl.
  rewrite Hlen, (norm_index_inside _ _ Hc). intros [= <-].
  destruct (lookup_lt_is_Some_2 row (Z.to_nat p.2)) as [s Hs]; [lia|].
  unfold cell. rewrite Hrow. simpl. rewrite Hs. simpl.
  unfold count_nonzero.
  pose proof (sum_list_with_insert
                (sum_list_with (λ s, if String.eqb s "" then 0 else 1)%nat)
                g _ row (<[Z.to_nat p.2 := v]> row) Hrow) as H1.
  pose proof (sum_list_with_insert
                (λ s, if String.eqb s "" then 0 else 1)%nat
                row _ s v Hs) as H2.
  lia.
Qed.

Lemma setitem_inside n g p v :
  square n g → inside n p →
  ∃ g', setitem g p v = Ok g' ∧ square n g' ∧ cell g' p = v ∧
        ∀ q, q ≠ p → inside n q → cell g' q = cell g q.
Proof.
  intros Hsq Hin. destruct (square_lookup n g p Hsq Hin) as (row & Hrow & Hlen).
  pose proof Hin as [Hr Hc]. unfold setitem.
  rewrite (proj1 Hsq), (norm_index_inside _ _ Hr), Hrow. simpl.
  rewrite Hlen, (norm_index_inside _ _ Hc).
  eexists. split; [done|]. split; [|split].
  - destruct Hsq as [Hl Hrows]. split; [by rewrite length_insert|].
    apply Forall_insert; [done|]. by rewrite length_insert.
  - unfold cell. rewrite list_lookup_insert_eq.
    2:{ destruct Hsq as [-> _]. lia. }
    simpl. rewrite list_lookup_insert_eq; [done|lia].
  - intros q Hne [Hqr Hqc]. unfold cell.
    destruct (decide (Z.to_nat q.1 = Z.to_nat p.1)) as [Heq|Hneq].
    + rewrite Heq, Hrow, list_lookup_insert_eq.
      2:{ destruct Hsq as [-> _]. lia. }
      simpl. rewrite list_lookup_insert_ne; [done|].
      intros Heq2. apply Hne. destruct p, q; simpl in *. f_equal; lia.
    + by rewrite list_lookup_insert_ne.
Qed.

Lemma residue_nonempty a : residue a → a ≠ "".
Proof. by intros [-> | ->]. Qed.

Lemma residue_not_fence a : residue a → a ≠ "F".
Proof. by intros [-> | ->]. Qed.

Lemma free_cell_square n g p :
  square n g →
  free_cell (Z.of_nat n) g p = Ok (bool_decide (inside n p ∧ cell g p = "")).
Proof.
  intros Hsq. unfold free_cell.
  destruct (in_range (Z.of_nat n) p) eqn:Hr.
  - apply in_range_inside in Hr. rewrite (getitem_inside n g p Hsq Hr). simpl.
    f_equal. destruct (String.eqb_spec (cell g p) "") as [He|He].
    + by rewrite bool_decide_eq_true_2.
    + rewrite bool_decide_eq_false_2; [done|]. by intros [_ ?].
  - apply in_range_outside in Hr.
    rewrite bool_decide_eq_false_2; [done|]. by intros [? _].
Qed.

Lemma filter_r_decide {A} (P : A → Prop) `{∀ x, Decision (P x)}
    (f : A → result bool) (l : list A) :
  (∀ x, x ∈ l → f x = Ok (bool_decide (P x))) →
  filter_r f l = Ok (filter P l).
Proof.
  induction l as [|x l IH]; intros Hf; [done|]. simpl.
  rewrite (Hf x) by left. simpl.
  rewrite IH by (intros y Hy; apply Hf; by right). simpl.
  rewrite filter_cons. by case_bool_decide; case_decide.
Qed.

Lemma valid_neighbors_square n g last :
  square n g →
  valid_neighbors (Z.of_nat n) g last
  = Ok (filter (λ q, inside n q ∧ cell g q = "") (four_neighbors last)).
Proof.
  intros Hsq. unfold valid_neighbors. apply filter_r_decide.
  intros q _. by apply free_cell_square.
Qed.

Lemma four_neighbors_adjacent p q : q ∈ four_neighbors p → adjacent q p.
Proof.
  unfold four_neighbors, adjacent. rewrite !elem_of_cons, elem_of_nil.
  intros [-> | [-> | [-> | [-> | []]]]]; simpl; lia.
Qed.

Lemma shuffled_first_cons {A} d (x : A) l :
  ∃ y, shuffled_first d (x :: l) = Ok y ∧ y ∈ x :: l.
Proof.
  unfold shuffled_first.
  destruct (lookup_lt_is_Some_2 (x :: l) (d `mod` length (x :: l))%nat)
    as [y Hy].
  { apply Nat.mod_upper_bound. simpl. lia. }
  exists y. rewrite Hy. split; [done|]. eapply list_elem_of_lookup_2; eauto.
Qed.

(** ** Consistency of grid and placement order *)

Lemma self_avoiding_NoDup order : self_avoiding order ↔ NoDup order.*2.
Proof.
  rewrite NoDup_alt. unfold self_avoiding. split.
  - intros Hsa i j q Hi Hj. rewrite list_lookup_fmap in Hi, Hj.
    destruct (order !! i) as [[a p]|] eqn:Hoi; [|done].
    destruct (order !! j) as [[b p']|] eqn:Hoj; [|done].
    simpl in *. simplify_eq. eauto.
  - intros Hnd i j a p b q Hi Hj ->. apply (Hnd i j q).
    + by rewrite list_lookup_fmap, Hi.
    + by rewrite list_lookup_fmap, Hj.
Qed.

Lemma consistent_full n : consistent n (np_full n) [].
Proof.
  split.
  - apply square_full.
  - intros a p Hin. by apply elem_of_nil in Hin.
  - intros p _ _. apply cell_full.
  - constructor.
  - apply count_nonzero_full.
Qed.

Lemma consistent_occupied n g order a p :
  consistent n g order → (a, p) ∈ order → cell g p ≠ "".
Proof.
  intros Hc Hin. destruct (c_placed _ _ _ Hc a p Hin) as (_ & Hres & ->).
  by apply residue_nonempty.
Qed.

Lemma consistent_free n g order p :
  consistent n g order → cell g p = "" → p ∉ order.*2.
Proof.
  intros Hc He Hin. apply list_elem_of_fmap in Hin as ([a p'] & -> & Hin).
  by apply (consistent_occupied _ _ _ _ _ Hc Hin).
Qed.

Lemma consistent_place n g order a p :
  consistent n g order → inside n p → cell g p = "" → residue a →
  ∃ g', setitem g p a = Ok g' ∧ consistent n g' (order ++ [(a, p)]).
Proof.
  intros Hc Hin He Hres.
  destruct (setitem_inside n g p a (c_square _ _ _ Hc) Hin)
    as (g' & Hset & Hsq & Hp & Hother).
  pose proof (consistent_free _ _ _ _ Hc He) as Hfresh.
  exists g'. split; [done|]. split.
  - done.
  - intros b q Hq. apply elem_of_app in Hq as [Hq|Hq].
    + destruct (c_placed _ _ _ Hc b q Hq) as (Hqi & Hqr & Hqc).
      split; [done|]. split; [done|]. rewrite Hother; [done| |done].
      intros ->. apply Hfresh. apply list_elem_of_fmap. by exists (b, p).
    + apply list_elem_of_singleton in Hq as [= -> ->]. done.
  - intros q Hqi Hq. rewrite fmap_app, not_elem_of_app in Hq.
    destruct Hq as [Hq1 Hq2]. simpl in Hq2.
    rewrite Hother; [by apply (c_empty _ _ _ Hc)| |done].
    intros ->. apply Hq2. by left.
  - rewrite fmap_app. apply NoDup_app. split; [apply (c_nodup _ _ _ Hc)|].
    split; [|apply NoDup_singleton].
    intros q Hq1 Hq2. simpl in Hq2. apply list_elem_of_singleton in Hq2 as ->.
    done.
  - pose proof (count_nonzero_setitem n g p a g' (c_square _ _ _ Hc) Hin Hset)
      as Hcount.
    rewrite He in Hcount. simpl in Hcount.
    destruct (String.eqb_spec a "") as [->|_].
    + by apply residue_nonempty in Hres.
    + rewrite length_app, <- (c_count _ _ _ Hc). simpl. lia.
Qed.

Lemma consistent_on_grid n g order : consistent n g order → on_grid g order.
Proof.
  intros Hc a p Hin. destruct (c_placed _ _ _ Hc a p Hin) as (Hi & _ & <-).
  apply (getitem_inside n); [apply Hc|done].
Qed.

Lemma consistent_self_avoiding n g order :
  consistent n g order → self_avoiding order.
Proof. intros Hc. apply self_avoiding_NoDup, Hc. Qed.

(** ** Walks from the centre *)

Lemma centre_inside L : (0 < L)%nat → inside (L * 2) (Z.of_nat L, Z.of_nat L).
Proof. intros HL. unfold inside. simpl. lia. Qed.

Lemma walk_inv_first L a :
  (0 < L)%nat → residue a →
  ∃ g', setitem (np_full (L * 2)) (Z.of_nat L, Z.of_nat L) a = Ok g' ∧
        walk_inv L g' [(a, (Z.of_nat L, Z.of_nat L))].
Proof.
  intros HL Hres.
  destruct (consistent_place (L * 2) (np_full (L * 2)) [] a
              (Z.of_nat L, Z.of_nat L)) as (g' & Hset & Hc);
    [apply consistent_full|by apply centre_inside|apply cell_full|done|].
  exists g'. split; [done|]. split.
  - done.
  - intros i b p c q Hi HSi. by destruct i.
  - intros b p [= _ <-]. done.
  - intros [|i] b p Hi; [|done]. injection Hi as _ <-. simpl. lia.
Qed.

Lemma walk_inv_extend L g order a p b q :
  walk_inv L g order → last order = Some (b, q) → p ∈ four_neighbors q →
  inside (L * 2) p → cell g p = "" → residue a →
  ∃ g', setitem g p a = Ok g' ∧ walk_inv L g' (order ++ [(a, p)]).
Proof.
  intros Hw Hlast Hnb Hin He Hres.
  destruct (consistent_place _ _ _ a p (w_consistent _ _ _ Hw) Hin He Hres)
    as (g' & Hset & Hc).
  exists g'. split; [done|].
  rewrite last_lookup in Hlast.
  assert (Hlen : (0 < length order)%nat).
  { destruct order; [done|simpl; lia]. }
  split.
  - done.
  - intros i c r d s Hi HSi.
    destruct (decide (S i < length order)%nat) as [Hlt|Hge].
    + rewrite lookup_app_l in Hi, HSi by lia. by eapply (w_connected _ _ _ Hw).
    + assert (S i = length order) as HSi_eq.
      { apply lookup_lt_Some in HSi. rewrite length_app in HSi. simpl in HSi.
        lia. }
      rewrite lookup_app_l in Hi by lia.
      rewrite HSi_eq, lookup_app_r, Nat.sub_diag in HSi by lia.
      injection HSi as <- <-.
      replace i with (pred (length order)) in Hi by lia.
      rewrite Hlast in Hi. injection Hi as <- <-.
      by apply four_neighbors_adjacent.
  - intros c r Hi. rewrite lookup_app_l in Hi by lia.
    by eapply (w_first _ _ _ Hw).
  - intros i c r Hi.
    destruct (decide (i < length order)%nat) as [Hlt|Hge].
    + rewrite lookup_app_l in Hi by lia. by eapply (w_near _ _ _ Hw).
    + assert (i = length order) as ->.
      { apply lookup_lt_Some in Hi. rewrite length_app in Hi. simpl in Hi.
        lia. }
      rewrite lookup_app_r, Nat.sub_diag in Hi by lia. injection Hi as <- <-.
      pose proof (w_near _ _ _ Hw _ _ _ Hlast) as Hq.
      apply four_neighbors_adjacent in Hnb. unfold adjacent in Hnb. lia.
Qed.

(** A walk of at most [L] residues stays between row and column [1] and
    [2L - 1]. *)
Lemma walk_inv_bounds L g order i a p :
  walk_inv L g order → (length order ≤ L)%nat → order !! i = Some (a, p) →
  (1 ≤ p.1 ≤ 2 * Z.of_nat L - 1)%Z ∧ (1 ≤ p.2 ≤ 2 * Z.of_nat L - 1)%Z.
Proof.
  intros Hw Hlen Hi. pose proof (w_near _ _ _ Hw _ _ _ Hi) as Hnear.
  apply lookup_lt_Some in Hi. lia.
Qed.

(** ** Stochastic engine *)

Lemma grid_size_nat L : (Z.of_nat L * 2)%Z = Z.of_nat (L * 2).
Proof. lia. Qed.

Lemma centre_div L : (Z.of_nat (L * 2) `div` 2)%Z = Z.of_nat L.
Proof. rewrite <- grid_size_nat. by rewrite Z.div_mul. Qed.

Lemma place_loop_spec L rng total g copy order :
  walk_inv L g order → order ≠ [] → Forall residue copy →
  total = length copy →
  ∃ g' order',
    Stochastic.place_loop rng total (Z.of_nat (L * 2)) g copy order
      = Ok (g', order') ∧
    walk_inv L g' order' ∧
    order'.*1 `prefix_of` order.*1 ++ copy ∧
    (length order ≤ length order' ≤ length order + total)%nat ∧
    ((length order' < length order + total)%nat →
     ∃ a p, last order' = Some (a, p) ∧
            valid_neighbors (Z.of_nat (L * 2)) g' p = Ok []).
Proof.
  revert rng g copy order.
  induction total as [|total IH]; intros rng g copy order Hw Hne Hres Htot.
  - exists g, order. simpl. split; [done|]. split; [done|].
    split; [by apply prefix_app_r|]. split; [lia|]. lia.
  - destruct copy as [|a copy]; [done|]. simpl in Htot.
    apply Forall_cons in Hres as [Hres_a Hres].
    destruct (last order) as [[b q]|] eqn:Hlast.
    2:{ apply last_None in Hlast. done. }
    simpl. unfold last_placement. rewrite Hlast. simpl.
    rewrite (valid_neighbors_square _ _ _ (c_square _ _ _ (w_consistent _ _ _ Hw))).
    simpl.
    destruct (filter _ (four_neighbors q)) as [|v valid] eqn:Hvalid.
    + exists g, order. split; [done|]. split; [done|].
      split; [by apply prefix_app_r|]. split; [lia|]. intros _.
      exists b, q. split; [done|].
      rewrite (valid_neighbors_square _ _ _
                 (c_square _ _ _ (w_consistent _ _ _ Hw))).
      by rewrite Hvalid.
    + destruct (shuffled_first_cons (rng 0%nat) v valid) as (p & Hp & Hpin).
      rewrite Hp. simpl. rewrite <- Hvalid in Hpin.
      apply list_elem_of_filter in Hpin as [[Hin He] Hnb].
      destruct (walk_inv_extend L g order a p b q Hw Hlast Hnb Hin He Hres_a)
        as (g1 & Hset & Hw1).
      rewrite Hset. simpl.
      destruct (IH (next_draws rng) g1 copy (order ++ [(a, p)]) Hw1)
        as (g' & order' & Hrun & Hw' & Hpre & Hlen & Hdead);
        [by destruct order|done|lia|].
      exists g', order'. split; [done|]. split; [done|].
      rewrite length_app in Hlen, Hdead. simpl in Hlen, Hdead.
      split; [|split; [lia|]].
      * rewrite fmap_app, <- app_assoc in Hpre. done.
      * intros Hlt. apply Hdead. lia.
Qed.

Lemma stochastic_spec rng amino_acids :
  amino_acids ≠ [] → Forall residue amino_acids →
  let L := length amino_acids in
  ∃ g order,
    Stochastic.initialize_grid rng amino_acids = Ok (g, order) ∧
    walk_inv L g order ∧
    order.*1 `prefix_of` amino_acids ∧
    (1 ≤ length order ≤ L)%nat ∧
    ((length order < L)%nat →
     ∃ a p, last order = Some (a, p) ∧
            valid_neighbors (Z.of_nat (L * 2)) g p = Ok []).
Proof.
  intros Hne Hres L. destruct amino_acids as [|a copy] eqn:Hchain; [done|].
  apply Forall_cons in Hres as [Hres_a Hres].
  assert (HL : (0 < L)%nat) by (subst L; simpl; lia).
  unfold Stochastic.initialize_grid. fold L.
  rewrite grid_size_nat, centre_div.
  destruct (walk_inv_first L a HL Hres_a) as (g1 & Hset & Hw1).
  rewrite Hset. simpl.
  destruct (place_loop_spec L rng (L - 1) g1 copy _ Hw1)
    as (g' & order' & Hrun & Hw' & Hpre & Hlen & Hdead);
    [done|done|subst L; simpl; lia|].
  exists g', order'. split; [done|]. split; [done|]. split; [done|].
  change (length [(a, (Z.of_nat L, Z.of_nat L))]) with 1%nat in Hlen, Hdead.
  split; [lia|]. intros Hlt. apply Hdead. lia.
Qed.

(** ** Deterministic-directional engine *)

Lemma turn_orientation_valid o d :
  valid_orientation o →
  ∃ o' mv,
    Directional.turn_orientation o d = Ok o' ∧ valid_orientation o' ∧
    movement_vectors o' = Ok mv ∧
    ∀ c : pos, (c.1 + mv.1, c.2 + mv.2)%Z ∈ four_neighbors c.
Proof.
  unfold valid_orientation, Directional.turn_orientation,
    Directional.get_new_orientation, four_neighbors.
  intros [-> | [-> | [-> | ->]]];
    destruct (String.eqb d "straight"), (String.eqb d "left"); simpl;
    eexists _, _; (split; [reflexivity|]); (split; [tauto|]);
    (split; [reflexivity|]); intros c; simpl;
    rewrite ?Z.add_0_r; set_solver.
Qed.

(** The turn sequences of [generate_random_directions] start with
    ['Start'] and hold it nowhere else. *)
Lemma generated_turn_sequence rng total_amino_acids :
  turn_sequence (Directional.generate_random_directions rng total_amino_acids).
Proof.
  unfold Directional.generate_random_directions. eexists. split; [done|].
  apply not_elem_of_cons. split; [done|].
  generalize (total_amino_acids - 2)%nat as k. intros k. revert rng.
  induction k as [|k IH]; intros rng; simpl; [apply not_elem_of_nil|].
  apply not_elem_of_cons. split; [|apply IH].
  unfold Directional.random_turn.
  by destruct (rng 0%nat `mod` 3)%nat as [|[|?]].
Qed.

Lemma walk_spec L dirs g copy order b current o :
  walk_inv L g order → last order = Some (b, current) →
  valid_orientation o → "Start" ∉ dirs → Forall residue copy → copy ≠ [] →
  ∃ g' order',
    Directional.walk dirs (Z.of_nat (L * 2)) g copy order current o
      = Ok (g', order') ∧
    walk_inv L g' order' ∧
    order'.*1 `prefix_of` order.*1 ++ copy ∧
    (length order ≤ length order' ≤ length order + length copy)%nat.
Proof.
  revert g copy order b current o.
  induction dirs as [|d dirs IH];
    intros g copy order b current o Hw Hlast Ho Hstart Hres Hcopy.
  - exists g, order. simpl. split; [done|]. split; [done|].
    split; [by apply prefix_app_r|lia].
  - apply not_elem_of_cons in Hstart as [Hd Hstart]. simpl.
    destruct (String.eqb_spec d "Start") as [->|_]; [done|].
    destruct (turn_orientation_valid o d Ho) as (o' & mv & Hto & Ho' & Hmv & Hnb).
    rewrite Hto. simpl. rewrite Hmv. simpl.
    rewrite (free_cell_square _ _ _ (c_square _ _ _ (w_consistent _ _ _ Hw))).
    simpl. case_bool_decide as Hfree.
    + destruct Hfree as [Hin He].
      destruct copy as [|a copy]; [done|].
      apply Forall_cons in Hres as [Hres_a Hres].
      destruct (walk_inv_extend L g order a _ b current Hw Hlast (Hnb current)
                  Hin He Hres_a) as (g1 & -> & Hw1).
      simpl. destruct copy as [|a' copy].
      * eexists _, _. split; [done|]. split; [done|].
        rewrite fmap_app, length_app. simpl. split; [done|lia].
      * destruct (IH g1 (a' :: copy) (order ++ [(a, (current.1 + mv.1, current.2 + mv.2)%Z)])
                    a (current.1 + mv.1, current.2 + mv.2)%Z o' Hw1)
          as (g' & order' & Hrun & Hw' & Hpre & Hlen);
          [by rewrite last_snoc|done|done|done|done|].
        exists g', order'. split; [done|]. split; [done|].
        rewrite fmap_app, <- app_assoc in Hpre. rewrite length_app in Hlen.
        simpl in Hlen, Hpre |- *. split; [done|lia].
    + exists g, order. split; [done|]. split; [done|].
      split; [by apply prefix_app_r|lia].
Qed.

Lemma directional_spec amino_acids directions :
  amino_acids ≠ [] → Forall residue amino_acids → turn_sequence directions →
  let L := length amino_acids in
  ∃ g order,
    Directional.initialize_grid_directional amino_acids directions
      = Ok (g, order) ∧
    walk_inv L g order ∧
    order.*1 `prefix_of` amino_acids ∧
    (1 ≤ length order ≤ L)%nat.
Proof.
  intros Hne Hres (turns & -> & Hstart) L.
  destruct amino_acids as [|a copy] eqn:Hchain; [done|].
  apply Forall_cons in Hres as [Hres_a Hres].
  assert (HL : (0 < L)%nat) by (subst L; simpl; lia).
  unfold Directional.initialize_grid_directional. fold L.
  rewrite grid_size_nat, centre_div.
  destruct (walk_inv_first L a HL Hres_a) as (g1 & Hset & Hw1).
  cbn [Directional.walk]. change (String.eqb "Start" "Start") with true.
  cbn iota. rewrite Hset. simpl.
  destruct copy as [|a' copy].
  - exists g1, [(a, (Z.of_nat L, Z.of_nat L))]. split; [done|].
    split; [done|]. split; [done|]. simpl. lia.
  - destruct (walk_spec L turns g1 (a' :: copy) [(a, (Z.of_nat L, Z.of_nat L))]
                a (Z.of_nat L, Z.of_nat L) "right" Hw1)
      as (g' & order' & Hrun & Hw' & Hpre & Hlen);
      [done|unfold valid_orientation; tauto|done|done|done|].
    exists g', order'. split; [done|]. split; [done|]. split; [done|].
    subst L. simpl in Hlen |- *. lia.
Qed.

(** ** Invariants of the generated conformations *)

Ltac solve_residues := repeat apply Forall_cons_2; unfold residue; auto.
Ltac solve_turn_sequence :=
  eexists; split; [reflexivity|]; rewrite !not_elem_of_cons;
  repeat split; (discriminate || apply not_elem_of_nil).

(** C1: for every chain of residues, every random draw and every turn
    sequence, both the stochastic engine and the deterministic-directional
    engine return a placement order, and no two entries of it have the same
    position. *)
Theorem placement_order_self_avoiding rng amino_acids directions :
  amino_acids ≠ [] → Forall residue amino_acids → turn_sequence directions →
  (∃ g order, Stochastic.initialize_grid rng amino_acids = Ok (g, order) ∧
              self_avoiding order) ∧
  (∃ g order, Directional.initialize_grid_directional amino_acids directions
                = Ok (g, order) ∧
              self_avoiding order).
Proof.
  intros Hne Hres Hturns. split.
  - destruct (stochastic_spec rng amino_acids Hne Hres)
      as (g & order & Hrun & Hw & _).
    exists g, order. split; [done|].
    eapply consistent_self_avoiding, Hw.
  - destruct (directional_spec amino_acids directions Hne Hres Hturns)
      as (g & order & Hrun & Hw & _).
    exists g, order. split; [done|].
    eapply consistent_self_avoiding, Hw.
Qed.

Lemma placement_order_self_avoiding_witness :
  chain_HHPPH ≠ [] ∧ Forall residue chain_HHPPH ∧ turn_sequence turns_spiral ∧
  (∃ g order, Stochastic.initialize_grid draws_counting chain_HHPPH
                = Ok (g, order) ∧ self_avoiding order) ∧
  (∃ g order, Directional.initialize_grid_directional chain_HHPPH turns_spiral
                = Ok (g, order) ∧ self_avoiding order).
Proof.
  assert (H1 : chain_HHPPH ≠ []) by discriminate.
  assert (H2 : Forall residue chain_HHPPH) by solve_residues.
  assert (H3 : turn_sequence turns_spiral) by solve_turn_sequence.
  split; [exact H1|]. split; [exact H2|]. split; [exact H3|].
  exact (placement_order_self_avoiding draws_counting chain_HHPPH turns_spiral
           H1 H2 H3).
Defined.

(** C2: in the placement order returned by either engine, every entry
    after the first is lattice-adjacent (Manhattan distance 1) to the entry
    before it. *)
Theorem placement_order_connected rng amino_acids directions :
  amino_acids ≠ [] → Forall residue amino_acids → turn_sequence directions →
  (∃ g order, Stochastic.initialize_grid rng amino_acids = Ok (g, order) ∧
              connected order) ∧
  (∃ g order, Directional.initialize_grid_directional amino_acids directions
                = Ok (g, order) ∧
              connected order).
Proof.
  intros Hne Hres Hturns. split.
  - destruct (stochastic_spec rng amino_acids Hne Hres)
      as (g & order & Hrun & Hw & _).
    exists g, order. split; [done|]. apply Hw.
  - destruct (directional_spec amino_acids directions Hne Hres Hturns)
      as (g & order & Hrun & Hw & _).
    exists g, order. split; [done|]. apply Hw.
Qed.

Lemma placement_order_connected_witness :
  chain_HHPPH ≠ [] ∧ Forall residue chain_HHPPH ∧ turn_sequence turns_spiral ∧
  (∃ g order, Stochastic.initialize_grid draws_counting chain_HHPPH
                = Ok (g, order) ∧ connected order) ∧
  (∃ g order, Directional.initialize_grid_directional chain_HHPPH turns_spiral
                = Ok (g, order) ∧ connected order).
Proof.
  assert (H1 : chain_HHPPH ≠ []) by discriminate.
  assert (H2 : Forall residue chain_HHPPH) by solve_residues.
  assert (H3 : turn_sequence turns_spiral) by solve_turn_sequence.
  split; [exact H1|]. split; [exact H2|]. split; [exact H3|].
  exact (placement_order_connected draws_counting chain_HHPPH turns_spiral
           H1 H2 H3).
Defined.

(** C5: for a chain of length [L >= 1] the stochastic engine returns a
    placement order of at least 1 and at most [L] entries whose first entry
    is the first residue placed at the lattice centre
    [(grid_size // 2, grid_size // 2) = (L, L)]; for a chain of length 5
    that is [(5, 5)]. *)
Theorem stochastic_length_and_start rng amino_acids :
  (1 ≤ length amino_acids)%nat → Forall residue amino_acids →
  let L := length amino_acids in
  let grid_size := (Z.of_nat L * 2)%Z in
  ∃ g order a,
    Stochastic.initialize_grid rng amino_acids = Ok (g, order) ∧
    (1 ≤ length order ≤ L)%nat ∧
    head amino_acids = Some a ∧
    order !! 0%nat = Some (a, (grid_size `div` 2, grid_size `div` 2)%Z) ∧
    (grid_size `div` 2 = Z.of_nat L)%Z ∧
    (L = 5%nat → order !! 0%nat = Some (a, (5, 5)%Z)).
Proof.
  intros HL Hres.
  assert (Hne : amino_acids ≠ []).
  { destruct amino_acids; [simpl in HL; lia|done]. }
  intros L grid_size.
  destruct (stochastic_spec rng amino_acids Hne Hres)
    as (g & order & Hrun & Hw & Hpre & Hlen & _).
  assert (Hdiv : (grid_size `div` 2 = Z.of_nat L)%Z).
  { unfold grid_size. by rewrite Z.div_mul. }
  destruct order as [|[a p] order]; [simpl in Hlen; lia|].
  exists g, ((a, p) :: order), a. split; [done|]. split; [done|].
  rewrite Hdiv. rewrite (w_first _ _ _ Hw a p eq_refl).
  split; [|split; [done|split; [done|]]].
  - destruct Hpre as [rest ->]. done.
  - intros HL5. fold L. by rewrite HL5.
Qed.

Lemma stochastic_length_and_start_witness :
  (1 ≤ length chain_HHPPH)%nat ∧ Forall residue chain_HHPPH ∧
  ∃ g order a,
    Stochastic.initialize_grid draws_counting chain_HHPPH = Ok (g, order) ∧
    (1 ≤ length order ≤ 5)%nat ∧
    head chain_HHPPH = Some a ∧
    order !! 0%nat = Some (a, ((5 * 2) `div` 2, (5 * 2) `div` 2)%Z) ∧
    ((5 * 2) `div` 2 = 5)%Z ∧
    (5%nat = 5%nat → order !! 0%nat = Some (a, (5, 5)%Z)).
Proof.
  assert (H1 : (1 ≤ length chain_HHPPH)%nat) by (simpl; lia).
  assert (H2 : Forall residue chain_HHPPH) by solve_residues.
  split; [exact H1|]. split; [exact H2|].
  exact (stochastic_length_and_start draws_counting chain_HHPPH H1 H2).
Defined.

(** ** Lattice size *)

Lemma walk_inv_region L g order :
  walk_inv L g order → (1 ≤ length order ≤ L)%nat →
  square (L * 2) g ∧
  (∃ a, order !! 0%nat = Some (a, (Z.of_nat L, Z.of_nat L))) ∧
  ∀ a p, (a, p) ∈ order →
    (1 ≤ p.1 ≤ 2 * Z.of_nat L - 1)%Z ∧ (1 ≤ p.2 ≤ 2 * Z.of_nat L - 1)%Z.
Proof.
  intros Hw Hlen. split; [apply Hw|]. split.
  - destruct order as [|[a p] order]; [simpl in Hlen; lia|].
    exists a. by rewrite (w_first _ _ _ Hw a p eq_refl).
  - intros a p Hin. apply list_elem_of_lookup in Hin as [i Hi].
    eapply walk_inv_bounds; eauto. lia.
Qed.

(** C9, as the code has it: both engines run on a [2L] by [2L] lattice from
    its centre [(L, L)], and every placement has its row and its column
    between [1] and [2L - 1]: the walk never leaves the lattice and never
    touches row or column [0], while row and column [2L - 1] are within
    reach. *)
Theorem walk_stays_inside rng amino_acids directions :
  amino_acids ≠ [] → Forall residue amino_acids → turn_sequence directions →
  let L := length amino_acids in
  let region (g : Grid) (order : list placement) :=
    square (L * 2) g ∧
    (∃ a, order !! 0%nat = Some (a, (Z.of_nat L, Z.of_nat L))) ∧
    ∀ a p, (a, p) ∈ order →
      (1 ≤ p.1 ≤ 2 * Z.of_nat L - 1)%Z ∧ (1 ≤ p.2 ≤ 2 * Z.of_nat L - 1)%Z in
  (∃ g order, Stochastic.initialize_grid rng amino_acids = Ok (g, order) ∧
              region g order) ∧
  (∃ g order, Directional.initialize_grid_directional amino_acids directions
                = Ok (g, order) ∧
              region g order).
Proof.
  intros Hne Hres Hturns L region. split.
  - destruct (stochastic_spec rng amino_acids Hne Hres)
      as (g & order & Hrun & Hw & _ & Hlen & _).
    exists g, order. split; [done|]. by apply walk_inv_region.
  - destruct (directional_spec amino_acids directions Hne Hres Hturns)
      as (g & order & Hrun & Hw & _ & Hlen).
    exists g, order. split; [done|]. by apply walk_inv_region.
Qed.

Lemma walk_stays_inside_witness :
  chain_HPHPH ≠ [] ∧ Forall residue chain_HPHPH ∧
  turn_sequence turns_straight ∧
  let region (g : Grid) (order : list placement) :=
    square (5 * 2) g ∧
    (∃ a, order !! 0%nat = Some (a, (5, 5)%Z)) ∧
    ∀ a p, (a, p) ∈ order → (1 ≤ p.1 ≤ 9)%Z ∧ (1 ≤ p.2 ≤ 9)%Z in
  (∃ g order, Stochastic.initialize_grid draws_down chain_HPHPH
                = Ok (g, order) ∧ region g order) ∧
  (∃ g order, Directional.initialize_grid_directional chain_HPHPH
                turns_straight = Ok (g, order) ∧ region g order).
Proof.
  assert (H1 : chain_HPHPH ≠ []) by discriminate.
  assert (H2 : Forall residue chain_HPHPH) by solve_residues.
  assert (H3 : turn_sequence turns_straight) by solve_turn_sequence.
  split; [exact H1|]. split; [exact H2|]. split; [exact H3|].
  exact (walk_stays_inside draws_down chain_HPHPH turns_straight H1 H2 H3).
Defined.

(** C9, as stated, fails: a straight walk of [L = 5] residues from the centre
    [(5, 5)] of the 10 by 10 lattice ends on row or column [9 = 2L - 1]. *)
Lemma walk_reaches_border :
  (∃ g order a p,
     Directional.initialize_grid_directional chain_HPHPH turns_straight
       = Ok (g, order) ∧
     (a, p) ∈ order ∧ on_border (length chain_HPHPH) p) ∧
  (∃ g order a p,
     Stochastic.initialize_grid draws_down chain_HPHPH = Ok (g, order) ∧
     (a, p) ∈ order ∧ on_border (length chain_HPHPH) p).
Proof.
  split.
  - eexists _, _, "H", (5, 9)%Z. split; [vm_compute; reflexivity|].
    split; [|unfold on_border; simpl; lia].
    rewrite !elem_of_cons. tauto.
  - eexists _, _, "H", (9, 5)%Z. split; [vm_compute; reflexivity|].
    split; [|unfold on_border; simpl; lia].
    rewrite !elem_of_cons. tauto.
Qed.

(** ** Direction model *)

Ltac decide_vectors :=
  repeat match goal with
  | |- context [pos_eqb ?a ?b] =>
      unfold pos_eqb at 1;
      first [ rewrite (bool_decide_eq_true_2 (a = b)) by (f_equal; lia)
            | rewrite (bool_decide_eq_false_2 (a = b))
                by (intros [=]; lia) ]
  end.

(** C4: take any orientation [O], any turn [T] of left, straight, right, and
    three placements of which the second lies one step in direction [O] from
    the first and the third one step from the second in the direction that
    [get_new_orientation] (skipped for straight, as at its call site) gives
    for [O] and [T].  Then [determine_directions] classifies the third
    placement as [T]. *)
Theorem direction_round_trip O T (p0 : pos) (a0 a1 a2 : string) :
  valid_orientation O → relative_turn T →
  ∃ O' v v',
    Directional.turn_orientation O T = Ok O' ∧
    movement_vectors O = Ok v ∧ movement_vectors O' = Ok v' ∧
    let p1 := (p0.1 + v.1, p0.2 + v.2)%Z in
    let p2 := (p1.1 + v'.1, p1.2 + v'.2)%Z in
    determine_directions [(a0, p0); (a1, p1); (a2, p2)]
    = Ok ["Start"; "straight"; T].
Proof.
  destruct p0 as [r c].
  intros [-> | [-> | [-> | ->]]] [-> | [-> | ->]];
    eexists _, _, _; (split; [reflexivity|]); (split; [reflexivity|]);
    (split; [reflexivity|]);
    unfold determine_directions, direction_at; simpl;
    decide_vectors; reflexivity.
Qed.

Lemma direction_round_trip_witness :
  valid_orientation "down" ∧ relative_turn "left" ∧
  ∃ O' v v',
    Directional.turn_orientation "down" "left" = Ok O' ∧
    movement_vectors "down" = Ok v ∧ movement_vectors O' = Ok v' ∧
    let p1 := (5 + v.1, 5 + v.2)%Z in
    let p2 := (p1.1 + v'.1, p1.2 + v'.2)%Z in
    determine_directions [("H", (5, 5)%Z); ("P", p1); ("H", p2)]
    = Ok ["Start"; "straight"; "left"].
Proof.
  assert (H1 : valid_orientation "down") by (unfold valid_orientation; tauto).
  assert (H2 : relative_turn "left") by (unfold relative_turn; tauto).
  split; [exact H1|]. split; [exact H2|].
  exact (direction_round_trip "down" "left" (5, 5)%Z "H" "P" "H" H1 H2).
Defined.

(** C8, as the code has it: on the 12 cases of an orientation and a turn of
    left, straight, right the orientation update is defined and gives one of
    the four orientations; straight keeps the orientation, and a left turn
    followed by a right turn restores it.  Only ['left'] is tested for: every
    other turn that reaches [get_new_orientation], ['right'] or not, takes
    the [else] branch and is rotated as a right turn. *)
Theorem orientation_update_total O :
  valid_orientation O →
  (∀ T, relative_turn T →
     ∃ O', Directional.turn_orientation O T = Ok O' ∧ valid_orientation O') ∧
  Directional.turn_orientation O "straight" = Ok O ∧
  (∃ Ol, Directional.turn_orientation O "left" = Ok Ol ∧ Ol ≠ O ∧
         Directional.turn_orientation Ol "right" = Ok O) ∧
  (∀ t, t ≠ "left" →
     Directional.get_new_orientation O t
     = Directional.get_new_orientation O "right") ∧
  (∀ t, t ≠ "left" → t ≠ "straight" →
     Directional.turn_orientation O t
     = Directional.turn_orientation O "right").
Proof.
  intros HO. split; [|split; [|split; [|split]]].
  - intros T _. destruct (turn_orientation_valid O T HO) as (O' & _ & ? & ? & _).
    by exists O'.
  - done.
  - destruct HO as [-> | [-> | [-> | ->]]]; eexists; by repeat split.
  - intros t Ht. unfold Directional.get_new_orientation.
    destruct (String.eqb_spec t "left") as [->|_]; [done|].
    destruct HO as [-> | [-> | [-> | ->]]]; done.
  - intros t Hl Hs. unfold Directional.turn_orientation,
      Directional.get_new_orientation.
    destruct (String.eqb_spec t "left") as [->|_]; [done|].
    destruct (String.eqb_spec t "straight") as [->|_]; [done|].
    destruct HO as [-> | [-> | [-> | ->]]]; done.
Qed.

Lemma orientation_update_total_witness :
  valid_orientation "up" ∧
  (∀ T, relative_turn T →
     ∃ O', Directional.turn_orientation "up" T = Ok O' ∧
           valid_orientation O') ∧
  Directional.turn_orientation "up" "straight" = Ok "up" ∧
  (∃ Ol, Directional.turn_orientation "up" "left" = Ok Ol ∧ Ol ≠ "up" ∧
         Directional.turn_orientation Ol "right" = Ok "up") ∧
  (∀ t, t ≠ "left" →
     Directional.get_new_orientation "up" t
     = Directional.get_new_orientation "up" "right") ∧
  (∀ t, t ≠ "left" → t ≠ "straight" →
     Directional.turn_orientation "up" t
     = Directional.turn_orientation "up" "right").
Proof.
  assert (H1 : valid_orientation "up") by (unfold valid_orientation; tauto).
  split; [exact H1|]. exact (orientation_update_total "up" H1).
Defined.

(** C8, as stated, fails: a turn that is none of left, straight, right is not
    rejected; it falls into the [else] branch that also serves ['right'] and
    rotates the heading to the right. *)
Lemma unknown_turn_passes_as_right :
  ¬ relative_turn "back" ∧
  Directional.get_new_orientation "up" "back" = Some "right" ∧
  Directional.turn_orientation "up" "back" = Ok "right" ∧
  Directional.turn_orientation "up" "back"
  = Directional.turn_orientation "up" "right".
Proof.
  split; [|by repeat split].
  unfold relative_turn. intros [H | [H | H]]; discriminate H.
Qed.

(** ** Contact analyser *)

Lemma fold_r_union {A} (f : gset (gset pos) → A → result (gset (gset pos)))
    (h : A → gset (gset pos)) (l : list A) (acc : gset (gset pos)) :
  (∀ acc x, x ∈ l → f acc x = Ok (acc ∪ h x)) →
  fold_r f acc l = Ok (acc ∪ ⋃ (h <$> l)).
Proof.
  revert acc. induction l as [|x l IH]; intros acc Hf; simpl.
  - by rewrite (right_id_L ∅ (∪)).
  - rewrite Hf by left. simpl. rewrite IH.
    + by rewrite (assoc_L (∪)).
    + intros acc' y Hy. apply Hf. by right.
Qed.

Lemma grid_shape_square n g :
  square n g → grid_shape g = (Z.of_nat n, Z.of_nat n).
Proof.
  intros [Hlen Hrows]. unfold grid_shape. rewrite Hlen. f_equal.
  destruct g as [|row g]; simpl in *; [by subst|].
  apply Forall_cons in Hrows as [-> _]. done.
Qed.

Lemma add_H_neighbor_square n g p acc nb :
  square n g →
  add_H_neighbor g p acc nb = Ok (acc ∪ H_pair_with n g p nb).
Proof.
  intros Hsq. unfold add_H_neighbor, H_pair_with.
  rewrite (grid_shape_square n g Hsq). simpl.
  destruct (decide (inside n nb)) as [Hin|Hout].
  - pose proof Hin as [Hr Hc].
    rewrite !bool_decide_eq_true_2 by done. simpl.
    rewrite (getitem_inside n g nb Hsq Hin). simpl. f_equal.
    destruct (String.eqb_spec (cell g nb) "H") as [He|He].
    + rewrite decide_True by done. apply (comm_L (∪)).
    + rewrite decide_False by (by intros [_ ?]).
      by rewrite (right_id_L ∅ (∪)).
  - rewrite decide_False by (by intros [? _]).
    rewrite (right_id_L ∅ (∪)).
    destruct (bool_decide (0 ≤ nb.1 < Z.of_nat n)%Z) eqn:Hr;
      destruct (bool_decide (0 ≤ nb.2 < Z.of_nat n)%Z) eqn:Hc; simpl;
      try done.
    apply bool_decide_eq_true in Hr, Hc. by destruct Hout.
Qed.

Lemma scan_cell_square n g row col acc :
  square n g → inside n (row, col) →
  scan_cell g row acc col = Ok (acc ∪ H_pairs_at n g (row, col)).
Proof.
  intros Hsq Hin. unfold scan_cell, H_pairs_at.
  rewrite (getitem_inside n g _ Hsq Hin), bind_Ok.
  destruct (String.eqb_spec (cell g (row, col)) "H") as [He|He].
  - rewrite decide_True by done. apply fold_r_union.
    intros acc' nb _. by apply add_H_neighbor_square.
  - rewrite decide_False by done. by rewrite (right_id_L ∅ (∪)).
Qed.

Lemma find_H_pairs_grid_square n g :
  square n g →
  find_H_pairs_grid g
  = Ok (⋃ ((λ row, ⋃ ((λ col, H_pairs_at n g (row, col))
                        <$> seqZ 0 (Z.of_nat n)))
           <$> seqZ 0 (Z.of_nat n))).
Proof.
  intros Hsq. unfold find_H_pairs_grid.
  rewrite (grid_shape_square n g Hsq). simpl.
  rewrite (fold_r_union _
             (λ row, ⋃ ((λ col, H_pairs_at n g (row, col))
                        <$> seqZ 0 (Z.of_nat n)))).
  - by rewrite (left_id_L ∅ (∪)).
  - intros acc row Hrow. apply elem_of_seqZ in Hrow.
    apply fold_r_union. intros acc' col Hcol. apply elem_of_seqZ in Hcol.
    apply (scan_cell_square n); [done|]. unfold inside. simpl. lia.
Qed.

Lemma elem_of_find_H_pairs_grid n g pairs X :
  square n g → find_H_pairs_grid g = Ok pairs →
  X ∈ pairs ↔
  ∃ p q, inside n p ∧ inside n q ∧ q ∈ four_neighbors p ∧
         cell g p = "H" ∧ cell g q = "H" ∧ X = frozen_pair p q.
Proof.
  intros Hsq Hrun. rewrite (find_H_pairs_grid_square n g Hsq) in Hrun.
  injection Hrun as <-. rewrite elem_of_union_list. split.
  - intros (Y & HY & HX). apply list_elem_of_fmap in HY as (row & -> & Hrow).
    apply elem_of_union_list in HX as (Y & HY & HX).
    apply list_elem_of_fmap in HY as (col & -> & Hcol).
    apply elem_of_seqZ in Hrow, Hcol. unfold H_pairs_at in HX.
    case_decide as Hp; [|by apply not_elem_of_empty in HX].
    apply elem_of_union_list in HX as (Y & HY & HX).
    apply list_elem_of_fmap in HY as (q & -> & Hq).
    unfold H_pair_with in HX.
    case_decide as Hq'; [|by apply not_elem_of_empty in HX].
    apply elem_of_singleton in HX as ->. destruct Hq' as [Hqi Hqc].
    exists (row, col), q. split; [unfold inside; simpl; lia|]. done.
  - intros ([row col] & q & [Hr Hc] & Hqi & Hq & Hpc & Hqc & ->).
    simpl in Hr, Hc.
    eexists. split.
    { apply list_elem_of_fmap. exists row. split; [done|].
      apply elem_of_seqZ. lia. }
    apply elem_of_union_list. eexists. split.
    { apply list_elem_of_fmap. exists col. split; [done|].
      apply elem_of_seqZ. lia. }
    unfold H_pairs_at. rewrite decide_True by done.
    apply elem_of_union_list. eexists. split.
    { apply list_elem_of_fmap. exists q. split; [done|]. done. }
    unfold H_pair_with. rewrite decide_True by done. by apply elem_of_singleton.
Qed.

Lemma frozen_pair_comm p q : frozen_pair p q = frozen_pair q p.
Proof. unfold frozen_pair. apply (comm_L (∪)). Qed.

Lemma find_H_pairs_order_elem order i p q :
  order !! i = Some ("H", p) → order !! S i = Some ("H", q) →
  frozen_pair p q ∈ find_H_pairs_order order.
Proof.
  revert i. induction order as [|[a r] order IH]; intros i Hi HSi; [done|].
  destruct order as [|[b s] order]; [done|].
  cbn [find_H_pairs_order]. destruct i as [|i].
  - injection Hi as -> ->. injection HSi as -> ->. simpl. set_solver.
  - apply elem_of_union_r. by apply (IH i).
Qed.

Lemma line_has_no_H_bonds n g order :
  consistent n g order → straight_line order →
  find_H_bonds g order = Ok ∅.
Proof.
  intros Hc (p0 & [d1 d2] & Hd & Hline). simpl in Hd, Hline.
  pose proof (c_square _ _ _ Hc) as Hsq. unfold find_H_bonds.
  destruct (find_H_pairs_grid g) as [pairs|e] eqn:Hpairs.
  2:{ by rewrite (find_H_pairs_grid_square n g Hsq) in Hpairs. }
  rewrite bind_Ok. f_equal. apply set_eq. intros X.
  rewrite elem_of_difference. split; [|by intros ?%not_elem_of_empty].
  intros [HX Hnot]. exfalso. apply Hnot. clear Hnot.
  apply (elem_of_find_H_pairs_grid n g pairs X Hsq Hpairs) in HX.
  destruct HX as (p & q & Hpi & Hqi & Hnb & Hpc & Hqc & ->).
  assert (Hplaced : ∀ r, inside n r → cell g r = "H" → ∃ i, order !! i = Some ("H", r)).
  { intros r Hri Hrc. destruct (decide (r ∈ order.*2)) as [Hin|Hout].
    - apply list_elem_of_fmap in Hin as ([a r'] & -> & Hin).
      destruct (c_placed _ _ _ Hc a r' Hin) as (_ & _ & Ha).
      simpl in Hrc. rewrite Hrc in Ha. subst a.
      by apply list_elem_of_lookup in Hin.
    - rewrite (c_empty _ _ _ Hc r Hri Hout) in Hrc. discriminate Hrc. }
  destruct (Hplaced p Hpi Hpc) as [i Hi].
  destruct (Hplaced q Hqi Hqc) as [j Hj].
  pose proof (Hline _ _ _ Hi) as Hp. pose proof (Hline _ _ _ Hj) as Hq.
  apply four_neighbors_adjacent in Hnb. unfold adjacent in Hnb.
  rewrite Hp, Hq in Hnb. simpl in Hnb.
  assert (Hunit : (d1 = 0 ∧ (d2 = 1 ∨ d2 = -1) ∨ (d1 = 1 ∨ d1 = -1) ∧ d2 = 0)%Z)
    by lia.
  assert (Hij : j = S i ∨ i = S j).
  { destruct Hunit as [[-> [-> | ->]] | [[-> | ->] ->]]; lia. }
  destruct Hij as [-> | ->].
  - by apply (find_H_pairs_order_elem order i).
  - rewrite frozen_pair_comm. by apply (find_H_pairs_order_elem order j).
Qed.

(** A walk whose turns are all ['straight'] keeps the initial heading
    ['right'] and lays the residues on one row. *)
Lemma walk_straight_line k grid_size g copy order (p0 : pos) g' order' :
  (∀ i a p, order !! i = Some (a, p) → p = (p0.1, p0.2 + Z.of_nat i)%Z) →
  Directional.walk (replicate k "straight") grid_size g copy order
    (p0.1, p0.2 + Z.of_nat (length order) - 1)%Z "right" = Ok (g', order') →
  ∀ i a p, order' !! i = Some (a, p) → p = (p0.1, p0.2 + Z.of_nat i)%Z.
Proof.
  revert g copy order. induction k as [|k IH]; intros g copy order Hline Hrun.
  - simpl in Hrun. by injection Hrun as <- <-.
  - cbn [replicate Directional.walk] in Hrun.
    change (String.eqb "straight" "Start") with false in Hrun.
    change (Directional.turn_orientation "right" "straight")
      with (@Ok string "right") in Hrun.
    rewrite bind_Ok in Hrun.
    change (movement_vectors "right") with (@Ok pos (0, 1)%Z) in Hrun.
    rewrite bind_Ok in Hrun. cbn [fst snd] in Hrun.
    destruct (free_cell _ _ _) as [[|]|] eqn:Hfree; [| |done].
    2:{ rewrite bind_Ok in Hrun. by injection Hrun as <- <-. }
    rewrite bind_Ok in Hrun. destruct copy as [|a copy]; [done|].
    destruct (setitem _ _ _) as [g1|] eqn:Hset; [|done].
    rewrite bind_Ok in Hrun.
    assert (Hline1 : ∀ i b p,
               (order ++ [(a, (p0.1 + 0, p0.2 + Z.of_nat (length order) - 1 + 1)%Z)])
                 !! i = Some (b, p) →
               p = (p0.1, p0.2 + Z.of_nat i)%Z).
    { intros i b p Hi. destruct (decide (i < length order)%nat) as [Hlt|Hge].
      - rewrite lookup_app_l in Hi by done. by eapply Hline.
      - assert (i = length order) as ->.
        { apply lookup_lt_Some in Hi. rewrite length_app in Hi. simpl in Hi.
          lia. }
        rewrite lookup_app_r, Nat.sub_diag in Hi by lia.
        injection Hi as <- <-. f_equal; lia. }
    destruct copy as [|a' copy].
    + by injection Hrun as <- <-.
    + apply (IH g1 (a' :: copy) _ Hline1).
      rewrite length_app. simpl.
      replace (p0.1, p0.2 + Z.of_nat (length order + 1) - 1)%Z
        with (p0.1 + 0, p0.2 + Z.of_nat (length order) - 1 + 1)%Z
        by (f_equal; lia).
      exact Hrun.
Qed.

Lemma straight_turns_line amino_acids k g order :
  Directional.initialize_grid_directional amino_acids
    ("Start" :: replicate k "straight") = Ok (g, order) →
  straight_line order.
Proof.
  unfold Directional.initialize_grid_directional.
  set (n := (Z.of_nat (length amino_acids) * 2)%Z).
  set (c := (n `div` 2)%Z). intros Hrun.
  exists (c, c), (0, 1)%Z. split; [done|]. simpl.
  cbn [Directional.walk] in Hrun.
  change (String.eqb "Start" "Start") with true in Hrun. cbn iota in Hrun.
  destruct amino_acids as [|a copy]; [done|].
  destruct (setitem _ _ _) as [g1|] eqn:Hset; [|done].
  rewrite bind_Ok in Hrun.
  assert (Hgoal : ∀ i b p, order !! i = Some (b, p) →
                           p = (c, c + Z.of_nat i)%Z).
  { destruct copy as [|a' copy].
    - injection Hrun as <- <-. intros [|i] b p Hi; [|done].
      injection Hi as <- <-. f_equal; lia.
    - apply (walk_straight_line k n g1 (a' :: copy) [(a, (c, c))] (c, c) g).
      + intros [|i] b p Hi; [|done]. injection Hi as <- <-. simpl.
        f_equal; lia.
      + cbn [fst snd length].
        replace (c + Z.of_nat 1 - 1)%Z with c by lia. exact Hrun. }
  intros i b p Hi. rewrite (Hgoal i b p Hi). f_equal; lia.
Qed.

(** The end-to-end scenario of the deterministic engine: on the turn
    sequence start, straight, ..., straight every chain is laid on a
    straight line and has no H-bond. *)
Lemma straight_turns_no_H_bonds amino_acids k :
  amino_acids ≠ [] → Forall residue amino_acids →
  ∃ g order,
    Directional.initialize_grid_directional amino_acids
      ("Start" :: replicate k "straight") = Ok (g, order) ∧
    straight_line order ∧ find_H_bonds g order = Ok ∅.
Proof.
  intros Hne Hres.
  destruct (directional_spec amino_acids ("Start" :: replicate k "straight")
              Hne Hres) as (g & order & Hrun & Hw & _).
  { eexists. split; [done|]. intros Hin. by apply elem_of_replicate in Hin as [? _]. }
  pose proof (straight_turns_line _ _ _ _ Hrun) as Hline.
  exists g, order. split; [done|]. split; [done|].
  eapply line_has_no_H_bonds; [apply Hw|done].
Qed.

(** C3: in a conformation whose placement order lies on one straight lattice
    line, [find_H_bonds] returns the empty set, whatever residues the
    entries hold. *)
Theorem straight_line_no_H_bonds n g order :
  consistent n g order → straight_line order →
  find_H_bonds g order = Ok ∅.
Proof. apply line_has_no_H_bonds. Qed.

Lemma straight_line_no_H_bonds_witness :
  ∃ g order,
    Directional.initialize_grid_directional chain_HPHPH turns_straight
      = Ok (g, order) ∧
    consistent 10 g order ∧ straight_line order ∧
    find_H_bonds g order = Ok ∅.
Proof.
  destruct (directional_spec chain_HPHPH turns_straight)
    as (g & order & Hrun & Hw & _);
    [discriminate|solve_residues|solve_turn_sequence|].
  pose proof (w_consistent _ _ _ Hw) as Hc.
  pose proof (straight_turns_line chain_HPHPH 4 g order Hrun) as Hline.
  exists g, order. split; [exact Hrun|]. split; [exact Hc|].
  split; [exact Hline|].
  exact (straight_line_no_H_bonds 10 g order Hc Hline).
Defined.

(** ** Sample statistics *)

Lemma find_H_bonds_square n g order :
  square n g → ∃ bonds, find_H_bonds g order = Ok bonds.
Proof.
  intros Hsq. unfold find_H_bonds.
  rewrite (find_H_pairs_grid_square n g Hsq), bind_Ok. by eexists.
Qed.

Lemma true_div_zero_iff a b q :
  true_div a b = Ok q →
  Qeq q (inject_Z (Z.of_nat a) / inject_Z (Z.of_nat b))%Q ∧
  (Qeq q 0 ↔ a = 0%nat).
Proof.
  unfold true_div. destruct b as [|b]; [done|]. intros [= <-]. split.
  - rewrite Qmake_Qdiv.
    replace (Z.pos (Pos.of_nat (S b))) with (Z.of_nat (S b)) by lia. reflexivity.
  - unfold Qeq. simpl. lia.
Qed.

Lemma sample_stats_consistent n g order :
  consistent n g order → order ≠ [] → sample_ok (g, order).
Proof.
  intros Hc Hne.
  destruct (find_H_bonds_square n g order (c_square _ _ _ Hc)) as [bonds Hb].
  assert (Hlen : (0 < length order)%nat) by (destruct order; [done|simpl; lia]).
  destruct (true_div (size bonds) (length order)) as [q|] eqn:Hq.
  2:{ unfold true_div in Hq. destruct (length order); [lia|done]. }
  exists bonds, q. simpl. split; [done|]. split; [apply Hc|]. split; [done|].
  split; [|by apply true_div_zero_iff].
  unfold sample_stats. rewrite Hb, bind_Ok, (c_count _ _ _ Hc), Hq. done.
Qed.

(** Both engines return a conformation whose statistics are defined: the
    number of residues on the grid is the length of the placement order and
    is at least 1, the H-ratio is the bond count divided by it, and the
    H-ratio is 0 exactly when the bond count is 0. *)
Lemma engines_give_sample_ok rng amino_acids directions :
  amino_acids ≠ [] → Forall residue amino_acids → turn_sequence directions →
  (∃ conformation,
     Stochastic.initialize_grid rng amino_acids = Ok conformation ∧
     sample_ok conformation) ∧
  (∃ conformation,
     Directional.initialize_grid_directional amino_acids directions
       = Ok conformation ∧
     sample_ok conformation).
Proof.
  intros Hne Hres Hturns. split.
  - destruct (stochastic_spec rng amino_acids Hne Hres)
      as (g & order & Hrun & Hw & _ & Hlen & _).
    exists (g, order). split; [done|].
    eapply sample_stats_consistent; [apply Hw|].
    destruct order; [simpl in Hlen; lia|done].
  - destruct (directional_spec amino_acids directions Hne Hres Hturns)
      as (g & order & Hrun & Hw & _ & Hlen).
    exists (g, order). split; [done|].
    eapply sample_stats_consistent; [apply Hw|].
    destruct order; [simpl in Hlen; lia|done].
Qed.

(** ** Early termination *)

Lemma filter_none {A} (P : A → Prop) `{∀ x, Decision (P x)} (l : list A) :
  (∀ x, x ∈ l → ¬ P x) → filter P l = [].
Proof.
  induction l as [|x l IH]; intros Hl; [done|].
  rewrite filter_cons_False by (apply Hl; left).
  apply IH. intros y Hy. apply Hl. by right.
Qed.

Lemma blocked_not_free n g order q :
  consistent n g order → ¬ inside n q ∨ q ∈ order.*2 →
  ¬ (inside n q ∧ cell g q = "").
Proof.
  intros Hc [Hout | Hocc] [Hin He]; [done|].
  by apply (consistent_free _ _ _ _ Hc He).
Qed.

(** C6: both engines return normally on every chain, with a placement order
    whose residues are the first residues of the chain and are all on the
    grid at their recorded positions.  The stochastic loop returns the state
    it has as soon as every neighbour of the last placement is outside the
    lattice or occupied, and when the order it returns is shorter than the
    chain its last placement has no valid neighbour.  The deterministic loop
    returns the state it has as soon as the target cell of a turn is outside
    the lattice or occupied. *)
Theorem early_termination_is_normal_return rng amino_acids directions :
  amino_acids ≠ [] → Forall residue amino_acids → turn_sequence directions →
  let L := length amino_acids in
  (∃ g order,
     Stochastic.initialize_grid rng amino_acids = Ok (g, order) ∧
     partial_conformation amino_acids g order ∧
     ((length order < L)%nat →
      ∃ a p, last order = Some (a, p) ∧
             valid_neighbors (Z.of_nat (L * 2)) g p = Ok [])) ∧
  (∃ g order,
     Directional.initialize_grid_directional amino_acids directions
       = Ok (g, order) ∧
     partial_conformation amino_acids g order) ∧
  (∀ rng' total n g copy order a p,
     consistent n g order → last order = Some (a, p) →
     (∀ q, q ∈ four_neighbors p → ¬ inside n q ∨ q ∈ order.*2) →
     Stochastic.place_loop rng' total (Z.of_nat n) g copy order
     = Ok (g, order)) ∧
  (∀ d rest n g copy order current o o' move,
     consistent n g order → d ≠ "Start" →
     Directional.turn_orientation o d = Ok o' →
     movement_vectors o' = Ok move →
     let next := (current.1 + move.1, current.2 + move.2)%Z in
     ¬ inside n next ∨ next ∈ order.*2 →
     Directional.walk (d :: rest) (Z.of_nat n) g copy order current o
     = Ok (g, order)).
Proof.
  intros Hne Hres Hturns L. split; [|split; [|split]].
  - destruct (stochastic_spec rng amino_acids Hne Hres)
      as (g & order & Hrun & Hw & Hpre & _ & Hdead).
    exists g, order. split; [done|]. split; [|done].
    split; [done|]. eapply consistent_on_grid, Hw.
  - destruct (directional_spec amino_acids directions Hne Hres Hturns)
      as (g & order & Hrun & Hw & Hpre & _).
    exists g, order. split; [done|].
    split; [done|]. eapply consistent_on_grid, Hw.
  - intros rng' total n g copy order a p Hc Hlast Hblocked.
    destruct total as [|total]; [done|]. simpl.
    unfold last_placement. rewrite Hlast, bind_Ok.
    rewrite (valid_neighbors_square _ _ _ (c_square _ _ _ Hc)), bind_Ok.
    rewrite filter_none; [done|]. intros q Hq.
    by apply (blocked_not_free n g order q Hc), Hblocked.
  - intros d rest n g copy order current o o' move Hc Hd Hto Hmv next Hblocked.
    simpl. destruct (String.eqb_spec d "Start") as [->|_]; [done|].
    rewrite Hto, bind_Ok, Hmv, bind_Ok.
    rewrite (free_cell_square _ _ _ (c_square _ _ _ Hc)), bind_Ok.
    rewrite bool_decide_eq_false_2; [done|].
    by apply (blocked_not_free n g order).
Qed.

Lemma early_termination_is_normal_return_witness :
  chain_HHPPH ≠ [] ∧ Forall residue chain_HHPPH ∧ turn_sequence turns_spiral ∧
  (∃ g order,
     Stochastic.initialize_grid draws_counting chain_HHPPH = Ok (g, order) ∧
     partial_conformation chain_HHPPH g order ∧
     ((length order < 5)%nat →
      ∃ a p, last order = Some (a, p) ∧
             valid_neighbors (Z.of_nat (5 * 2)) g p = Ok [])) ∧
  (∃ g order,
     Directional.initialize_grid_directional chain_HHPPH turns_spiral
       = Ok (g, order) ∧
     partial_conformation chain_HHPPH g order) ∧
  (∀ rng' total n g copy order a p,
     consistent n g order → last order = Some (a, p) →
     (∀ q, q ∈ four_neighbors p → ¬ inside n q ∨ q ∈ order.*2) →
     Stochastic.place_loop rng' total (Z.of_nat n) g copy order
     = Ok (g, order)) ∧
  (∀ d rest n g copy order current o o' move,
     consistent n g order → d ≠ "Start" →
     Directional.turn_orientation o d = Ok o' →
     movement_vectors o' = Ok move →
     let next := (current.1 + move.1, current.2 + move.2)%Z in
     ¬ inside n next ∨ next ∈ order.*2 →
     Directional.walk (d :: rest) (Z.of_nat n) g copy order current o
     = Ok (g, order)).
Proof.
  assert (H1 : chain_HHPPH ≠ []) by discriminate.
  assert (H2 : Forall residue chain_HHPPH) by solve_residues.
  assert (H3 : turn_sequence turns_spiral) by solve_turn_sequence.
  split; [exact H1|]. split; [exact H2|]. split; [exact H3|].
  exact (early_termination_is_normal_return draws_counting chain_HHPPH
           turns_spiral H1 H2 H3).
Defined.

(** ** Backtracking engine *)

Lemma consistent_unplace n g order b p :
  consistent n g (order ++ [(b, p)]) →
  ∃ g', setitem g p "" = Ok g' ∧ consistent n g' order.
Proof.
  intros Hc.
  destruct (c_placed _ _ _ Hc b p) as (Hin & Hres & Hcell).
  { apply elem_of_app. right. by left. }
  destruct (setitem_inside n g p "" (c_square _ _ _ Hc) Hin)
    as (g' & Hset & Hsq & Hp & Hother).
  pose proof (c_nodup _ _ _ Hc) as Hnd.
  rewrite fmap_app in Hnd. apply NoDup_app in Hnd as (Hnd & Hfresh & _).
  exists g'. split; [done|]. split.
  - done.
  - intros a q Hq.
    destruct (c_placed _ _ _ Hc a q) as (Hqi & Hqr & Hqc).
    { apply elem_of_app. by left. }
    split; [done|]. split; [done|]. rewrite Hother; [done| |done].
    intros ->. apply (Hfresh p); [|by left].
    apply list_elem_of_fmap. by exists (a, p).
  - intros q Hqi Hq. destruct (decide (q = p)) as [->|Hne]; [done|].
    rewrite Hother by done. apply (c_empty _ _ _ Hc); [done|].
    rewrite fmap_app. apply not_elem_of_app. split; [done|].
    simpl. rewrite list_elem_of_singleton. done.
  - done.
  - pose proof (count_nonzero_setitem n g p "" g' (c_square _ _ _ Hc) Hin Hset)
      as Hcount.
    rewrite Hcell in Hcount. simpl in Hcount.
    destruct (String.eqb_spec b "") as [->|_].
    + by apply residue_nonempty in Hres.
    + pose proof (c_count _ _ _ Hc) as Hlen. rewrite length_app in Hlen.
      simpl in Hlen. lia.
Qed.

Lemma walk_inv_unplace L g order b p :
  walk_inv L g (order ++ [(b, p)]) →
  ∃ g', setitem g p "" = Ok g' ∧ walk_inv L g' order.
Proof.
  intros Hw.
  destruct (consistent_unplace _ _ _ _ _ (w_consistent _ _ _ Hw))
    as (g' & Hset & Hc).
  exists g'. split; [done|]. split.
  - done.
  - intros i a q c r Hi HSi. apply (w_connected _ _ _ Hw i a q c r).
    + by apply lookup_app_l_Some.
    + by apply lookup_app_l_Some.
  - intros a q Hi. apply (w_first _ _ _ Hw a q). by apply lookup_app_l_Some.
  - intros i a q Hi. apply (w_near _ _ _ Hw i a q). by apply lookup_app_l_Some.
Qed.

Lemma consistent_no_fence n g order :
  consistent n g order → Backtracking.clear_fences g = g.
Proof.
  intros Hc. unfold Backtracking.clear_fences.
  apply list_eq. intros r. rewrite list_lookup_fmap.
  destruct (g !! r) as [row|] eqn:Hrow; [|done]. simpl. f_equal.
  apply list_eq. intros c. rewrite list_lookup_fmap.
  destruct (row !! c) as [s|] eqn:Hs; [|done]. simpl. f_equal.
  pose proof (square_row n g r row (c_square _ _ _ Hc) Hrow) as Hlen.
  assert (Hin : inside n (Z.of_nat r, Z.of_nat c)).
  { apply lookup_lt_Some in Hrow, Hs.
    rewrite (proj1 (c_square _ _ _ Hc)) in Hrow. unfold inside. simpl. lia. }
  assert (Hcell : cell g (Z.of_nat r, Z.of_nat c) = s).
  { unfold cell. simpl. rewrite !Nat2Z.id, Hrow. simpl. by rewrite Hs. }
  destruct (String.eqb_spec s "F") as [->|_]; [|done]. exfalso.
  destruct (decide ((Z.of_nat r, Z.of_nat c) ∈ order.*2)) as [Hocc|Hfree].
  - apply list_elem_of_fmap in Hocc as ([a q] & Hq & Hocc). simpl in Hq.
    subst q. destruct (c_placed _ _ _ Hc a _ Hocc) as (_ & Hres & Ha).
    rewrite Hcell in Ha. subst a. by apply residue_not_fence in Hres.
  - by rewrite (c_empty _ _ _ Hc _ Hin Hfree) in Hcell.
Qed.

Lemma centre_not_trapped L g a :
  (0 < L)%nat → walk_inv L g [(a, (Z.of_nat L, Z.of_nat L))] →
  filter (λ q, inside (L * 2) q ∧ cell g q = "")
    (four_neighbors (Z.of_nat L, Z.of_nat L)) ≠ [].
Proof.
  intros HL Hw Hnil.
  apply (filter_nil_not_elem_of _ _ (Z.of_nat L - 1, Z.of_nat L)%Z) in Hnil.
  - apply Hnil. by left.
  - assert (Hin : inside (L * 2) (Z.of_nat L - 1, Z.of_nat L)%Z).
    { unfold inside. simpl. lia. }
    split; [done|]. apply (c_empty _ _ _ (w_consistent _ _ _ Hw)); [done|].
    simpl. rewrite list_elem_of_singleton. intros [=]. lia.
Qed.

Lemma walk_dist order i j a p b q :
  connected order → (i ≤ j)%nat →
  order !! i = Some (a, p) → order !! j = Some (b, q) →
  (Z.abs (p.1 - q.1) + Z.abs (p.2 - q.2) ≤ Z.of_nat j - Z.of_nat i)%Z.
Proof.
  intros Hconn Hij Hi. revert b q.
  induction j as [|j IH]; intros b q Hj.
  - assert (i = 0)%nat as -> by lia. rewrite Hi in Hj. injection Hj as <- <-.
    lia.
  - destruct (decide (i = S j)) as [->|Hne].
    + rewrite Hi in Hj. injection Hj as <- <-. lia.
    + destruct (lookup_lt_is_Some_2 order j) as [[c r] Hr].
      { apply lookup_lt_Some in Hj. lia. }
      pose proof (IH ltac:(lia) c r Hr) as Hdist.
      pose proof (Hconn j c r b q Hr Hj) as Hadj. unfold adjacent in Hadj.
      lia.
Qed.

Lemma walk_dist_abs order i j a p b q :
  connected order →
  order !! i = Some (a, p) → order !! j = Some (b, q) →
  (Z.abs (p.1 - q.1) + Z.abs (p.2 - q.2) ≤ Z.abs (Z.of_nat j - Z.of_nat i))%Z.
Proof.
  intros Hconn Hi Hj. destruct (decide (i ≤ j)%nat) as [Hle|Hgt].
  - pose proof (walk_dist order i j a p b q Hconn Hle Hi Hj). lia.
  - pose proof (walk_dist order j i b q a p Hconn ltac:(lia) Hj Hi). lia.
Qed.

(** The end of a self-avoiding walk of at most seven cells has a free
    neighbour: filling the four neighbours of a cell takes a walk through
    seven other cells. *)
Lemma not_trapped L g order a p :
  walk_inv L g order → last order = Some (a, p) →
  (length order ≤ 7)%nat → (length order < L)%nat →
  filter (λ q, inside (L * 2) q ∧ cell g q = "") (four_neighbors p) ≠ [].
Proof.
  intros Hw Hlast Hshort Hroom Hnil. rewrite last_lookup in Hlast.
  pose proof (w_near _ _ _ Hw _ _ _ Hlast) as Hnear.
  assert (Hocc : ∀ q, q ∈ four_neighbors p →
            ∃ j b, order !! j = Some (b, q)).
  { intros q Hq.
    assert (Hin : inside (L * 2) q).
    { apply four_neighbors_adjacent in Hq. unfold adjacent in Hq.
      pose proof (lookup_lt_Some _ _ _ Hlast). unfold inside. lia. }
    destruct (decide (q ∈ order.*2)) as [Hocc|Hfree].
    - apply list_elem_of_fmap in Hocc as ([b q'] & -> & Hocc).
      apply list_elem_of_lookup in Hocc as [j Hj]. by exists j, b.
    - exfalso. eapply (filter_nil_not_elem_of _ _ q Hnil); [|exact Hq].
      split; [done|]. by apply (c_empty _ _ _ (w_consistent _ _ _ Hw)). }
  destruct (Hocc (p.1 - 1, p.2)%Z) as (j1 & b1 & H1); [set_solver|].
  destruct (Hocc (p.1 + 1, p.2)%Z) as (j2 & b2 & H2); [set_solver|].
  destruct (Hocc (p.1, p.2 - 1)%Z) as (j3 & b3 & H3); [set_solver|].
  destruct (Hocc (p.1, p.2 + 1)%Z) as (j4 & b4 & H4); [set_solver|].
  pose proof (w_connected _ _ _ Hw) as Hconn.
  pose proof (walk_dist_abs _ _ _ _ _ _ _ Hconn H1 H2) as D12.
  pose proof (walk_dist_abs _ _ _ _ _ _ _ Hconn H1 H3) as D13.
  pose proof (walk_dist_abs _ _ _ _ _ _ _ Hconn H1 H4) as D14.
  pose proof (walk_dist_abs _ _ _ _ _ _ _ Hconn H2 H3) as D23.
  pose proof (walk_dist_abs _ _ _ _ _ _ _ Hconn H2 H4) as D24.
  pose proof (walk_dist_abs _ _ _ _ _ _ _ Hconn H3 H4) as D34.
  pose proof (walk_dist_abs _ _ _ _ _ _ _ Hconn H1 Hlast) as D1.
  pose proof (walk_dist_abs _ _ _ _ _ _ _ Hconn H2 Hlast) as D2.
  pose proof (walk_dist_abs _ _ _ _ _ _ _ Hconn H3 Hlast) as D3.
  pose proof (walk_dist_abs _ _ _ _ _ _ _ Hconn H4 Hlast) as D4.
  apply lookup_lt_Some in H1, H2, H3, H4. simpl in *. lia.
Qed.

Lemma sublist_full {A} (l1 l2 : list A) :
  l1 `sublist_of` l2 → (length l2 ≤ length l1)%nat → l1 = l2.
Proof.
  induction 1 as [|x l1 l2 Hsub IH|x l1 l2 Hsub IH]; simpl; intros Hlen.
  - done.
  - f_equal. apply IH. lia.
  - apply sublist_length in Hsub. lia.
Qed.

(** One call of [place_amino_acid] after the first residue was placed.  The
    call returns after at most [2 * len(copy) + len(order) + 1] nested
    calls, always with success; every backtrack drops the residue of the
    entry it removes, so the final order is as much shorter than the
    chain as there were backtracks. *)
Lemma place_amino_acid_spec L depth :
  (0 < L)%nat →
  ∀ rng g copy order bc a p wjb fl f acids,
  walk_inv L g order → last order = Some (a, p) → Forall residue copy →
  (length order + length copy ≤ L)%nat →
  (2 * length copy + length order < depth)%nat →
  ∃ bc' g' order',
    Backtracking.place_amino_acid depth rng g copy order bc (Some p)
      wjb fl f acids = Ok (true, bc', g', order') ∧
    walk_inv L g' order' ∧ order' ≠ [] ∧
    order'.*1 `sublist_of` order.*1 ++ copy ∧
    (length order' + bc' = length order + length copy + bc)%nat ∧
    ((length order + length copy ≤ 8)%nat → bc' = bc).
Proof.
  intros HL. induction depth as [|depth IH];
    intros rng g copy order bc a p wjb fl f acids Hw Hlast Hres Hroom Hdepth;
    [lia|].
  pose proof (c_square _ _ _ (w_consistent _ _ _ Hw)) as Hsq.
  cbn [Backtracking.place_amino_acid].
  destruct copy as [|a' copy].
  { exists bc, g, order. split; [done|]. split; [done|].
    split; [by intros ->|]. rewrite app_nil_r. simpl. split; [done|].
    split; [lia|done]. }
  apply Forall_cons in Hres as [Hres_a Hres]. simpl in Hroom, Hdepth.
  rewrite (proj1 Hsq), (valid_neighbors_square _ _ _ Hsq), bind_Ok.
  destruct (filter _ (four_neighbors p)) as [|v valid] eqn:Hvalid.
  - (* dead end: backtrack *)
    apply last_Some in Hlast as [order0 Horder].
    assert (Hrl : removelast order = order0).
    { rewrite Horder. apply removelast_last. }
    rewrite Horder in Hw.
    destruct (walk_inv_unplace L g order0 a p Hw) as (g1 & Hset & Hw1).
    rewrite Hset, bind_Ok.
    destruct order as [|e order_tl]; [by destruct order0|].
    rewrite Hrl. clear Hrl.
    rewrite (consistent_no_fence _ _ _ (w_consistent _ _ _ Hw1)).
    assert (Hlen : length (e :: order_tl) = S (length order0)).
    { rewrite Horder, length_app. simpl. lia. }
    destruct (last order0) as [[b0 prev]|] eqn:Hlast0.
    + destruct (IH (next_draws rng) g1 (a' :: copy) order0 (bc + 1)%nat b0
                  prev 1%nat (fl + 1)%nat
                  (if (f <? acids)%nat then 0%nat else f) 0%nat Hw1 Hlast0)
        as (bc' & g' & order' & Hrun & Hw' & Hne' & Hsub & Hcount & _).
      { by apply Forall_cons. }
      { simpl. lia. }
      { simpl. lia. }
      exists bc', g', order'. split.
      { destruct (f <? acids)%nat; exact Hrun. }
      split; [done|]. split; [done|]. split; [|split].
      * etrans; [exact Hsub|]. rewrite Horder, fmap_app, <- app_assoc.
        apply sublist_app; [done|]. simpl. by apply sublist_cons.
      * simpl in *. lia.
      * intros Hsmall. exfalso.
        apply (not_trapped L g (order0 ++ [(a, p)]) a p Hw);
          [apply last_snoc|rewrite <- Horder; simpl in *; lia
          |rewrite <- Horder; simpl in *; lia|done].
    + exfalso. apply last_None in Hlast0. subst order0. simpl in Hw.
      pose proof (w_first _ _ _ Hw a p eq_refl) as ->.
      by apply (centre_not_trapped L g a HL Hw).
  - (* a valid neighbour: place the residue *)
    destruct (shuffled_first_cons (rng 0%nat) v valid) as (chosen & Hpick & Hin).
    rewrite Hpick, bind_Ok. rewrite <- Hvalid in Hin.
    apply list_elem_of_filter in Hin as [[Hinside Hempty] Hnb].
    destruct (walk_inv_extend L g order a' chosen a p Hw Hlast Hnb Hinside
                Hempty Hres_a) as (g1 & Hset & Hw1).
    rewrite Hset, bind_Ok.
    destruct (IH (next_draws rng) g1 copy (order ++ [(a', chosen)]) bc a'
                chosen 0%nat fl f (acids + 1)%nat Hw1)
      as (bc' & g' & order' & Hrun & Hw' & Hne' & Hsub & Hcount & Hclean).
    { apply last_snoc. }
    { done. }
    { rewrite length_app. simpl. lia. }
    { rewrite length_app. simpl. lia. }
    exists bc', g', order'. split; [done|]. split; [done|]. split; [done|].
    rewrite fmap_app, <- app_assoc, length_app in *. simpl in *.
    split; [done|]. split; [lia|]. intros Hsmall. apply Hclean. lia.
Qed.

(** The backtracking engine on a chain of [L] residues: with room for
    [2L + 1] nested calls it returns, reports success, and the placement
    order is a self-avoiding connected walk from the centre whose residues
    are a subsequence of the chain, one residue short for every
    backtrack.  Chains of at most 8 residues are placed without backtrack
    and in full. *)
Lemma backtracking_spec depth rng amino_acids :
  amino_acids ≠ [] → Forall residue amino_acids →
  let L := length amino_acids in
  (2 * L < depth)%nat →
  ∃ g order backtrack_count,
    Backtracking.place_amino_acid depth rng (np_full (L * 2)) amino_acids []
      0 None 0 0 0 0 = Ok (true, backtrack_count, g, order) ∧
    Backtracking.initialize_grid depth rng amino_acids
      = Ok (g, order, backtrack_count) ∧
    walk_inv L g order ∧
    order.*1 `sublist_of` amino_acids ∧
    (length order + backtrack_count = L)%nat ∧
    ((L ≤ 8)%nat → backtrack_count = 0%nat ∧ order.*1 = amino_acids).
Proof.
  intros Hne Hres L Hdepth.
  destruct amino_acids as [|a copy] eqn:Hchain; [done|].
  apply Forall_cons in Hres as [Hres_a Hres].
  assert (HL : (0 < L)%nat) by (subst L; simpl; lia).
  destruct depth as [|depth]; [lia|].
  destruct (walk_inv_first L a HL Hres_a) as (g1 & Hset & Hw1).
  destruct (place_amino_acid_spec L depth HL rng g1 copy
              [(a, (Z.of_nat L, Z.of_nat L))] 0%nat a
              (Z.of_nat L, Z.of_nat L) 0%nat 0%nat 0%nat 0%nat Hw1)
    as (bc & g' & order' & Hrun & Hw' & Hne' & Hsub & Hcount & Hclean);
    [done|done|subst L; simpl; lia|subst L; simpl in *; lia|].
  assert (Hplace :
    Backtracking.place_amino_acid (S depth) rng (np_full (L * 2)) (a :: copy)
      [] 0 None 0 0 0 0 = Ok (true, bc, g', order')).
  { cbn [Backtracking.place_amino_acid].
    assert (Hsize : length (np_full (L * 2)) = (L * 2)%nat)
      by apply length_replicate.
    rewrite Hsize, centre_div, Hset, bind_Ok. exact Hrun. }
  exists g', order', bc. split; [exact Hplace|].
  split.
  { unfold Backtracking.initialize_grid. fold L. by rewrite Hplace. }
  split; [done|]. split; [done|].
  change (length [(a, (Z.of_nat L, Z.of_nat L))]) with 1%nat in Hcount, Hclean.
  assert (HLen : L = S (length copy)) by done.
  split; [lia|]. intros Hsmall.
  assert (bc = 0%nat) as -> by (apply Hclean; lia).
  split; [done|]. apply sublist_full; [done|].
  rewrite length_fmap. simpl. lia.
Qed.

(** C10 fails on the code: on a chain of nine residues whose first eight
    placements end in a dead end, [place_amino_acid] backtracks once and
    reports success with a placement order of eight entries.  The residue of
    the entry it removed (the eighth, ['P']) is not put back on the
    remaining residues, so the order does not cover every residue. *)
Theorem backtracking_drops_residue :
  ∃ g order,
    Backtracking.place_amino_acid 19 draws_dead_end
      (np_full (length chain_9 * 2)) chain_9 [] 0 None 0 0 0 0
      = Ok (true, 1%nat, g, order) ∧
    Backtracking.initialize_grid 19 draws_dead_end chain_9
      = Ok (g, order, 1%nat) ∧
    order = [("H", (9, 9)); ("P", (9, 10)); ("H", (10, 10)); ("P", (11, 10));
             ("H", (11, 9)); ("P", (11, 8)); ("H", (10, 8));
             ("H", (9, 8))]%Z ∧
    length order = 8%nat ∧ length chain_9 = 9%nat ∧ order.*1 ≠ chain_9.
Proof.
  eexists _, _. split; [vm_compute; reflexivity|].
  split; [vm_compute; reflexivity|]. split; [reflexivity|].
  split; [reflexivity|]. split; [reflexivity|]. discriminate.
Qed.

(** * Further properties of the notebooks' functions *)

(** ** Contact analyser *)

Lemma adjacent_four_neighbors p q : adjacent q p → q ∈ four_neighbors p.
Proof.
  unfold adjacent, four_neighbors. destruct p as [r c], q as [r' c']. simpl.
  intros Hadj. rewrite !elem_of_cons.
  assert ((r' = r - 1 ∧ c' = c) ∨ (r' = r + 1 ∧ c' = c) ∨
          (r' = r ∧ c' = c - 1) ∨ (r' = r ∧ c' = c + 1))%Z
    as [[-> ->] | [[-> ->] | [[-> ->] | [-> ->]]]] by lia; tauto.
Qed.

Lemma adjacent_sym p q : adjacent p q → adjacent q p.
Proof. unfold adjacent. lia. Qed.

Lemma adjacent_ne p q : adjacent p q → p ≠ q.
Proof. unfold adjacent. intros Hadj ->. lia. Qed.

Lemma frozen_pair_inj p q p' q' :
  p ≠ q → frozen_pair p q = frozen_pair p' q' →
  (p = p' ∧ q = q') ∨ (p = q' ∧ q = p').
Proof.
  unfold frozen_pair. intros Hne Heq.
  assert (Hp : p ∈ ({[p'; q']} : gset pos)).
  { rewrite <- Heq. apply elem_of_union_l. by apply elem_of_singleton. }
  assert (Hq : q ∈ ({[p'; q']} : gset pos)).
  { rewrite <- Heq. apply elem_of_union_r. by apply elem_of_singleton. }
  rewrite elem_of_union, !elem_of_singleton in Hp, Hq.
  destruct Hp as [-> | ->], Hq as [-> | ->]; try done; [by left|by right].
Qed.

Lemma find_H_pairs_order_inv order X :
  X ∈ find_H_pairs_order order →
  ∃ i p q, order !! i = Some ("H", p) ∧ order !! S i = Some ("H", q) ∧
           X = frozen_pair p q.
Proof.
  induction order as [|[a r] order IH]; [by intros ?%not_elem_of_empty|].
  destruct order as [|[b s] order]; [by intros ?%not_elem_of_empty|].
  cbn [find_H_pairs_order]. intros [HX | HX]%elem_of_union.
  - destruct (String.eqb_spec a "H") as [->|_];
      [|by apply not_elem_of_empty in HX].
    destruct (String.eqb_spec b "H") as [->|_];
      [|by apply not_elem_of_empty in HX].
    apply elem_of_singleton in HX as ->. by exists 0%nat, r, s.
  - destruct (IH HX) as (i & p & q & Hi & HSi & ->). by exists (S i), p, q.
Qed.

Lemma H_cell_placed n g order p :
  consistent n g order → inside n p → cell g p = "H" →
  ∃ i, order !! i = Some ("H", p).
Proof.
  intros Hc Hin Hcell. destruct (decide (p ∈ order.*2)) as [Hocc|Hfree].
  - apply list_elem_of_fmap in Hocc as ([a p'] & -> & Hocc).
    destruct (c_placed _ _ _ Hc a p' Hocc) as (_ & _ & Ha).
    simpl in Hcell. rewrite Hcell in Ha. subst a.
    by apply list_elem_of_lookup in Hocc.
  - rewrite (c_empty _ _ _ Hc p Hin Hfree) in Hcell. discriminate Hcell.
Qed.

(** X1: on a square grid [find_H_pairs_grid] does not raise, and the set
    it returns holds exactly the unordered pairs of two cells of the grid
    that are neighbours in a row or a column and both hold ['H']. *)
Theorem grid_H_pairs_exact n g :
  square n g →
  ∃ pairs,
    find_H_pairs_grid g = Ok pairs ∧
    ∀ X, X ∈ pairs ↔
      ∃ p q, inside n p ∧ inside n q ∧ adjacent p q ∧
             cell g p = "H" ∧ cell g q = "H" ∧ X = frozen_pair p q.
Proof.
  intros Hsq. eexists. split; [by apply find_H_pairs_grid_square|].
  intros X.
  rewrite (elem_of_find_H_pairs_grid n g _ X Hsq
             (find_H_pairs_grid_square n g Hsq)).
  split; intros (p & q & Hp & Hq & Hnb & Hcp & Hcq & ->); exists p, q.
  - split; [done|]. split; [done|]. split; [|done].
    by apply adjacent_sym, four_neighbors_adjacent.
  - split; [done|]. split; [done|]. split; [|done].
    by apply adjacent_four_neighbors, adjacent_sym.
Qed.

Lemma grid_H_pairs_exact_witness :
  square 2 grid_block ∧
  ∃ pairs,
    find_H_pairs_grid grid_block = Ok pairs ∧
    ∀ X, X ∈ pairs ↔
      ∃ p q, inside 2 p ∧ inside 2 q ∧ adjacent p q ∧
             cell grid_block p = "H" ∧ cell grid_block q = "H" ∧
             X = frozen_pair p q.
Proof.
  assert (H1 : square 2 grid_block).
  { split; [reflexivity|]. repeat apply Forall_cons_2; done. }
  split; [exact H1|]. exact (grid_H_pairs_exact 2 grid_block H1).
Defined.

(** X2: [find_H_pairs_order] returns exactly the unordered pairs of the
    positions of two consecutive entries of the placement order that both
    hold ['H']; an order of fewer than two entries has none. *)
Theorem order_H_pairs_exact order X :
  (X ∈ find_H_pairs_order order ↔
   ∃ i p q, order !! i = Some ("H", p) ∧ order !! S i = Some ("H", q) ∧
            X = frozen_pair p q) ∧
  ((length order < 2)%nat → find_H_pairs_order order = ∅).
Proof.
  split; [split|].
  - apply find_H_pairs_order_inv.
  - intros (i & p & q & Hi & HSi & ->).
    by apply (find_H_pairs_order_elem order i).
  - destruct order as [|[a p] [|e order]]; simpl; [done|done|lia].
Qed.

Lemma H_bonds_exact n g order bonds :
  consistent n g order → find_H_bonds g order = Ok bonds →
  ∀ X, X ∈ bonds ↔
    ∃ i j p q, (S i < j)%nat ∧
      order !! i = Some ("H", p) ∧ order !! j = Some ("H", q) ∧
      adjacent p q ∧ X = frozen_pair p q.
Proof.
  intros Hc Hrun X. pose proof (c_square _ _ _ Hc) as Hsq.
  pose proof (consistent_self_avoiding _ _ _ Hc) as Hsa.
  unfold find_H_bonds in Hrun.
  rewrite (find_H_pairs_grid_square n g Hsq), bind_Ok in Hrun.
  injection Hrun as <-. rewrite elem_of_difference.
  rewrite (elem_of_find_H_pairs_grid n g _ X Hsq
             (find_H_pairs_grid_square n g Hsq)).
  split.
  - intros [(p & q & Hpi & Hqi & Hnb & Hcp & Hcq & ->) Hnot].
    destruct (H_cell_placed n g order p Hc Hpi Hcp) as [i Hi].
    destruct (H_cell_placed n g order q Hc Hqi Hcq) as [j Hj].
    apply four_neighbors_adjacent in Hnb.
    assert (i ≠ j).
    { intros ->. rewrite Hi in Hj. injection Hj as ->.
      by apply adjacent_ne in Hnb. }
    assert (j ≠ S i).
    { intros ->. apply Hnot. by apply (find_H_pairs_order_elem order i). }
    assert (i ≠ S j).
    { intros ->. apply Hnot. rewrite frozen_pair_comm.
      by apply (find_H_pairs_order_elem order j). }
    destruct (decide (i < j)%nat).
    + exists i, j, p, q. split; [lia|]. split; [done|]. split; [done|].
      split; [by apply adjacent_sym|done].
    + exists j, i, q, p. split; [lia|]. split; [done|]. split; [done|].
      split; [done|apply frozen_pair_comm].
  - intros (i & j & p & q & Hij & Hi & Hj & Hadj & ->).
    destruct (c_placed _ _ _ Hc "H" p) as (Hpi & _ & Hcp);
      [by eapply list_elem_of_lookup_2|].
    destruct (c_placed _ _ _ Hc "H" q) as (Hqi & _ & Hcq);
      [by eapply list_elem_of_lookup_2|].
    split.
    + exists p, q. split; [done|]. split; [done|]. split; [|done].
      by apply adjacent_four_neighbors, adjacent_sym.
    + intros (k & p' & q' & Hk & HSk & Heq)%find_H_pairs_order_inv.
      apply frozen_pair_inj in Heq as [[-> ->] | [-> ->]];
        [| |by apply adjacent_ne].
      * pose proof (Hsa _ _ _ _ _ _ Hi Hk eq_refl).
        pose proof (Hsa _ _ _ _ _ _ Hj HSk eq_refl). lia.
      * pose proof (Hsa _ _ _ _ _ _ Hi HSk eq_refl).
        pose proof (Hsa _ _ _ _ _ _ Hj Hk eq_refl). lia.
Qed.

(** X3: on a conformation (grid and placement order that describe the same
    placements) [find_H_bonds] does not raise, and the set it returns holds
    exactly the pairs of positions of two ['H'] entries that are
    lattice-adjacent and not consecutive in the placement order. *)
Theorem H_bonds_are_non_covalent_contacts n g order :
  consistent n g order →
  ∃ bonds,
    find_H_bonds g order = Ok bonds ∧
    ∀ X, X ∈ bonds ↔
      ∃ i j p q, (S i < j)%nat ∧
        order !! i = Some ("H", p) ∧ order !! j = Some ("H", q) ∧
        adjacent p q ∧ X = frozen_pair p q.
Proof.
  intros Hc.
  destruct (find_H_bonds_square n g order (c_square _ _ _ Hc)) as [bonds Hb].
  exists bonds. split; [done|]. by apply (H_bonds_exact n g order).
Qed.

Lemma H_bonds_are_non_covalent_contacts_witness :
  ∃ g order,
    Directional.initialize_grid_directional chain_HHPPH turns_spiral
      = Ok (g, order) ∧
    consistent 10 g order ∧
    ∃ bonds,
      find_H_bonds g order = Ok bonds ∧
      ∀ X, X ∈ bonds ↔
        ∃ i j p q, (S i < j)%nat ∧
          order !! i = Some ("H", p) ∧ order !! j = Some ("H", q) ∧
          adjacent p q ∧ X = frozen_pair p q.
Proof.
  destruct (directional_spec chain_HHPPH turns_spiral)
    as (g & order & Hrun & Hw & _);
    [discriminate|solve_residues|solve_turn_sequence|].
  pose proof (w_consistent _ _ _ Hw) as Hc.
  exists g, order. split; [exact Hrun|]. split; [exact Hc|].
  exact (H_bonds_are_non_covalent_contacts 10 g order Hc).
Defined.

(** X4: in a conformation produced by a walk from the centre, every pair
    of consecutive ['H'] entries is also a pair of neighbouring ['H'] cells
    of the grid, so the number of H-bonds is the number of grid pairs minus
    the number of order pairs. *)
Theorem H_bond_count L g order :
  walk_inv L g order →
  ∃ grid_h_pairs bonds,
    find_H_pairs_grid g = Ok grid_h_pairs ∧
    find_H_bonds g order = Ok bonds ∧
    find_H_pairs_order order ⊆ grid_h_pairs ∧
    size bonds = (size grid_h_pairs - size (find_H_pairs_order order))%nat.
Proof.
  intros Hw. pose proof (w_consistent _ _ _ Hw) as Hc.
  pose proof (c_square _ _ _ Hc) as Hsq.
  pose proof (find_H_pairs_grid_square _ g Hsq) as Hgrid.
  eexists _, _. split; [exact Hgrid|].
  unfold find_H_bonds. rewrite Hgrid, bind_Ok. split; [done|].
  assert (Hsub : find_H_pairs_order order ⊆
    ⋃ ((λ row, ⋃ ((λ col, H_pairs_at (L * 2) g (row, col))
                    <$> seqZ 0 (Z.of_nat (L * 2))))
       <$> seqZ 0 (Z.of_nat (L * 2)))).
  { intros X (i & p & q & Hi & HSi & ->)%find_H_pairs_order_inv.
    apply (elem_of_find_H_pairs_grid _ g _ _ Hsq Hgrid).
    destruct (c_placed _ _ _ Hc "H" p) as (Hpi & _ & Hcp);
      [by eapply list_elem_of_lookup_2|].
    destruct (c_placed _ _ _ Hc "H" q) as (Hqi & _ & Hcq);
      [by eapply list_elem_of_lookup_2|].
    exists p, q. split; [done|]. split; [done|]. split; [|done].
    apply adjacent_four_neighbors. by apply (w_connected _ _ _ Hw i "H" p "H" q). }
  split; [done|]. by apply size_difference.
Qed.

Lemma H_bond_count_witness :
  ∃ g order,
    Directional.initialize_grid_directional chain_HHPPH turns_spiral
      = Ok (g, order) ∧
    walk_inv 5 g order ∧
    ∃ grid_h_pairs bonds,
      find_H_pairs_grid g = Ok grid_h_pairs ∧
      find_H_bonds g order = Ok bonds ∧
      find_H_pairs_order order ⊆ grid_h_pairs ∧
      size bonds = (size grid_h_pairs - size (find_H_pairs_order order))%nat.
Proof.
  destruct (directional_spec chain_HHPPH turns_spiral)
    as (g & order & Hrun & Hw & _);
    [discriminate|solve_residues|solve_turn_sequence|].
  exists g, order. split; [exact Hrun|]. split; [exact Hw|].
  exact (H_bond_count 5 g order Hw).
Defined.

(** ** Classifying a placement order *)

Lemma map_r_Forall2 {A B} (f : A → result B) (l : list A) (ys : list B) :
  Forall2 (λ x y, f x = Ok y) l ys → map_r f l = Ok ys.
Proof.
  induction 1 as [|x y l ys Hxy _ IH]; [done|].
  simpl. by rewrite Hxy, bind_Ok, IH, bind_Ok.
Qed.

Lemma map_r_total {A B} (f : A → result B) (P : B → Prop) (l : list A) :
  (∀ x, x ∈ l → ∃ y, f x = Ok y ∧ P y) →
  ∃ ys, map_r f l = Ok ys ∧ length ys = length l ∧ Forall P ys.
Proof.
  induction l as [|x l IH]; intros Hf.
  - by exists [].
  - destruct (Hf x) as (y & Hy & HPy); [by left|].
    destruct IH as (ys & Hys & Hlen & HP); [intros z Hz; apply Hf; by right|].
    exists (y :: ys). simpl. rewrite Hy, bind_Ok, Hys, bind_Ok.
    split; [done|]. split; [by rewrite Hlen|by constructor].
Qed.

Lemma direction_at_total order i :
  (1 ≤ i < length order)%nat →
  ∃ d, direction_at order i = Ok d ∧ relative_turn d ∧
       (i = 1%nat → d = "straight").
Proof.
  intros Hi. unfold direction_at, position_at.
  destruct (lookup_lt_is_Some_2 order i) as [[a p] ->]; [lia|].
  destruct (lookup_lt_is_Some_2 order (i - 1)) as [[b q] ->]; [lia|].
  rewrite !bind_Ok.
  change (movement_vectors "up") with (@Ok pos (-1, 0)%Z).
  change (movement_vectors "down") with (@Ok pos (1, 0)%Z).
  change (movement_vectors "left") with (@Ok pos (0, -1)%Z).
  change (movement_vectors "right") with (@Ok pos (0, 1)%Z).
  rewrite !bind_Ok.
  destruct (i =? 1)%nat eqn:Hi1.
  { eexists. split; [done|]. split; [unfold relative_turn; tauto|done]. }
  apply Nat.eqb_neq in Hi1.
  destruct (lookup_lt_is_Some_2 order (i - 2)) as [[c r] ->]; [lia|].
  rewrite bind_Ok.
  repeat match goal with
  | |- context [if ?b then _ else _] => destruct b
  end;
    (eexists; split; [reflexivity|]; split;
     [unfold relative_turn; tauto|done]).
Qed.

(** X5: [determine_directions] does not raise on any placement order.  It
    returns one entry per placement (and the single entry ['Start'] for an
    empty order); the first entry is ['Start'], the second, if any, is
    ['straight'], and every later entry is one of left, straight, right. *)
Theorem determine_directions_total order :
  ∃ directions,
    determine_directions order = Ok directions ∧
    length directions = max 1 (length order) ∧
    directions !! 0%nat = Some "Start" ∧
    ((2 ≤ length order)%nat → directions !! 1%nat = Some "straight") ∧
    Forall relative_turn (tail directions).
Proof.
  unfold determine_directions.
  destruct (map_r_total (direction_at order)
              (λ d, relative_turn d) (seq 1 (length order - 1)))
    as (ds & Hds & Hlen & Hturns).
  { intros i Hi%elem_of_seq.
    destruct (direction_at_total order i) as (d & Hd & Ht & _); [lia|].
    by exists d. }
  exists ("Start" :: ds). rewrite Hds, bind_Ok. rewrite length_seq in Hlen.
  split; [done|]. split; [simpl; lia|]. split; [done|]. split; [|done].
  intros Hlen2. destruct ds as [|d ds]; [simpl in Hlen; lia|].
  destruct (length order - 1)%nat as [|k] eqn:Hk; [lia|].
  cbn [seq map_r] in Hds.
  destruct (direction_at_total order 1) as (d1 & Hd1 & _ & Hstraight); [lia|].
  rewrite Hd1, bind_Ok in Hds.
  destruct (map_r _ _) as [ys|]; [|done]. rewrite bind_Ok in Hds.
  injection Hds as <- _. simpl. by rewrite Hstraight.
Qed.

Lemma movement_vectors_valid o v :
  movement_vectors o = Ok v → valid_orientation o.
Proof.
  unfold movement_vectors, valid_orientation.
  destruct (String.eqb_spec o "up"); [tauto|].
  destruct (String.eqb_spec o "down"); [tauto|].
  destruct (String.eqb_spec o "left"); [tauto|].
  destruct (String.eqb_spec o "right"); [tauto|done].
Qed.

Lemma relative_turn_not_start d : relative_turn d → d ≠ "Start".
Proof. by intros [-> | [-> | ->]]. Qed.

Lemma direction_at_prefix (order order' : list placement) i :
  order `prefix_of` order' → (i < length order)%nat →
  direction_at order' i = direction_at order i.
Proof.
  intros [rest ->] Hi. unfold direction_at, position_at.
  by rewrite !lookup_app_l by lia.
Qed.

(** The classification of the newest placement by [determine_directions]
    is the turn that the deterministic engine took to place it. *)
Lemma direction_at_snoc order a0 (p0 : pos) a1 (p1 : pos) a2 o d o'
    (v v' : pos) :
  order !! (length order - 2)%nat = Some (a0, p0) →
  order !! (length order - 1)%nat = Some (a1, p1) →
  (2 ≤ length order)%nat →
  movement_vectors o = Ok v → p1 = (p0.1 + v.1, p0.2 + v.2)%Z →
  relative_turn d → Directional.turn_orientation o d = Ok o' →
  movement_vectors o' = Ok v' →
  direction_at (order ++ [(a2, (p1.1 + v'.1, p1.2 + v'.2)%Z)]) (length order)
  = Ok d.
Proof.
  intros H0 H1 Hlen Hv -> Hd Hturn Hv'.
  unfold direction_at, position_at.
  rewrite (lookup_app_r order _ (length order)), Nat.sub_diag by lia.
  rewrite !lookup_app_l by lia. rewrite H0, H1.
  cbn [lookup list_lookup]. rewrite !bind_Ok.
  change (movement_vectors "up") with (@Ok pos (-1, 0)%Z).
  change (movement_vectors "down") with (@Ok pos (1, 0)%Z).
  change (movement_vectors "left") with (@Ok pos (0, -1)%Z).
  change (movement_vectors "right") with (@Ok pos (0, 1)%Z).
  rewrite !bind_Ok.
  destruct (length order =? 1)%nat eqn:Hone; [apply Nat.eqb_eq in Hone; lia|].
  destruct p0 as [r c]. cbn [fst snd].
  pose proof (movement_vectors_valid o v Hv) as Ho.
  destruct Ho as [-> | [-> | [-> | ->]]], Hd as [-> | [-> | ->]];
    injection Hv as <-; injection Hturn as <-; injection Hv' as <-;
    cbn [fst snd]; decide_vectors; reflexivity.
Qed.

Lemma walk_classified dirs :
  ∀ grid_size g copy order current o g' order' a0 (p0 : pos) a1,
  Forall relative_turn dirs → (2 ≤ length order)%nat →
  order !! (length order - 2)%nat = Some (a0, p0) →
  order !! (length order - 1)%nat = Some (a1, current) →
  movement_vectors o = Ok (current.1 - p0.1, current.2 - p0.2)%Z →
  Directional.walk dirs grid_size g copy order current o = Ok (g', order') →
  order `prefix_of` order' ∧
  (length order' ≤ length order + length dirs)%nat ∧
  ∀ k d, dirs !! k = Some d → (length order + k < length order')%nat →
         direction_at order' (length order + k) = Ok d.
Proof.
  induction dirs as [|d dirs IH];
    intros grid_size g copy order current o g' order' a0 p0 a1
      Hturns Hlen H0 H1 Hv Hrun.
  - simpl in Hrun. injection Hrun as <- <-. split; [done|].
    split; [simpl; lia|]. intros k d Hk. done.
  - apply Forall_cons in Hturns as [Hd Hturns].
    cbn [Directional.walk] in Hrun.
    destruct (String.eqb_spec d "Start") as [->|_];
      [by apply relative_turn_not_start in Hd|].
    destruct (turn_orientation_valid o d (movement_vectors_valid _ _ Hv))
      as (o' & v' & Hto & Ho' & Hv' & _).
    rewrite Hto, bind_Ok, Hv', bind_Ok in Hrun.
    destruct (free_cell _ _ _) as [[|]|]; [| |done]; rewrite bind_Ok in Hrun.
    2:{ injection Hrun as <- <-. split; [done|]. split; [simpl; lia|].
        intros k d' _ Hk. lia. }
    destruct copy as [|a copy]; [done|].
    destruct (setitem _ _ _) as [g1|]; [|done]. rewrite bind_Ok in Hrun.
    set (next := (current.1 + v'.1, current.2 + v'.2)%Z) in *.
    set (order1 := order ++ [(a, next)]) in *.
    assert (Hlen1 : length order1 = S (length order)).
    { unfold order1. rewrite length_app. simpl. lia. }
    assert (Hnew : direction_at order1 (length order) = Ok d).
    { apply (direction_at_snoc order a0 p0 a1 current a o d o'
               (current.1 - p0.1, current.2 - p0.2)%Z v'); try done.
      destruct current, p0. simpl. f_equal; lia. }
    destruct copy as [|a' copy].
    + injection Hrun as <- <-. split; [by apply prefix_app_r|].
      split; [simpl; lia|]. intros k d' Hk Hlt.
      assert (k = 0%nat) as -> by lia. injection Hk as <-.
      by rewrite Nat.add_0_r.
    + destruct (IH grid_size g1 (a' :: copy) order1 next o' g' order'
                  a1 current a Hturns) as (Hpre & Hbound & Hclass).
      { lia. }
      { rewrite Hlen1. unfold order1. rewrite lookup_app_l by lia.
        replace (S (length order) - 2)%nat with (length order - 1)%nat by lia.
        done. }
      { rewrite Hlen1. unfold order1.
        rewrite lookup_app_r by lia.
        replace (S (length order) - 1 - length order)%nat with 0%nat by lia.
        done. }
      { rewrite Hv'. unfold next. destruct current, v'. simpl.
        do 2 f_equal; lia. }
      { exact Hrun. }
      split; [etrans; [by apply prefix_app_r|exact Hpre]|].
      split; [simpl; lia|]. intros [|k] d' Hk Hlt.
      * injection Hk as <-. rewrite Nat.add_0_r.
        rewrite (direction_at_prefix order1 order') by (done || lia). done.
      * replace (length order + S k)%nat with (length order1 + k)%nat by lia.
        apply Hclass; [done|lia].
Qed.

Lemma generated_directions_turn_sequence directions :
  generated_directions directions → turn_sequence directions.
Proof.
  intros (turns & -> & Hturns). eexists. split; [done|].
  apply not_elem_of_cons. split; [done|].
  intros Hin. rewrite Forall_forall in Hturns.
  by apply Hturns, relative_turn_not_start in Hin.
Qed.

Lemma generate_random_directions_generated rng total_amino_acids :
  generated_directions
    (Directional.generate_random_directions rng total_amino_acids).
Proof.
  unfold Directional.generate_random_directions. eexists. split; [done|].
  generalize (total_amino_acids - 2)%nat as k. intros k. revert rng.
  induction k as [|k IH]; intros rng; simpl; constructor; [|apply IH].
  unfold Directional.random_turn, relative_turn.
  destruct (rng 0%nat `mod` 3)%nat as [|[|?]]; tauto.
Qed.

Lemma walk_round_trip amino_acids directions g order :
  generated_directions directions →
  Directional.initialize_grid_directional amino_acids directions
    = Ok (g, order) →
  determine_directions order = Ok (take (length order) directions).
Proof.
  intros (turns & -> & Hturns) Hrun.
  assert (Hgoal : order ≠ [] ∧
    (length order ≤ 2 + length turns)%nat ∧
    ∀ k d, turns !! k = Some d → (2 + k < length order)%nat →
           direction_at order (2 + k) = Ok d).
  { unfold Directional.initialize_grid_directional in Hrun.
    set (n := (Z.of_nat (length amino_acids) * 2)%Z) in *.
    set (c := (n `div` 2)%Z) in *.
    cbn [Directional.walk] in Hrun.
    change (String.eqb "Start" "Start") with true in Hrun. cbn iota in Hrun.
    destruct amino_acids as [|a copy]; [done|].
    destruct (setitem _ _ _) as [g1|]; [|done]. rewrite bind_Ok in Hrun.
    destruct copy as [|a' copy].
    { injection Hrun as <- <-. split; [done|]. split; [simpl; lia|].
      intros k d _ Hk. simpl in Hk. lia. }
    cbn [Directional.walk] in Hrun.
    change (String.eqb "straight" "Start") with false in Hrun.
    change (Directional.turn_orientation "right" "straight")
      with (@Ok string "right") in Hrun.
    rewrite bind_Ok in Hrun.
    change (movement_vectors "right") with (@Ok pos (0, 1)%Z) in Hrun.
    rewrite bind_Ok in Hrun. cbn [fst snd app] in Hrun.
    destruct (free_cell _ _ _) as [[|]|]; [| |done]; rewrite bind_Ok in Hrun.
    2:{ injection Hrun as <- <-. split; [done|]. split; [simpl; lia|].
        intros k d _ Hk. simpl in Hk. lia. }
    destruct (setitem _ _ _) as [g2|]; [|done]. rewrite bind_Ok in Hrun.
    destruct copy as [|a'' copy].
    { injection Hrun as <- <-. split; [done|]. split; [simpl; lia|].
      intros k d _ Hk. simpl in Hk. lia. }
    destruct (walk_classified turns n g2 (a'' :: copy)
                [(a, (c, c)); (a', (c + 0, c + 1)%Z)] (c + 0, c + 1)%Z "right"
                g order a (c, c) a' Hturns)
      as (Hpre & Hbound & Hclass); simpl; try done.
    { change (movement_vectors "right") with (@Ok pos (0, 1)%Z).
      do 2 f_equal; lia. }
    split; [|split; [simpl in Hbound; lia|exact Hclass]].
    intros ->. by apply prefix_nil_inv in Hpre. }
  destruct Hgoal as (Hne & Hbound & Hclass).
  unfold determine_directions.
  assert (Hlen : (0 < length order)%nat) by (destruct order; [done|simpl; lia]).
  rewrite (map_r_Forall2 _ _ (take (length order - 1) ("straight" :: turns))).
  { rewrite bind_Ok. f_equal.
    replace (length order) with (S (length order - 1)) at 2 by lia. done. }
  apply Forall2_same_length_lookup_2.
  { rewrite length_seq, length_take. simpl. lia. }
  intros j i d Hi Hd. apply lookup_seq in Hi as [-> Hj].
  apply lookup_take_Some in Hd as [Hd _].
  destruct j as [|j].
  - injection Hd as <-. change (1 + 0)%nat with 1%nat.
    destruct (direction_at_total order 1) as (d & -> & _ & Hs); [lia|].
    by rewrite Hs.
  - simpl in Hd. change (1 + S j)%nat with (2 + j)%nat.
    apply (Hclass j d Hd). lia.
Qed.

(** X6: what the deterministic engine places can be read back.  For a chain
    of residues and a turn sequence as [generate_random_directions] builds
    it, [determine_directions] applied to the placement order returned by
    [initialize_grid_directional] gives the turn sequence again, cut to the
    length of the order. *)
Theorem directions_round_trip amino_acids directions :
  amino_acids ≠ [] → Forall residue amino_acids →
  generated_directions directions →
  ∃ g order,
    Directional.initialize_grid_directional amino_acids directions
      = Ok (g, order) ∧
    determine_directions order = Ok (take (length order) directions).
Proof.
  intros Hne Hres Hdirs.
  destruct (directional_spec amino_acids directions Hne Hres
              (generated_directions_turn_sequence _ Hdirs))
    as (g & order & Hrun & _).
  exists g, order. split; [done|].
  by apply (walk_round_trip amino_acids directions g).
Qed.

Lemma directions_round_trip_witness :
  chain_HHPPH ≠ [] ∧ Forall residue chain_HHPPH ∧
  generated_directions turns_spiral ∧
  ∃ g order,
    Directional.initialize_grid_directional chain_HHPPH turns_spiral
      = Ok (g, order) ∧
    determine_directions order = Ok (take (length order) turns_spiral).
Proof.
  assert (H1 : chain_HHPPH ≠ []) by discriminate.
  assert (H2 : Forall residue chain_HHPPH) by solve_residues.
  assert (H3 : generated_directions turns_spiral).
  { eexists. split; [reflexivity|].
    repeat apply Forall_cons_2; unfold relative_turn; auto. }
  split; [exact H1|]. split; [exact H2|]. split; [exact H3|].
  exact (directions_round_trip chain_HHPPH turns_spiral H1 H2 H3).
Defined.

(** ** Backtracking engine (experiment 4) *)

Lemma backtracking_run depth rng amino_acids :
  amino_acids ≠ [] → Forall residue amino_acids →
  (2 * length amino_acids < depth)%nat →
  let L := length amino_acids in
  ∃ g order backtrack_count,
    Backtracking.place_amino_acid depth rng (np_full (L * 2)) amino_acids []
      0 None 0 0 0 0 = Ok (true, backtrack_count, g, order) ∧
    walk_inv L g order ∧ order ≠ [].
Proof.
  intros Hne Hres Hdepth L.
  destruct amino_acids as [|a copy] eqn:Hchain; [done|].
  apply Forall_cons in Hres as [Hres_a Hres].
  assert (HL : (0 < L)%nat) by (subst L; simpl; lia).
  destruct depth as [|depth]; [lia|].
  destruct (walk_inv_first L a HL Hres_a) as (g1 & Hset & Hw1).
  destruct (place_amino_acid_spec L depth HL rng g1 copy
              [(a, (Z.of_nat L, Z.of_nat L))] 0%nat a
              (Z.of_nat L, Z.of_nat L) 0%nat 0%nat 0%nat 0%nat Hw1)
    as (bc & g' & order' & Hrun & Hw' & Hne' & _);
    [done|done|subst L; simpl; lia|subst L; simpl in *; lia|].
  exists g', order', bc. split; [|done].
  cbn [Backtracking.place_amino_acid].
  assert (Hsize : length (np_full (L * 2)) = (L * 2)%nat)
    by apply length_replicate.
  rewrite Hsize, centre_div, Hset, bind_Ok. exact Hrun.
Qed.

(** X7: with room for [2L + 1] nested calls, [place_amino_acid] returns
    on every chain of [L] residues and for every sequence of shuffles, and
    the flag it returns is [True]: it never reports failure and never
    raises.  The placement order it leaves is a self-avoiding, connected walk
    from the centre whose residues are on the grid at their positions. *)
Theorem backtracking_terminates_with_success depth rng amino_acids :
  amino_acids ≠ [] → Forall residue amino_acids →
  (2 * length amino_acids < depth)%nat →
  let L := length amino_acids in
  ∃ g order backtrack_count,
    Backtracking.place_amino_acid depth rng (np_full (L * 2)) amino_acids []
      0 None 0 0 0 0 = Ok (true, backtrack_count, g, order) ∧
    Backtracking.initialize_grid depth rng amino_acids
      = Ok (g, order, backtrack_count) ∧
    self_avoiding order ∧ connected order ∧ on_grid g order ∧
    ∃ a, order !! 0%nat = Some (a, (Z.of_nat L, Z.of_nat L)).
Proof.
  intros Hne Hres Hdepth L.
  destruct (backtracking_run depth rng amino_acids Hne Hres Hdepth)
    as (g & order & bc & Hplace & Hw & Hne').
  exists g, order, bc. split; [done|]. split.
  { unfold Backtracking.initialize_grid. unfold L in *. by rewrite Hplace. }
  split; [eapply consistent_self_avoiding, Hw|]. split; [apply Hw|].
  split; [eapply consistent_on_grid, Hw|].
  destruct order as [|[a p] order]; [done|].
  exists a. by rewrite (w_first _ _ _ Hw a p eq_refl).
Qed.

Lemma backtracking_terminates_with_success_witness :
  chain_9 ≠ [] ∧ Forall residue chain_9 ∧ (2 * length chain_9 < 19)%nat ∧
  ∃ g order backtrack_count,
    Backtracking.place_amino_acid 19 draws_dead_end
      (np_full (length chain_9 * 2)) chain_9 [] 0 None 0 0 0 0
      = Ok (true, backtrack_count, g, order) ∧
    Backtracking.initialize_grid 19 draws_dead_end chain_9
      = Ok (g, order, backtrack_count) ∧
    self_avoiding order ∧ connected order ∧ on_grid g order ∧
    ∃ a, order !! 0%nat
         = Some (a, (Z.of_nat (length chain_9), Z.of_nat (length chain_9))).
Proof.
  assert (H1 : chain_9 ≠ []) by discriminate.
  assert (H2 : Forall residue chain_9) by solve_residues.
  assert (H3 : (2 * length chain_9 < 19)%nat) by (simpl; lia).
  split; [exact H1|]. split; [exact H2|]. split; [exact H3|].
  exact (backtracking_terminates_with_success 19 draws_dead_end chain_9
           H1 H2 H3).
Defined.

(** X8: every backtrack of [place_amino_acid] costs one residue.  The
    residues of the final placement order are a subsequence of the chain,
    and the length of the order plus the number of backtracks is the length
    of the chain; the order covers the chain only if no backtrack
    happened. *)
Theorem backtracking_residue_accounting depth rng amino_acids :
  amino_acids ≠ [] → Forall residue amino_acids →
  (2 * length amino_acids < depth)%nat →
  ∃ g order backtrack_count,
    Backtracking.initialize_grid depth rng amino_acids
      = Ok (g, order, backtrack_count) ∧
    order.*1 `sublist_of` amino_acids ∧
    (length order + backtrack_count = length amino_acids)%nat ∧
    count_nonzero g = length order ∧
    (order.*1 = amino_acids ↔ backtrack_count = 0%nat).
Proof.
  intros Hne Hres Hdepth.
  destruct (backtracking_spec depth rng amino_acids Hne Hres Hdepth)
    as (g & order & bc & _ & Hinit & Hw & Hsub & Hcount & _).
  exists g, order, bc. split; [done|]. split; [done|]. split; [done|].
  split; [apply Hw|]. split.
  - intros Heq. apply (f_equal length) in Heq. rewrite length_fmap in Heq.
    lia.
  - intros ->. apply sublist_full; [done|]. rewrite length_fmap. lia.
Qed.

Lemma backtracking_residue_accounting_witness :
  chain_9 ≠ [] ∧ Forall residue chain_9 ∧ (2 * length chain_9 < 19)%nat ∧
  ∃ g order backtrack_count,
    Backtracking.initialize_grid 19 draws_dead_end chain_9
      = Ok (g, order, backtrack_count) ∧
    order.*1 `sublist_of` chain_9 ∧
    (length order + backtrack_count = length chain_9)%nat ∧
    count_nonzero g = length order ∧
    (order.*1 = chain_9 ↔ backtrack_count = 0%nat).
Proof.
  assert (H1 : chain_9 ≠ []) by discriminate.
  assert (H2 : Forall residue chain_9) by solve_residues.
  assert (H3 : (2 * length chain_9 < 19)%nat) by (simpl; lia).
  split; [exact H1|]. split; [exact H2|]. split; [exact H3|].
  exact (backtracking_residue_accounting 19 draws_dead_end chain_9 H1 H2 H3).
Defined.

(** X9: a chain of at most 8 residues never brings [place_amino_acid] to a
    dead end: the backtrack count is 0 and the placement order holds every
    residue of the chain, in order. *)
Theorem backtracking_short_chain_complete depth rng amino_acids :
  amino_acids ≠ [] → Forall residue amino_acids →
  (length amino_acids ≤ 8)%nat → (2 * length amino_acids < depth)%nat →
  ∃ g order,
    Backtracking.initialize_grid depth rng amino_acids = Ok (g, order, 0%nat) ∧
    order.*1 = amino_acids.
Proof.
  intros Hne Hres Hsmall Hdepth.
  destruct (backtracking_spec depth rng amino_acids Hne Hres Hdepth)
    as (g & order & bc & _ & Hinit & _ & _ & _ & Hclean).
  destruct (Hclean Hsmall) as [-> Hfull]. by exists g, order.
Qed.

Lemma backtracking_short_chain_complete_witness :
  chain_HHPPH ≠ [] ∧ Forall residue chain_HHPPH ∧
  (length chain_HHPPH ≤ 8)%nat ∧ (2 * length chain_HHPPH < 11)%nat ∧
  ∃ g order,
    Backtracking.initialize_grid 11 draws_counting chain_HHPPH
      = Ok (g, order, 0%nat) ∧
    order.*1 = chain_HHPPH.
Proof.
  assert (H1 : chain_HHPPH ≠ []) by discriminate.
  assert (H2 : Forall residue chain_HHPPH) by solve_residues.
  assert (H3 : (length chain_HHPPH ≤ 8)%nat) by (simpl; lia).
  assert (H4 : (2 * length chain_HHPPH < 11)%nat) by (simpl; lia).
  split; [exact H1|]. split; [exact H2|]. split; [exact H3|].
  split; [exact H4|].
  exact (backtracking_short_chain_complete 11 draws_counting chain_HHPPH
           H1 H2 H3 H4).
Defined.

Lemma place_amino_acid_shallow L depth :
  (0 < L)%nat →
  ∀ rng g copy order bc a p wjb fl f acids,
  walk_inv L g order → last order = Some (a, p) → Forall residue copy →
  (depth ≤ length copy)%nat →
  Backtracking.place_amino_acid depth rng g copy order bc (Some p)
    wjb fl f acids = Raise RecursionError.
Proof.
  intros HL. induction depth as [|depth IH];
    intros rng g copy order bc a p wjb fl f acids Hw Hlast Hres Hdepth;
    [done|].
  pose proof (c_square _ _ _ (w_consistent _ _ _ Hw)) as Hsq.
  cbn [Backtracking.place_amino_acid].
  destruct copy as [|a' copy]; [simpl in Hdepth; lia|].
  apply Forall_cons in Hres as [Hres_a Hres]. simpl in Hdepth.
  rewrite (proj1 Hsq), (valid_neighbors_square _ _ _ Hsq), bind_Ok.
  destruct (filter _ (four_neighbors p)) as [|v valid] eqn:Hvalid.
  - apply last_Some in Hlast as [order0 Horder].
    assert (Hrl : removelast order = order0).
    { rewrite Horder. apply removelast_last. }
    rewrite Horder in Hw.
    destruct (walk_inv_unplace L g order0 a p Hw) as (g1 & Hset & Hw1).
    rewrite Hset, bind_Ok.
    destruct order as [|e order_tl]; [by destruct order0|].
    rewrite Hrl. clear Hrl.
    rewrite (consistent_no_fence _ _ _ (w_consistent _ _ _ Hw1)).
    destruct (last order0) as [[b0 prev]|] eqn:Hlast0.
    + destruct (f <? acids)%nat;
        apply (IH _ _ _ _ _ b0); try done;
        (by apply Forall_cons) || (simpl; lia).
    + exfalso. apply last_None in Hlast0. subst order0. simpl in Hw.
      pose proof (w_first _ _ _ Hw a p eq_refl) as ->.
      by apply (centre_not_trapped L g a HL Hw).
  - destruct (shuffled_first_cons (rng 0%nat) v valid) as (chosen & Hpick & Hin).
    rewrite Hpick, bind_Ok. rewrite <- Hvalid in Hin.
    apply list_elem_of_filter in Hin as [[Hinside Hempty] Hnb].
    destruct (walk_inv_extend L g order a' chosen a p Hw Hlast Hnb Hinside
                Hempty Hres_a) as (g1 & Hset & Hw1).
    rewrite Hset, bind_Ok.
    apply (IH _ _ _ _ _ a'); [done|apply last_snoc|done|lia].
Qed.

(** X10: [place_amino_acid] makes one nested call per residue it places and
    one more to return, so with room for only [L] nested calls or fewer a
    chain of [L] residues ends in RecursionError, whatever the shuffles. *)
Theorem backtracking_needs_depth depth rng amino_acids :
  amino_acids ≠ [] → Forall residue amino_acids →
  (depth ≤ length amino_acids)%nat →
  Backtracking.initialize_grid depth rng amino_acids = Raise RecursionError.
Proof.
  intros Hne Hres Hdepth. unfold Backtracking.initialize_grid.
  destruct amino_acids as [|a copy] eqn:Hchain; [done|].
  set (L := length (a :: copy)).
  apply Forall_cons in Hres as [Hres_a Hres].
  assert (HL : (0 < L)%nat) by (subst L; simpl; lia).
  destruct depth as [|depth]; [done|].
  cbn [Backtracking.place_amino_acid].
  assert (Hsize : length (np_full (L * 2)) = (L * 2)%nat)
    by apply length_replicate.
  destruct (walk_inv_first L a HL Hres_a) as (g1 & Hset & Hw1).
  rewrite Hsize, centre_div, Hset, bind_Ok.
  rewrite (place_amino_acid_shallow L depth HL _ _ _ _ _ a _ _ _ _ _ Hw1);
    [done|done|done|subst L; simpl in *; lia].
Qed.

Lemma backtracking_needs_depth_witness :
  chain_HHPPH ≠ [] ∧ Forall residue chain_HHPPH ∧
  (5 ≤ length chain_HHPPH)%nat ∧
  Backtracking.initialize_grid 5 draws_counting chain_HHPPH
  = Raise RecursionError.
Proof.
  assert (H1 : chain_HHPPH ≠ []) by discriminate.
  assert (H2 : Forall residue chain_HHPPH) by solve_residues.
  assert (H3 : (5 ≤ length chain_HHPPH)%nat) by (simpl; lia).
  split; [exact H1|]. split; [exact H2|]. split; [exact H3|].
  exact (backtracking_needs_depth 5 draws_counting chain_HHPPH H1 H2 H3).
Defined.

(** ** Stochastic engine (experiment 1) *)

(** X11: the stochastic engine cannot break on a chain of at most 8
    residues: whatever the shuffles, the placement order holds every residue
    of the chain, in order. *)
Theorem stochastic_short_chain_complete rng amino_acids :
  amino_acids ≠ [] → Forall residue amino_acids →
  (length amino_acids ≤ 8)%nat →
  ∃ g order,
    Stochastic.initialize_grid rng amino_acids = Ok (g, order) ∧
    order.*1 = amino_acids.
Proof.
  intros Hne Hres Hsmall.
  destruct (stochastic_spec rng amino_acids Hne Hres)
    as (g & order & Hrun & Hw & Hpre & Hlen & Hdead).
  exists g, order. split; [done|].
  apply prefix_length_eq; [done|]. rewrite length_fmap.
  destruct (decide (length order < length amino_acids)%nat) as [Hshort|]; [|lia].
  exfalso. destruct (Hdead Hshort) as (a & p & Hlast & Hvalid).
  rewrite (valid_neighbors_square _ _ _
             (c_square _ _ _ (w_consistent _ _ _ Hw))) in Hvalid.
  injection Hvalid as Hvalid.
  apply (not_trapped _ g order a p Hw Hlast); [lia|done|done].
Qed.

Lemma stochastic_short_chain_complete_witness :
  chain_HHPPH ≠ [] ∧ Forall residue chain_HHPPH ∧
  (length chain_HHPPH ≤ 8)%nat ∧
  ∃ g order,
    Stochastic.initialize_grid draws_counting chain_HHPPH = Ok (g, order) ∧
    order.*1 = chain_HHPPH.
Proof.
  assert (H1 : chain_HHPPH ≠ []) by discriminate.
  assert (H2 : Forall residue chain_HHPPH) by solve_residues.
  assert (H3 : (length chain_HHPPH ≤ 8)%nat) by (simpl; lia).
  split; [exact H1|]. split; [exact H2|]. split; [exact H3|].
  exact (stochastic_short_chain_complete draws_counting chain_HHPPH H1 H2 H3).
Defined.

(** ** Helpers of the heuristic variant (experiment 4) *)

(** X12: [determine_direction] names the move between two cells: it returns
    a direction exactly when the second cell is a lattice neighbour of the
    first, the direction it returns is the key of [movement_vectors] that
    holds the move, and every key is found from its vector. *)
Theorem determine_direction_names_move (prev current : pos) :
  (∀ d, determine_direction prev current = Some d ↔
        movement_vectors d
        = Ok (current.1 - prev.1, current.2 - prev.2)%Z) ∧
  (is_Some (determine_direction prev current) ↔ adjacent current prev) ∧
  (determine_direction prev current = None ↔ ¬ adjacent current prev).
Proof.
  destruct prev as [r c], current as [r' c']. cbn [fst snd].
  assert (Hfind : ∀ d, determine_direction (r, c) (r', c') = Some d ↔
            movement_vectors d = Ok (r' - r, c' - c)%Z).
  { intros d. unfold determine_direction, movement_vector_items.
    cbn [find fst snd]. split.
    - unfold pos_eqb. repeat case_bool_decide; simpl; try done;
        intros [= <-];
        match goal with H : (_, _) = _ |- _ => rewrite H; reflexivity end.
    - intros Hv. pose proof (movement_vectors_valid d _ Hv) as Hd.
      destruct Hd as [-> | [-> | [-> | ->]]]; injection Hv as Hr Hc;
        rewrite <- Hr, <- Hc; reflexivity. }
  assert (Hadj : is_Some (determine_direction (r, c) (r', c')) ↔
                 adjacent (r', c') (r, c)).
  { unfold adjacent. cbn [fst snd]. split.
    - intros [d Hd]. apply Hfind in Hd.
      pose proof (movement_vectors_valid d _ Hd) as Hvalid.
      destruct Hvalid as [-> | [-> | [-> | ->]]]; injection Hd as Hr Hc; lia.
    - intros Hadj.
      assert (Hcases : ((r' - r = -1 ∧ c' - c = 0) ∨ (r' - r = 1 ∧ c' - c = 0)
                ∨ (r' - r = 0 ∧ c' - c = -1) ∨ (r' - r = 0 ∧ c' - c = 1))%Z)
        by lia.
      destruct Hcases as [[Hr Hc] | [[Hr Hc] | [[Hr Hc] | [Hr Hc]]]].
      + exists "up". apply Hfind. by rewrite Hr, Hc.
      + exists "down". apply Hfind. by rewrite Hr, Hc.
      + exists "left". apply Hfind. by rewrite Hr, Hc.
      + exists "right". apply Hfind. by rewrite Hr, Hc. }
  split; [exact Hfind|]. split; [exact Hadj|].
  rewrite <- Hadj. rewrite <- not_eq_None_Some. split; [by intros ->; intros []|].
  intros Hnone. destruct (determine_direction _ _); [|done].
  exfalso. by apply Hnone.
Qed.

(** X13: for a heading [d] of the walk, [get_deterministic_neighbors] lists
    the three neighbours of the last cell other than the cell the walk came
    from, each once: the walk is never offered a step back.  A
    direction that is none of down, up, left is treated as right. *)
Theorem deterministic_neighbors_exclude_back (last : pos) d (v : pos) :
  movement_vectors d = Ok v →
  let back := (last.1 - v.1, last.2 - v.2)%Z in
  NoDup (get_deterministic_neighbors last d) ∧
  (∀ q, q ∈ get_deterministic_neighbors last d ↔
        q ∈ four_neighbors last ∧ q ≠ back) ∧
  get_deterministic_neighbors last d !! 1%nat
  = Some (last.1 + v.1, last.2 + v.2)%Z ∧
  (∀ d', d' ≠ "down" → d' ≠ "up" → d' ≠ "left" →
         get_deterministic_neighbors last d'
         = get_deterministic_neighbors last "right").
Proof.
  intros Hv back. destruct last as [r c]. subst back.
  pose proof (movement_vectors_valid d v Hv) as Hd.
  split; [|split; [|split]].
  - destruct Hd as [-> | [-> | [-> | ->]]]; cbn;
      rewrite !NoDup_cons, !elem_of_cons, !elem_of_nil, !pair_eq;
      (repeat split; [lia..|apply NoDup_nil_2]).
  - intros [qr qc].
    destruct Hd as [-> | [-> | [-> | ->]]]; injection Hv as <-;
      unfold four_neighbors; cbn;
      rewrite !elem_of_cons, !elem_of_nil, !pair_eq; lia.
  - destruct Hd as [-> | [-> | [-> | ->]]]; injection Hv as <-; cbn;
      f_equal; f_equal; lia.
  - intros d' H1 H2 H3. unfold get_deterministic_neighbors.
    destruct (String.eqb_spec d' "down"); [done|].
    destruct (String.eqb_spec d' "up"); [done|].
    destruct (String.eqb_spec d' "left"); done.
Qed.

Lemma deterministic_neighbors_exclude_back_witness :
  movement_vectors "up" = Ok (-1, 0)%Z ∧
  let back := ((5, 5).1 - (-1, 0).1, (5, 5).2 - (-1, 0).2)%Z in
  NoDup (get_deterministic_neighbors (5, 5)%Z "up") ∧
  (∀ q, q ∈ get_deterministic_neighbors (5, 5)%Z "up" ↔
        q ∈ four_neighbors (5, 5)%Z ∧ q ≠ back) ∧
  get_deterministic_neighbors (5, 5)%Z "up" !! 1%nat
  = Some ((5, 5).1 + (-1, 0).1, (5, 5).2 + (-1, 0).2)%Z ∧
  (∀ d', d' ≠ "down" → d' ≠ "up" → d' ≠ "left" →
         get_deterministic_neighbors (5, 5)%Z d'
         = get_deterministic_neighbors (5, 5)%Z "right").
Proof.
  assert (H1 : movement_vectors "up" = Ok (-1, 0)%Z) by reflexivity.
  split; [exact H1|].
  exact (deterministic_neighbors_exclude_back (5, 5)%Z "up" (-1, 0)%Z H1).
Defined.

(** X14: the three cells of [get_deterministic_neighbors] are, in this
    order, the cells that the direction model calls a left turn, no turn and
    a right turn: the first and the third are reached with the orientations
    that [get_new_orientation] gives for ['left'] and ['right'], and
    [determine_directions] classifies a step from the last cell onto them as
    left, straight and right. *)
Theorem deterministic_neighbors_are_the_turns (last : pos) d (v : pos)
    (a0 a1 a2 : string) :
  movement_vectors d = Ok v →
  let prev := (last.1 - v.1, last.2 - v.2)%Z in
  ∀ k T q,
    ["left"; "straight"; "right"] !! k = Some T →
    get_deterministic_neighbors last d !! k = Some q →
    (∃ d' v', Directional.turn_orientation d T = Ok d' ∧
              movement_vectors d' = Ok v' ∧
              q = (last.1 + v'.1, last.2 + v'.2)%Z) ∧
    determine_directions [(a0, prev); (a1, last); (a2, q)]
    = Ok ["Start"; "straight"; T].
Proof.
  intros Hv prev k T q HT Hq. destruct last as [r c]. subst prev.
  pose proof (movement_vectors_valid d v Hv) as Hd.
  destruct Hd as [-> | [-> | [-> | ->]]]; injection Hv as <-;
    destruct k as [|[|[|k]]]; try done;
    injection HT as <-; injection Hq as <-;
    (split;
     [eexists _, _; split; [reflexivity|]; split; [reflexivity|];
      cbn [fst snd]; f_equal; lia
     |unfold determine_directions, direction_at; simpl;
      decide_vectors; reflexivity]).
Qed.

Lemma deterministic_neighbors_are_the_turns_witness :
  movement_vectors "left" = Ok (0, -1)%Z ∧
  let prev := ((5, 5).1 - (0, -1).1, (5, 5).2 - (0, -1).2)%Z in
  ∀ k T q,
    ["left"; "straight"; "right"] !! k = Some T →
    get_deterministic_neighbors (5, 5)%Z "left" !! k = Some q →
    (∃ d' v', Directional.turn_orientation "left" T = Ok d' ∧
              movement_vectors d' = Ok v' ∧
              q = ((5, 5).1 + v'.1, (5, 5).2 + v'.2)%Z) ∧
    determine_directions [("H", prev); ("P", (5, 5)%Z); ("H", q)]
    = Ok ["Start"; "straight"; T].
Proof.
  assert (H1 : movement_vectors "left" = Ok (0, -1)%Z) by reflexivity.
  split; [exact H1|].
  exact (deterministic_neighbors_are_the_turns (5, 5)%Z "left" (0, -1)%Z
           "H" "P" "H" H1).
Defined.

(** ** Bounding box of a conformation *)

Section mask.
Context {A : Type}.
Implicit Types (flags : list bool) (l : list A).

Lemma mask_nil_r flags : mask flags (@nil A) = [].
Proof. by destruct flags. Qed.

Lemma mask_length flags l :
  length flags = length l → length (mask flags l) = count_true flags.
Proof.
  revert l. induction flags as [|b flags IH]; intros [|x l] Hlen;
    simplify_eq/=; [done|].
  destruct b; simpl; rewrite IH; done.
Qed.

Lemma count_true_le flags : (count_true flags ≤ length flags)%nat.
Proof.
  induction flags as [|[] flags IH]; unfold count_true in *; simpl; lia.
Qed.

Lemma elem_of_mask flags l x : x ∈ mask flags l → x ∈ l.
Proof.
  revert l. induction flags as [|b flags IH]; intros [|y l]; simpl;
    try (by intros ?%elem_of_nil).
  destruct b; rewrite ?elem_of_cons; intros H; [destruct H as [H|H]|];
    auto.
Qed.

Lemma mask_Forall (P : A → Prop) flags l :
  Forall P l → Forall P (mask flags l).
Proof.
  rewrite !Forall_forall. intros HP x Hx. by eapply HP, elem_of_mask.
Qed.

Lemma mask_all_true flags l :
  Forall (λ b, b = true) flags → length flags = length l → mask flags l = l.
Proof.
  intros Hall. revert l.
  induction Hall as [|b flags -> _ IH]; intros [|x l] Hlen; simplify_eq/=;
    [done|].
  by rewrite IH.
Qed.

Lemma mask_replicate flags m (x : A) :
  length flags = m → mask flags (replicate m x) = replicate (count_true flags) x.
Proof.
  intros <-. induction flags as [|[] flags IH]; simpl; [done|..];
    by rewrite IH.
Qed.

Lemma mask_flagged (p : A → bool) l x :
  x ∈ mask (map p l) l → p x = true.
Proof.
  induction l as [|y l IH]; simpl; [by intros ?%elem_of_nil|].
  destruct (p y) eqn:Hp; rewrite ?elem_of_cons; intros H;
    [destruct H as [->|H]|]; auto.
Qed.

Lemma sum_list_with_mask (w : A → nat) flags l :
  Forall2 (λ b x, b = false → w x = 0%nat) flags l →
  sum_list_with w (mask flags l) = sum_list_with w l.
Proof.
  induction 1 as [|b x flags l Hb _ IH]; simpl; [done|].
  destruct b; simpl; rewrite IH; [done|]. rewrite Hb; done.
Qed.

Lemma filter_mask (P : A → Prop) `{!∀ x, Decision (P x)} flags l :
  Forall2 (λ b x, b = false → ¬ P x) flags l →
  filter P (mask flags l) = filter P l.
Proof.
  induction 1 as [|b x flags l Hb _ IH]; simpl; [done|].
  destruct b.
  - rewrite !filter_cons, IH. done.
  - rewrite filter_cons, IH. destruct (decide (P x)); [|done].
    by destruct Hb.
Qed.
End mask.

Lemma mask_map {A B} (f : A → B) flags (l : list A) :
  mask flags (map f l) = map f (mask flags l).
Proof.
  revert l. induction flags as [|b flags IH]; intros [|x l]; simpl;
    try done.
  destruct b; simpl; by rewrite IH.
Qed.

Lemma mask_self_true flags : Forall (λ b, b = true) (mask flags flags).
Proof.
  induction flags as [|[] flags IH]; simpl; [constructor| |done].
  by constructor.
Qed.

Lemma mask_zip_with_orb flags a b :
  mask flags (zip_with orb a b) = zip_with orb (mask flags a) (mask flags b).
Proof.
  revert a b. induction flags as [|f flags IH]; intros [|x a] [|y b];
    simpl; try done.
  - destruct f; simpl; [done|by rewrite zip_with_nil_r].
  - destruct f; simpl; by rewrite IH.
Qed.

Lemma any_false row : foldr orb false row = false → Forall (λ c, c = false) row.
Proof.
  induction row as [|c row IH]; simpl; [constructor|].
  intros [-> Hrow]%orb_false_iff. constructor; auto.
Qed.

Lemma zip_with_orb_false row acc :
  Forall (λ c, c = false) row → length row = length acc →
  zip_with orb row acc = acc.
Proof.
  intros Hrow. revert acc.
  induction Hrow as [|c row -> _ IH]; intros [|x acc] Hlen; simplify_eq/=;
    [done|].
  by rewrite IH.
Qed.

Lemma logical_or_reduce_length m a :
  rectangular m a → length (logical_or_reduce m a) = m.
Proof.
  unfold rectangular, logical_or_reduce.
  induction 1 as [|row a Hrow _ IH]; simpl; [by rewrite length_replicate|].
  rewrite length_zip_with, IH, Hrow. lia.
Qed.

(** A column flag is set as soon as one row has a flag in that column. *)
Lemma logical_or_reduce_covers m a row :
  rectangular m a → row ∈ a →
  Forall2 (λ b c, c = true → b = true) (logical_or_reduce m a) row.
Proof.
  intros Hrect Hin.
  induction a as [|r a IH]; [by apply elem_of_nil in Hin|].
  assert (Hr : length r = m) by by inversion Hrect.
  assert (Hrect_a : rectangular m a) by by inversion Hrect.
  assert (Hacc : length (logical_or_reduce m a) = m)
    by by apply logical_or_reduce_length.
  assert (Hzip : ∀ r' acc, length r' = length acc →
            Forall2 (λ b c, c = true → b = true) (zip_with orb r' acc) r' ∧
            ∀ row', Forall2 (λ b c, c = true → b = true) acc row' →
                    Forall2 (λ b c, c = true → b = true)
                      (zip_with orb r' acc) row').
  { clear. induction r' as [|c r' IH]; intros [|x acc] Hlen; simplify_eq/=.
    - split; [constructor|]. by intros row' H.
    - destruct (IH acc Hlen) as [IH1 IH2]. split.
      + constructor; [by intros ->|done].
      + intros row' H. inversion H as [|? c' ? row'' Hx Hrest]; subst.
        constructor; [|by apply IH2].
        intros Hc. rewrite (Hx Hc). apply orb_true_r. }
  change (logical_or_reduce m (r :: a))
    with (zip_with orb r (logical_or_reduce m a)).
  destruct (Hzip r (logical_or_reduce m a)) as [Hz1 Hz2];
    [by rewrite Hacc|].
  apply elem_of_cons in Hin as [-> | Hin]; [exact Hz1|].
  apply Hz2. by apply IH.
Qed.

(** Rows without a flag do not contribute to the column flags. *)
Lemma logical_or_reduce_mask_rows m a :
  rectangular m a →
  logical_or_reduce m (mask (any_axis1 a) a) = logical_or_reduce m a.
Proof.
  unfold rectangular.
  induction 1 as [|row a Hrow Ha IH]; simpl; [done|].
  fold (rectangular m a) in Ha.
  destruct (foldr orb false row) eqn:Hany; simpl.
  - unfold logical_or_reduce in *. simpl. by rewrite IH.
  - rewrite IH. unfold logical_or_reduce at 2. simpl.
    fold (logical_or_reduce m a).
    rewrite zip_with_orb_false; [done|by apply any_false|].
    by rewrite logical_or_reduce_length.
Qed.

Lemma logical_or_reduce_mask_columns m flags a :
  length flags = m →
  logical_or_reduce (count_true flags) (map (mask flags) a)
  = mask flags (logical_or_reduce m a).
Proof.
  intros Hlen. unfold logical_or_reduce.
  induction a as [|row a IH]; simpl.
  - by rewrite mask_replicate.
  - by rewrite IH, mask_zip_with_orb.
Qed.

Lemma not_empty_rectangular m g :
  rectangular m g → rectangular m (not_empty g).
Proof.
  unfold rectangular, not_empty. intros H. apply Forall_fmap.
  eapply Forall_impl; [exact H|]. intros row Hrow. simpl.
  by rewrite length_map.
Qed.

Lemma any_axis0_rectangular m a :
  rectangular m a → a ≠ [] → any_axis0 a = logical_or_reduce m a.
Proof.
  intros Hrect Hne. unfold any_axis0. destruct a as [|row a]; [done|].
  assert (Hrow : length row = m) by by inversion Hrect.
  change (default [] (head (row :: a))) with row. by rewrite Hrow.
Qed.

Lemma not_empty_mask flags g :
  not_empty (mask flags g) = mask flags (not_empty g).
Proof. unfold not_empty. by rewrite mask_map. Qed.

Lemma not_empty_mask_columns flags g :
  not_empty (map (mask flags) g) = map (mask flags) (not_empty g).
Proof.
  unfold not_empty. rewrite <- !list_fmap_compose.
  apply list_fmap_ext. intros _ row _. simpl. by rewrite mask_map.
Qed.

(** The column flags of a grid cover each of its rows. *)
Lemma any_axis0_covers m g row :
  rectangular m g → row ∈ g →
  Forall2 (λ b s, s ≠ "" → b = true) (any_axis0 (not_empty g)) row.
Proof.
  intros Hrect Hin.
  assert (Hne : not_empty g ≠ []).
  { destruct g; [by apply elem_of_nil in Hin|done]. }
  rewrite (any_axis0_rectangular m) by (by try apply not_empty_rectangular).
  pose proof (logical_or_reduce_covers m (not_empty g)
    (map (λ s, negb (String.eqb s "")) row)
    (not_empty_rectangular m g Hrect)) as Hcov.
  assert (Hin' : map (λ s, negb (String.eqb s "")) row ∈ not_empty g).
  { unfold not_empty. by apply list_elem_of_fmap_2. }
  specialize (Hcov Hin'). apply Forall2_fmap_r in Hcov.
  eapply Forall2_impl; [exact Hcov|]. intros b s Hb Hs. apply Hb.
  simpl. by destruct (String.eqb_spec s "").
Qed.

Lemma any_axis1_flags g :
  Forall2 (λ b row, b = false → Forall (λ s, s = "") row)
    (any_axis1 (not_empty g)) g.
Proof.
  unfold any_axis1, not_empty. rewrite <- list_fmap_compose.
  apply Forall2_fmap_l, Forall_Forall2_diag, Forall_forall.
  intros row _ Hany. simpl in Hany. apply any_false in Hany.
  apply Forall_fmap in Hany. eapply Forall_impl; [exact Hany|].
  intros s Hs. simpl in Hs. by destruct (String.eqb_spec s "").
Qed.

Lemma trim_rows_flagged g row :
  row ∈ mask (any_axis1 (not_empty g)) g →
  row ∈ g ∧ ∃ s, s ∈ row ∧ s ≠ "".
Proof.
  intros Hin. split; [by eapply elem_of_mask|].
  unfold any_axis1, not_empty in Hin. rewrite <- list_fmap_compose in Hin.
  apply (mask_flagged _ g) in Hin. simpl in Hin. clear g.
  induction row as [|s row IH]; simpl in Hin; [done|].
  apply orb_true_iff in Hin as [Hs | Hrow].
  - exists s. split; [left|]. intros ->. done.
  - destruct (IH Hrow) as (s' & Hs' & Hne). exists s'. split; [by right|done].
Qed.

Lemma trim_rectangular m g :
  rectangular m g →
  rectangular (count_true (any_axis0 (not_empty g)))
    (trim_empty_rows_and_columns g).
Proof.
  intros Hrect. unfold trim_empty_rows_and_columns, rectangular.
  apply Forall_fmap, Forall_forall. intros row Hin. simpl.
  apply elem_of_mask in Hin. apply mask_length.
  assert (Hne : not_empty g ≠ []).
  { destruct g; [by apply elem_of_nil in Hin|done]. }
  rewrite (any_axis0_rectangular m) by (by try apply not_empty_rectangular).
  rewrite logical_or_reduce_length by by apply not_empty_rectangular.
  unfold rectangular in Hrect. rewrite Forall_forall in Hrect.
  by rewrite Hrect.
Qed.

Lemma residues_mask_columns flags (G : Grid) :
  (∀ row, row ∈ G → Forall2 (λ b s, s ≠ "" → b = true) flags row) →
  residues_of (map (mask flags) G) = residues_of G.
Proof.
  unfold residues_of. induction G as [|row G IH]; intros Hcov; [done|].
  simpl. rewrite !filter_app. f_equal.
  - apply filter_mask. eapply Forall2_impl; [apply Hcov; by left|].
    intros b s Hb -> Hs. by specialize (Hb Hs).
  - apply IH. intros row' Hin. apply Hcov. by right.
Qed.

Lemma count_mask_columns flags (G : Grid) :
  (∀ row, row ∈ G → Forall2 (λ b s, s ≠ "" → b = true) flags row) →
  count_nonzero (map (mask flags) G) = count_nonzero G.
Proof.
  unfold count_nonzero. induction G as [|row G IH]; intros Hcov; [done|].
  simpl. f_equal.
  - apply sum_list_with_mask. eapply Forall2_impl; [apply Hcov; by left|].
    intros b s Hb ->. destruct (String.eqb_spec s "") as [|Hs]; [done|].
    by specialize (Hb Hs).
  - apply IH. intros row' Hin. apply Hcov. by right.
Qed.

Lemma residues_mask_rows (g : Grid) :
  residues_of (mask (any_axis1 (not_empty g)) g) = residues_of g.
Proof.
  unfold residues_of. pose proof (any_axis1_flags g) as Hflags.
  induction Hflags as [|b row flags G Hb _ IH]; simpl; [done|].
  destruct b; simpl; rewrite !filter_app, ?IH; [done|].
  rewrite (filter_none (λ s, s ≠ "") row); [done|].
  intros s Hs Hne. specialize (Hb eq_refl).
  rewrite Forall_forall in Hb. by apply Hne, Hb.
Qed.

Lemma count_mask_rows (g : Grid) :
  count_nonzero (mask (any_axis1 (not_empty g)) g) = count_nonzero g.
Proof.
  unfold count_nonzero. apply sum_list_with_mask.
  eapply Forall2_impl; [apply any_axis1_flags|].
  intros b row Hb Hf. specialize (Hb Hf).
  induction Hb as [|s row -> _ IH]; simpl; [done|]. by rewrite IH.
Qed.

(** X15: on a rectangular grid, trimming loses nothing but empty cells: read
    row by row, the residues of the trimmed grid are those of the grid, so
    [count_nonzero] is unchanged; the trimmed grid is rectangular, has one
    row for each flagged row and one column for each flagged column, and is
    no larger than the grid. *)
Theorem trim_keeps_residues m (grid : Grid) :
  rectangular m grid →
  let trimmed_grid := trim_empty_rows_and_columns grid in
  let height := count_true (any_axis1 (not_empty grid)) in
  let width := count_true (any_axis0 (not_empty grid)) in
  residues_of trimmed_grid = residues_of grid ∧
  count_nonzero trimmed_grid = count_nonzero grid ∧
  length trimmed_grid = height ∧ rectangular width trimmed_grid ∧
  (height ≤ length grid)%nat ∧ (width ≤ m)%nat.
Proof.
  intros Hrect trimmed_grid height width.
  assert (Hrows : ∀ row, row ∈ mask (any_axis1 (not_empty grid)) grid →
            Forall2 (λ b s, s ≠ "" → b = true)
              (any_axis0 (not_empty grid)) row).
  { intros row Hin. apply (any_axis0_covers m); [done|].
    by eapply elem_of_mask. }
  split; [|split; [|split; [|split; [|split]]]].
  - unfold trimmed_grid, trim_empty_rows_and_columns.
    by rewrite residues_mask_columns, residues_mask_rows.
  - unfold trimmed_grid, trim_empty_rows_and_columns.
    by rewrite count_mask_columns, count_mask_rows.
  - unfold trimmed_grid, trim_empty_rows_and_columns.
    rewrite length_map. apply mask_length.
    unfold any_axis1, not_empty. by rewrite !length_map.
  - by apply (trim_rectangular m).
  - etransitivity; [apply count_true_le|].
    unfold any_axis1, not_empty. by rewrite !length_map.
  - etransitivity; [apply count_true_le|].
    destruct grid as [|row grid]; [simpl; lia|].
    rewrite (any_axis0_rectangular m)
      by (by try apply not_empty_rectangular).
    by rewrite logical_or_reduce_length by by apply not_empty_rectangular.
Qed.

Lemma trim_keeps_residues_witness :
  rectangular 4 grid_sparse ∧
  residues_of (trim_empty_rows_and_columns grid_sparse)
  = residues_of grid_sparse ∧
  count_nonzero (trim_empty_rows_and_columns grid_sparse)
  = count_nonzero grid_sparse.
Proof.
  assert (H : rectangular 4 grid_sparse) by (repeat constructor).
  split; [exact H|].
  destruct (trim_keeps_residues 4 grid_sparse H) as (H1 & H2 & _).
  split; [exact H1|exact H2].
Defined.

Lemma covered_row_flagged flags row s :
  Forall2 (λ b s, s ≠ "" → b = true) flags row → s ∈ row → s ≠ "" →
  foldr orb false (map (λ s, negb (String.eqb s "")) (mask flags row)) = true.
Proof.
  intros Hcov Hin Hs.
  induction Hcov as [|b s' flags row Hb _ IH]; [by apply elem_of_nil in Hin|].
  apply elem_of_cons in Hin as [<- | Hin]; simpl.
  - rewrite (Hb Hs). simpl. by destruct (String.eqb_spec s "").
  - destruct b; simpl; rewrite ?IH by done; [apply orb_true_r|done].
Qed.

Lemma map_fixed {A} (f : A → A) (l : list A) :
  Forall (λ x, f x = x) l → map f l = l.
Proof. induction 1 as [|x l Hx _ IH]; simpl; [done|]. by rewrite Hx, IH. Qed.

(** X16: after trimming a rectangular grid no empty row and no empty column
    is left, so that trimming again changes nothing. *)
Theorem trim_leaves_no_empty_line m (grid : Grid) :
  rectangular m grid →
  let trimmed_grid := trim_empty_rows_and_columns grid in
  Forall (λ b, b = true) (any_axis1 (not_empty trimmed_grid)) ∧
  Forall (λ b, b = true) (any_axis0 (not_empty trimmed_grid)) ∧
  trim_empty_rows_and_columns trimmed_grid = trimmed_grid.
Proof.
  intros Hrect trimmed_grid.
  assert (Hrows : Forall (λ b, b = true) (any_axis1 (not_empty trimmed_grid))).
  { unfold any_axis1, not_empty, trimmed_grid, trim_empty_rows_and_columns.
    rewrite <- !list_fmap_compose. apply Forall_fmap, Forall_forall.
    intros row Hin. simpl.
    apply trim_rows_flagged in Hin as (Hin & s & Hs & Hne).
    apply (covered_row_flagged _ _ s); [|done..].
    by apply (any_axis0_covers m). }
  assert (Hcols : Forall (λ b, b = true) (any_axis0 (not_empty trimmed_grid))).
  { unfold trimmed_grid, trim_empty_rows_and_columns.
    rewrite not_empty_mask_columns, not_empty_mask.
    pose proof (not_empty_rectangular m grid Hrect) as HB.
    set (B := not_empty grid) in *.
    destruct (mask (any_axis1 B) B) as [|r R] eqn:HR; [constructor|].
    assert (Hr : r ∈ B).
    { apply (elem_of_mask (any_axis1 B)). rewrite HR. by left. }
    assert (HBne : B ≠ []) by (by intros HB'; rewrite HB' in Hr;
                                 apply elem_of_nil in Hr).
    assert (Hcm : any_axis0 B = logical_or_reduce m B)
      by by apply any_axis0_rectangular.
    assert (Hlen : length (any_axis0 B) = m)
      by by rewrite Hcm, logical_or_reduce_length.
    assert (Hrlen : length r = m).
    { unfold rectangular in HB. rewrite Forall_forall in HB. by apply HB. }
    unfold any_axis0 at 1.
    change (default [] (head (map (mask (any_axis0 B)) (r :: R))))
      with (mask (any_axis0 B) r).
    rewrite mask_length by by rewrite Hlen, Hrlen.
    rewrite <- HR, (logical_or_reduce_mask_columns m) by done.
    rewrite logical_or_reduce_mask_rows, <- Hcm by done.
    apply mask_self_true. }
  split; [done|]. split; [done|].
  unfold trim_empty_rows_and_columns at 1.
  rewrite (mask_all_true (any_axis1 (not_empty trimmed_grid)) trimmed_grid)
    by (by try (unfold any_axis1, not_empty; rewrite !length_map)).
  apply map_fixed, Forall_forall. intros row Hin.
  pose proof (trim_rectangular m grid Hrect) as Ht.
  fold trimmed_grid in Ht.
  assert (Htne : not_empty trimmed_grid ≠ []).
  { destruct trimmed_grid; [by apply elem_of_nil in Hin|done]. }
  apply mask_all_true; [done|].
  rewrite (any_axis0_rectangular _ _ (not_empty_rectangular _ _ Ht) Htne).
  rewrite logical_or_reduce_length by by apply not_empty_rectangular.
  unfold rectangular in Ht. rewrite Forall_forall in Ht. by rewrite Ht.
Qed.

Lemma trim_leaves_no_empty_line_witness :
  rectangular 4 grid_sparse ∧
  trim_empty_rows_and_columns (trim_empty_rows_and_columns grid_sparse)
  = trim_empty_rows_and_columns grid_sparse.
Proof.
  assert (H : rectangular 4 grid_sparse) by (repeat constructor).
  split; [exact H|].
  exact (proj2 (proj2 (trim_leaves_no_empty_line 4 grid_sparse H))).
Defined.

(** *** Dimensions of a walk *)

Lemma count_true_size flags (S : gset nat) :
  (∀ i, i ∈ S ↔ flags !! i = Some true) → size S = count_true flags.
Proof.
  revert S. induction flags as [|b flags IH] using rev_ind; intros S HS.
  - assert (S = ∅) as ->; [|by rewrite size_empty].
    apply elem_of_equiv_empty_L. intros i Hi. by apply HS in Hi.
  - unfold count_true. rewrite sum_list_with_app. simpl.
    fold (count_true flags).
    assert (Hrest : ∀ i, i ∈ S ∖ {[length flags]} ↔ flags !! i = Some true).
    { intros i. rewrite elem_of_difference, HS, elem_of_singleton. split.
      - intros [Hl Hne].
        pose proof (lookup_lt_Some _ _ _ Hl) as Hlt.
        rewrite length_app in Hlt. simpl in Hlt.
        rewrite lookup_app_l in Hl by lia. done.
      - intros Hl. pose proof (lookup_lt_Some _ _ _ Hl) as Hlt.
        split; [by rewrite lookup_app_l by lia|lia]. }
    rewrite <- (IH _ Hrest).
    assert (Hlast : (flags ++ [b]) !! length flags = Some b).
    { by rewrite lookup_app_r, Nat.sub_diag by lia. }
    destruct b.
    + assert (Hin : length flags ∈ S) by by apply HS.
      assert (Hsub : {[length flags]} ⊆ S) by by apply singleton_subseteq_l.
      rewrite (union_difference_L _ _ Hsub) at 1.
      rewrite size_union by by apply disjoint_difference_r1.
      rewrite size_singleton. lia.
    + assert (Hnin : length flags ∉ S).
      { intros Hin. apply HS in Hin. by rewrite Hlast in Hin. }
      rewrite difference_disjoint_L by by apply disjoint_singleton_r.
      lia.
Qed.

Lemma any_row_iff row :
  foldr orb false (map (λ s, negb (String.eqb s "")) row) = true ↔
  ∃ s, s ∈ row ∧ s ≠ "".
Proof.
  induction row as [|s row IH]; simpl.
  - split; [done|]. by intros (s & Hs%elem_of_nil & _).
  - rewrite orb_true_iff, IH. split.
    + intros [Hs | (s' & Hs' & Hne)].
      * exists s. split; [by left|]. by intros ->.
      * exists s'. split; [by right|done].
    + intros (s' & [-> | Hs']%elem_of_cons & Hne).
      * left. by destruct (String.eqb_spec s "").
      * right. by exists s'.
Qed.

Lemma occupied_cell n g order i j :
  consistent n g order →
  (∃ row s, g !! i = Some row ∧ row !! j = Some s ∧ s ≠ "") ↔
  (Z.of_nat i, Z.of_nat j) ∈ order.*2.
Proof.
  intros Hc. split.
  - intros (row & s & Hrow & Hs & Hne).
    pose proof (c_square _ _ _ Hc) as Hsq.
    pose proof (square_row _ _ _ _ Hsq Hrow) as Hlen.
    pose proof (lookup_lt_Some _ _ _ Hrow) as Hi.
    pose proof (lookup_lt_Some _ _ _ Hs) as Hj.
    destruct Hsq as [Hn _].
    assert (Hins : inside n (Z.of_nat i, Z.of_nat j)).
    { unfold inside. simpl. lia. }
    destruct (decide ((Z.of_nat i, Z.of_nat j) ∈ order.*2)) as [|Hnin];
      [done|].
    pose proof (c_empty _ _ _ Hc _ Hins Hnin) as Hcell.
    unfold cell in Hcell. simpl in Hcell. rewrite !Nat2Z.id in Hcell.
    rewrite Hrow in Hcell. simpl in Hcell. rewrite Hs in Hcell.
    simpl in Hcell. done.
  - intros Hin. apply list_elem_of_fmap in Hin as ([a p] & Hp & Hin).
    simpl in Hp. subst p.
    destruct (c_placed _ _ _ Hc _ _ Hin) as (_ & Hres & Hcell).
    apply residue_nonempty in Hres.
    unfold cell in Hcell. simpl in Hcell. rewrite !Nat2Z.id in Hcell.
    destruct (g !! i) as [row|]; simpl in Hcell; [|congruence].
    destruct (row !! j) as [s|] eqn:Hs; simpl in Hcell; [|congruence].
    exists row, s. split; [done|]. split; [done|]. congruence.
Qed.

Lemma placed_indices n g order (e : placement) :
  consistent n g order → e ∈ order →
  e.2 = (Z.of_nat (Z.to_nat e.2.1), Z.of_nat (Z.to_nat e.2.2)).
Proof.
  intros Hc Hin. destruct e as [a [r c]].
  destruct (c_placed _ _ _ Hc _ _ Hin) as ([Hr Hcol] & _). simpl in *.
  f_equal; lia.
Qed.

Lemma rows_flagged n g order i :
  consistent n g order →
  i ∈ rows_of order ↔ any_axis1 (not_empty g) !! i = Some true.
Proof.
  intros Hc. unfold rows_of, any_axis1, not_empty.
  rewrite elem_of_list_to_set, list_elem_of_fmap.
  rewrite <- list_fmap_compose, list_lookup_fmap, fmap_Some. split.
  - intros (e & -> & Hin).
    assert (Hocc : e.2 ∈ order.*2) by (apply list_elem_of_fmap; eauto).
    rewrite (placed_indices _ _ _ _ Hc Hin) in Hocc.
    apply (occupied_cell _ _ _ _ _ Hc) in Hocc
      as (row & s & Hrow & Hs & Hne).
    exists row. split; [done|]. simpl. symmetry. apply any_row_iff.
    exists s. split; [|done]. by eapply list_elem_of_lookup_2.
  - intros (row & Hrow & Hany). simpl in Hany. symmetry in Hany.
    apply any_row_iff in Hany as (s & Hs & Hne).
    apply list_elem_of_lookup_1 in Hs as [j Hs].
    assert (Hocc : (Z.of_nat i, Z.of_nat j) ∈ order.*2).
    { apply (occupied_cell _ _ _ _ _ Hc). eauto. }
    apply list_elem_of_fmap in Hocc as (e & He & Hin).
    exists e. split; [|done]. rewrite <- He. simpl. lia.
Qed.

Lemma logical_or_reduce_lookup m a j :
  rectangular m a →
  logical_or_reduce m a !! j = Some true ↔
  ∃ row, row ∈ a ∧ row !! j = Some true.
Proof.
  intros Hrect. split.
  - induction a as [|r a IH].
    + unfold logical_or_reduce. simpl. intros H.
      apply lookup_replicate in H as [? _]. done.
    + assert (Hrect_a : rectangular m a) by by inversion Hrect.
      change (logical_or_reduce m (r :: a))
        with (zip_with orb r (logical_or_reduce m a)).
      intros (x & y & Hxy & Hx & Hy)%lookup_zip_with_Some.
      destruct x.
      * exists r. split; [by left|done].
      * simpl in Hxy. subst y. destruct (IH Hrect_a Hy) as (row & Hin & Hrow).
        exists row. split; [by right|done].
  - intros (row & Hin & Hrow).
    pose proof (logical_or_reduce_covers m a row Hrect Hin) as Hcov.
    destruct (Forall2_lookup_r _ _ _ _ _ Hcov Hrow) as (b & Hb & Himp).
    by rewrite Hb, Himp.
Qed.

Lemma columns_flagged n g order j :
  consistent n g order →
  j ∈ columns_of order ↔ any_axis0 (not_empty g) !! j = Some true.
Proof.
  intros Hc. pose proof (c_square _ _ _ Hc) as Hsq.
  assert (Hrect : rectangular n (not_empty g)).
  { apply not_empty_rectangular. by destruct Hsq. }
  unfold columns_of. rewrite elem_of_list_to_set, list_elem_of_fmap.
  destruct (decide (g = [])) as [-> | Hne].
  { split; [|done]. intros (e & _ & Hin).
    assert (Hocc : e.2 ∈ order.*2) by (apply list_elem_of_fmap; eauto).
    rewrite (placed_indices _ _ _ _ Hc Hin) in Hocc.
    apply (occupied_cell _ _ _ _ _ Hc) in Hocc as (row & s & Hrow & _).
    done. }
  rewrite (any_axis0_rectangular n) by (by try destruct g).
  rewrite logical_or_reduce_lookup by done. split.
  - intros (e & -> & Hin).
    assert (Hocc : e.2 ∈ order.*2) by (apply list_elem_of_fmap; eauto).
    rewrite (placed_indices _ _ _ _ Hc Hin) in Hocc.
    apply (occupied_cell _ _ _ _ _ Hc) in Hocc
      as (row & s & Hrow & Hs & Hnes).
    exists (map (λ s, negb (String.eqb s "")) row). split.
    + unfold not_empty. apply list_elem_of_fmap_2.
      by eapply list_elem_of_lookup_2.
    + rewrite list_lookup_fmap, Hs. simpl.
      by destruct (String.eqb_spec s "").
  - intros (brow & Hin & Hb). unfold not_empty in Hin.
    apply list_elem_of_fmap in Hin as (row & -> & Hin).
    apply list_elem_of_lookup_1 in Hin as [i Hrow].
    rewrite list_lookup_fmap in Hb. apply fmap_Some in Hb as (s & Hs & Hb).
    assert (Hocc : (Z.of_nat i, Z.of_nat j) ∈ order.*2).
    { apply (occupied_cell _ _ _ _ _ Hc). exists row, s.
      split; [done|]. split; [done|]. intros ->. done. }
    apply list_elem_of_fmap in Hocc as (e & He & Hin).
    exists e. split; [|done]. rewrite <- He. simpl. lia.
Qed.

Lemma size_insert_le (x : nat) (X : gset nat) :
  (size ({[x]} ∪ X) ≤ S (size X))%nat.
Proof.
  rewrite size_union_alt, size_singleton.
  assert (Hle : (size (X ∖ {[x]}) ≤ size X)%nat).
  { apply subseteq_size. intros y Hy. by apply elem_of_difference in Hy as []. }
  lia.
Qed.

Lemma connected_tail e order : connected (e :: order) → connected order.
Proof.
  intros Hc i a p b q Hi Hj. exact (Hc (S i) a p b q Hi Hj).
Qed.

Lemma rows_of_cons a p order :
  rows_of ((a, p) :: order) = {[Z.to_nat p.1]} ∪ rows_of order.
Proof. done. Qed.

Lemma columns_of_cons a p order :
  columns_of ((a, p) :: order) = {[Z.to_nat p.2]} ∪ columns_of order.
Proof. done. Qed.

(** Each step of a connected walk stays in the row or in the column of the
    cell before it, so that it opens at most one new row or column. *)
Lemma rows_columns_bound order :
  connected order →
  (size (rows_of order) + size (columns_of order) ≤ length order + 1)%nat.
Proof.
  induction order as [|[a p] order IH]; intros Hc.
  - change (rows_of []) with (∅ : gset nat).
    change (columns_of []) with (∅ : gset nat). rewrite !size_empty. lia.
  - specialize (IH (connected_tail _ _ Hc)).
    rewrite rows_of_cons, columns_of_cons.
    destruct order as [|[b q] order].
    + change (rows_of []) with (∅ : gset nat).
      change (columns_of []) with (∅ : gset nat).
      rewrite !union_empty_r_L, !size_singleton. simpl. lia.
    + assert (Hadj : adjacent q p) by exact (Hc 0%nat a p b q eq_refl eq_refl).
      unfold adjacent in Hadj.
      assert (Hcases : p.1 = q.1 ∨ p.2 = q.2) by lia.
      rewrite rows_of_cons, columns_of_cons in *. simpl length in *.
      destruct Hcases as [-> | ->].
      * rewrite (subseteq_union_1_L {[Z.to_nat q.1]})
          by apply union_subseteq_l.
        pose proof (size_insert_le (Z.to_nat p.2)
                      ({[Z.to_nat q.2]} ∪ columns_of order)). lia.
      * rewrite (subseteq_union_1_L {[Z.to_nat q.2]})
          by apply union_subseteq_l.
        pose proof (size_insert_le (Z.to_nat p.1)
                      ({[Z.to_nat q.1]} ∪ rows_of order)). lia.
Qed.

Lemma count_nonzero_area w (g : Grid) :
  rectangular w g → (count_nonzero g ≤ length g * w)%nat.
Proof.
  unfold count_nonzero.
  induction 1 as [|row g Hrow _ IH]; simpl; [lia|].
  assert (Hle : (sum_list_with (λ s, if String.eqb s "" then 0 else 1)%nat row
                 ≤ length row)%nat).
  { clear. induction row as [|s row IH]; simpl; [lia|].
    destruct (String.eqb s ""); lia. }
  lia.
Qed.

(** X17: the dimensions recorded for a conformation.  For the grid and the
    placement order of a connected walk with at least one residue, the shape
    of the trimmed grid is the number of rows times the number of columns
    that the walk touches; both are at least one, their sum is at most the
    number of placed residues plus one, and the bounding box is large
    enough to hold the residues. *)
Theorem walk_dimensions L (grid : Grid) (order : list placement) :
  walk_inv L grid order → order ≠ [] →
  ∃ height width : nat,
    grid_shape (trim_empty_rows_and_columns grid)
    = (Z.of_nat height, Z.of_nat width) ∧
    height = size (rows_of order) ∧ width = size (columns_of order) ∧
    (1 ≤ height)%nat ∧ (1 ≤ width)%nat ∧
    (height + width ≤ length order + 1)%nat ∧
    (length order ≤ height * width)%nat.
Proof.
  intros Hw Hne. pose proof (w_consistent _ _ _ Hw) as Hc.
  pose proof (c_square _ _ _ Hc) as [Hlen Hrect].
  fold (rectangular (L * 2) grid) in Hrect.
  destruct (trim_keeps_residues (L * 2) grid Hrect)
    as (_ & Hcount & Hheight & Hrt & _).
  pose proof (count_true_size _ _ (λ i, rows_flagged _ _ _ i Hc)) as Hrows.
  pose proof (count_true_size _ _ (λ j, columns_flagged _ _ _ j Hc)) as Hcols.
  rewrite <- Hrows in Hheight. rewrite <- Hcols in Hrt.
  destruct order as [|[a p] order'] eqn:Horder; [done|]. rewrite <- Horder in *.
  assert (Hrow1 : (1 ≤ size (rows_of order))%nat).
  { assert (Z.to_nat p.1 ∈ rows_of order) as Hin.
    { rewrite Horder, rows_of_cons.
      by apply elem_of_union_l, elem_of_singleton. }
    destruct (size (rows_of order)) eqn:Hsz; [|lia].
    apply size_empty_iff in Hsz.
    exfalso. exact (proj1 (elem_of_equiv_empty _) Hsz _ Hin). }
  assert (Hcol1 : (1 ≤ size (columns_of order))%nat).
  { assert (Z.to_nat p.2 ∈ columns_of order) as Hin.
    { rewrite Horder, columns_of_cons.
      by apply elem_of_union_l, elem_of_singleton. }
    destruct (size (columns_of order)) eqn:Hsz; [|lia].
    apply size_empty_iff in Hsz.
    exfalso. exact (proj1 (elem_of_equiv_empty _) Hsz _ Hin). }
  exists (size (rows_of order)), (size (columns_of order)).
  split; [|split; [done|]; split; [done|]; split; [done|];
           split; [done|]; split].
  - unfold grid_shape. rewrite Hheight. f_equal. f_equal.
    destruct (trim_empty_rows_and_columns grid) as [|row t] eqn:Ht.
    + simpl in Hheight. lia.
    + simpl. by inversion Hrt.
  - by apply rows_columns_bound, w_connected with L grid.
  - rewrite <- (c_count _ _ _ Hc), <- Hcount, <- Hheight.
    by apply count_nonzero_area.
Qed.

Lemma walk_dimensions_witness :
  ∃ g order,
    Directional.initialize_grid_directional chain_HHPPH turns_spiral
      = Ok (g, order) ∧
    ∃ height width : nat,
      grid_shape (trim_empty_rows_and_columns g)
      = (Z.of_nat height, Z.of_nat width) ∧
      height = size (rows_of order) ∧ width = size (columns_of order) ∧
      (1 ≤ height)%nat ∧ (1 ≤ width)%nat ∧
      (height + width ≤ length order + 1)%nat ∧
      (length order ≤ height * width)%nat.
Proof.
  destruct (directional_spec chain_HHPPH turns_spiral)
    as (g & order & Hrun & Hw & _ & Hlen);
    [discriminate|solve_residues|solve_turn_sequence|].
  exists g, order. split; [exact Hrun|].
  apply (walk_dimensions 5 g order Hw).
  intros ->. simpl in Hlen. lia.
Defined.

(** ** Random chains *)

Lemma bind_Sampled {A B} (a : A) (k : A → sampled B) : Sampled a ≫= k = k a.
Proof. done. Qed.

Lemma shuffle_from_Permutation {A} n d (l : list A) :
  length l = n → shuffle_from n d l ≡ₚ l.
Proof.
  revert d l. induction n as [|n IH]; intros d l Hlen; simpl.
  - by destruct l.
  - assert (Hi : (d `mod` length l < length l)%nat)
      by (apply Nat.mod_upper_bound; lia).
    destruct (lookup_lt_is_Some_2 l _ Hi) as [x Hx]. rewrite Hx.
    etransitivity; [|symmetry; apply (delete_Permutation l _ x Hx)].
    apply perm_skip.
    apply IH. rewrite length_delete by eauto. lia.
Qed.

Lemma shuffle_Permutation {A} d (l : list A) : shuffle d l ≡ₚ l.
Proof. by apply shuffle_from_Permutation. Qed.

(** Every order of the elements is the result of some draw. *)
Lemma shuffle_reaches {A} (l l' : list A) :
  l' ≡ₚ l → ∃ d, shuffle d l = l'.
Proof.
  revert l. induction l' as [|x l' IH]; intros l Hperm.
  - apply Permutation_nil_l in Hperm as <-. by exists 0%nat.
  - assert (Hin : x ∈ l) by (rewrite <- Hperm; by left).
    apply list_elem_of_lookup_1 in Hin as [i Hi].
    pose proof (lookup_lt_Some _ _ _ Hi) as Hlt.
    assert (Hrest : l' ≡ₚ delete i l).
    { apply (Permutation_cons_inv (l:=l') (l':=delete i l) (a:=x)).
      etransitivity; [exact Hperm|]. by apply delete_Permutation. }
    destruct (IH _ Hrest) as [d Hd].
    exists (i + d * length l)%nat. unfold shuffle in *.
    assert (Hlen : length l = S (length (delete i l))).
    { rewrite length_delete by eauto. lia. }
    rewrite Hlen at 1. simpl.
    rewrite Nat.Div0.mod_add, Nat.mod_small by lia.
    rewrite Hi. f_equal.
    rewrite Nat.div_add, Nat.div_small by lia. simpl. done.
Qed.

Lemma shuffle_first {A} d (l : list A) x :
  shuffled_first d l = Ok x ↔ head (shuffle d l) = Some x.
Proof.
  unfold shuffled_first, shuffle. destruct l as [|y l]; [done|].
  cbn [length shuffle_from].
  destruct ((y :: l) !! (d `mod` S (length l))%nat) as [z|]; simpl;
    split; congruence.
Qed.

Lemma residues_sorted chain :
  Forall residue chain →
  chain ≡ₚ replicate (count_residue "H" chain) "H"
           ++ replicate (count_residue "P" chain) "P" ∧
  (count_residue "H" chain + count_residue "P" chain = length chain)%nat.
Proof.
  unfold count_residue.
  induction 1 as [|a chain [-> | ->] _ [IHp IHl]]; [done|..].
  - rewrite filter_cons_True, (filter_cons_False _ "H") by done.
    simpl. split; [by apply perm_skip|lia].
  - rewrite (filter_cons_False _ "P"), filter_cons_True by done.
    simpl. split; [|lia].
    rewrite <- Permutation_middle. by apply perm_skip.
Qed.

Lemma count_residue_pos a chain :
  a ∈ chain → (1 ≤ count_residue a chain)%nat.
Proof.
  unfold count_residue. induction chain as [|b chain IH];
    [by intros ?%elem_of_nil|].
  intros [-> | Hin]%elem_of_cons.
  - rewrite filter_cons_True by done. simpl. lia.
  - rewrite filter_cons. destruct (decide (b = a)); simpl; auto with lia.
Qed.

Lemma random_division_spec rng total :
  (2 ≤ total)%nat →
  ∃ num_hydrophobic num_polar amino_acids,
    random_division rng total
    = Sampled (num_hydrophobic, num_polar, amino_acids) ∧
    (1 ≤ num_hydrophobic)%nat ∧ (1 ≤ num_polar)%nat ∧
    (num_hydrophobic + num_polar = total)%nat ∧
    amino_acids ≡ₚ replicate num_hydrophobic "H" ++ replicate num_polar "P".
Proof.
  intros Htotal. unfold random_division, randint.
  destruct (decide (1 < total)%nat) as [_|]; [|lia].
  pose proof (Nat.mod_upper_bound (rng 0%nat) (total - 1)) as Hd.
  eexists _, _, _. split; [reflexivity|].
  split; [lia|]. split; [lia|]. split; [lia|]. apply shuffle_Permutation.
Qed.

Lemma sorted_chain_residues n k (chain : list string) :
  chain ≡ₚ replicate n "H" ++ replicate k "P" →
  Forall residue chain ∧ length chain = (n + k)%nat.
Proof.
  intros Hperm. split.
  - rewrite Hperm. apply Forall_app. split; apply Forall_replicate;
      unfold residue; auto.
  - by rewrite Hperm, length_app, !length_replicate.
Qed.

(** X18: what [random_division] returns.  For a total below 2 it raises
    ValueError; otherwise it returns, with at least one H and at least one P,
    counts that add up to the total, and a chain that holds exactly that
    many H and P residues, in some order. *)
Theorem random_division_range rng total :
  match random_division rng total with
  | Sampled (num_hydrophobic, num_polar, amino_acids) =>
      (2 ≤ total)%nat ∧
      (1 ≤ num_hydrophobic)%nat ∧ (1 ≤ num_polar)%nat ∧
      (num_hydrophobic + num_polar = total)%nat ∧
      length amino_acids = total ∧ Forall residue amino_acids ∧
      count_residue "H" amino_acids = num_hydrophobic ∧
      count_residue "P" amino_acids = num_polar
  | ValueError => (total < 2)%nat
  | Failed _ => False
  end.
Proof.
  destruct (decide (2 ≤ total)%nat) as [Htotal | Htotal].
  - destruct (random_division_spec rng total Htotal)
      as (nh & np & chain & -> & Hnh & Hnp & Hsum & Hperm).
    destruct (sorted_chain_residues _ _ _ Hperm) as [Hres Hlen].
    split; [done|]. split; [done|]. split; [done|]. split; [done|].
    split; [lia|]. split; [done|].
    unfold count_residue. rewrite !Hperm, !filter_app, !length_app.
    assert (Hfilter : ∀ (a b : string) n,
              length (filter (λ c, c = a) (replicate n b))
              = if decide (b = a) then n else 0%nat).
    { intros a b n. induction n as [|n IH]; simpl; [by destruct (decide _)|].
      rewrite filter_cons. destruct (decide (b = a)); simpl; lia. }
    rewrite !Hfilter. simpl. split; lia.
  - unfold random_division, randint.
    destruct (decide (1 < total)%nat); [lia|]. simpl. lia.
Qed.

(** X19: every chain of H and P residues with at least one H and at least
    one P is returned by [random_division] for some draws, together with its
    two counts. *)
Theorem random_division_reaches_every_chain (chain : list string) :
  Forall residue chain → "H" ∈ chain → "P" ∈ chain →
  ∃ rng,
    random_division rng (length chain)
    = Sampled (count_residue "H" chain, count_residue "P" chain, chain).
Proof.
  intros Hres HH HP.
  destruct (residues_sorted chain Hres) as [Hperm Hlen].
  pose proof (count_residue_pos _ _ HH) as Hnh.
  pose proof (count_residue_pos _ _ HP) as Hnp.
  destruct (shuffle_reaches _ _ Hperm) as [d Hd].
  exists (λ k, match k with
               | O => (count_residue "H" chain - 1)%nat
               | S _ => d
               end).
  unfold random_division, randint.
  destruct (decide (1 < length chain)%nat) as [_|]; [|lia].
  rewrite Nat.mod_small by lia.
  replace (1 + (count_residue "H" chain - 1))%nat
    with (count_residue "H" chain) by lia.
  rewrite bind_Sampled.
  replace (length chain - count_residue "H" chain)%nat
    with (count_residue "P" chain) by lia.
  by rewrite Hd.
Qed.

Lemma random_division_reaches_every_chain_witness :
  ∃ rng,
    random_division rng (length chain_HHPPH)
    = Sampled (count_residue "H" chain_HHPPH,
               count_residue "P" chain_HHPPH, chain_HHPPH).
Proof.
  apply (random_division_reaches_every_chain chain_HHPPH).
  - solve_residues.
  - by left.
  - unfold chain_HHPPH. rewrite !elem_of_cons. tauto.
Defined.

(** ** Sampling *)

Lemma repeat_sample_spec {T} (one_sample : draws → sampled T)
    (P : T → Prop) rngs N :
  (∀ rng, ∃ s, one_sample rng = Sampled s ∧ P s) →
  ∃ random_samples,
    repeat_sample one_sample rngs N = Sampled random_samples ∧
    length random_samples = N ∧ Forall P random_samples.
Proof.
  intros Hone. revert rngs. induction N as [|N IH]; intros rngs.
  - exists []. by repeat split.
  - destruct (Hone (rngs 0%nat)) as (s & Hs & HP).
    destruct (IH (λ k, rngs (S k))) as (l & Hl & Hlen & Hall).
    exists (s :: l). simpl. rewrite Hs, bind_Sampled, Hl, bind_Sampled.
    split; [done|]. split; [by rewrite <- Hlen|by constructor].
Qed.

Lemma record_sample_spec L directions_of label nh np chain g order :
  walk_inv L g order → order ≠ [] → (length order ≤ L)%nat →
  (∃ ds, directions_of order = Ok (label :: ds) ∧
         length (label :: ds) = length order) →
  (1 ≤ nh)%nat → (1 ≤ np)%nat → (nh + np = L)%nat →
  chain ≡ₚ replicate nh "H" ++ replicate np "P" →
  order.*1 `sublist_of` chain →
  ∃ s, record_sample directions_of nh np chain g order = Ok s ∧
       sample_sound L s ∧ amino_acids s = chain ∧
       initial_grid s = g ∧ amino_acid_order s = order ∧
       amino_acids_directions s !! 0%nat = Some label.
Proof.
  intros Hw Hne Hlen (ds & Hds & Hdlen) Hnh Hnp Hsum Hperm Hsub.
  pose proof (w_consistent _ _ _ Hw) as Hc.
  destruct (sample_stats_consistent _ _ _ Hc Hne)
    as (bonds & ratio & Hbonds & Hcount & Hpos & Hstats & Hratio & _).
  cbn [fst snd] in *.
  unfold record_sample. rewrite Hds, bind_Ok, Hstats, bind_Ok.
  eexists. split; [reflexivity|].
  unfold sample_sound. simpl.
  split; [|done].
  split; [done|]. split; [done|]. split; [done|]. split; [done|].
  split; [done|]. split; [done|]. split; [done|]. split; [lia|].
  split; [done|]. split; [done|]. split; [done|].
  split; [by exists bonds|done].
Qed.

Lemma determine_directions_length order :
  order ≠ [] →
  ∃ ds, determine_directions order = Ok ("Start" :: ds) ∧
        length ("Start" :: ds) = length order.
Proof.
  intros Hne. unfold determine_directions.
  destruct (map_r_total (direction_at order)
              (λ d, relative_turn d) (seq 1 (length order - 1)))
    as (ds & Hds & Hlen & _).
  { intros i Hi%elem_of_seq.
    destruct (direction_at_total order i) as (d & Hd & Ht & _); [lia|].
    by exists d. }
  exists ds. rewrite Hds, bind_Ok. split; [done|].
  rewrite length_seq in Hlen. destruct order; [done|]. simpl in *. lia.
Qed.

Lemma determine_directions_4_length order :
  order ≠ [] →
  ∃ ds, Experiment4.determine_directions order = Ok ("start" :: ds) ∧
        length ("start" :: ds) = length order.
Proof.
  intros Hne. unfold Experiment4.determine_directions.
  destruct (map_r_total (direction_at order)
              (λ d, relative_turn d) (seq 1 (length order - 1)))
    as (ds & Hds & Hlen & _).
  { intros i Hi%elem_of_seq.
    destruct (direction_at_total order i) as (d & Hd & Ht & _); [lia|].
    by exists d. }
  exists ds. rewrite Hds, bind_Ok. split; [done|].
  rewrite length_seq in Hlen. destruct order; [done|]. simpl in *. lia.
Qed.

Lemma prefix_sublist {A} (l k : list A) : l `prefix_of` k → l `sublist_of` k.
Proof. intros [k' ->]. by apply sublist_inserts_r. Qed.

Lemma chain_not_nil n k (chain : list string) :
  (1 ≤ n)%nat → chain ≡ₚ replicate n "H" ++ replicate k "P" → chain ≠ [].
Proof.
  intros Hn Hperm ->. apply Permutation_nil_l in Hperm.
  destruct n; [lia|done].
Qed.

(** X20: sampling with the stochastic engine.  For a total of at least two
    residues [generate_random_samples] returns [N] samples, whatever the
    draws, and raises nothing; in each sample the two counts are at least 1
    and add up to the total, the chain holds that many H and P, the grid and
    the placement order are a connected walk of a prefix of the chain, the
    number of residues on the grid is the length of that order and is at
    least 1, there is one direction per placed residue, the first one
    ['Start'], the dimensions are the shape of the trimmed grid, and the
    H-ratio is the number of H-bonds divided by the residues on the grid. *)
Theorem stochastic_samples rngs N total :
  (2 ≤ total)%nat →
  ∃ random_samples,
    Experiment1.generate_random_samples rngs N total
    = Sampled random_samples ∧
    length random_samples = N ∧
    Forall (λ s, sample_sound total s ∧
                 (amino_acid_order s).*1 `prefix_of` amino_acids s ∧
                 amino_acids_directions s !! 0%nat = Some "Start")
      random_samples.
Proof.
  intros Htotal. apply repeat_sample_spec. intros rng.
  unfold Experiment1.one_sample.
  destruct (random_division_spec rng total Htotal)
    as (nh & np & chain & -> & Hnh & Hnp & Hsum & Hperm).
  rewrite bind_Sampled.
  destruct (sorted_chain_residues _ _ _ Hperm) as [Hres Hlen].
  pose proof (chain_not_nil _ _ _ Hnh Hperm) as Hne.
  destruct (stochastic_spec (next_draws (next_draws rng)) chain Hne Hres)
    as (g & order & -> & Hw & Hprefix & Horder & _).
  simpl of_result. rewrite bind_Sampled.
  assert (HL : length chain = total) by lia. rewrite HL in *.
  destruct (record_sample_spec total determine_directions "Start"
              nh np chain g order) as (s & -> & Hs & Hchain & _ & Ho & Hd);
    try done; try lia.
  - intros ->. simpl in Horder. lia.
  - apply determine_directions_length. intros ->. simpl in Horder. lia.
  - by apply prefix_sublist.
  - exists s. split; [done|]. split; [done|]. by rewrite Hchain, Ho.
Qed.

Lemma stochastic_samples_witness :
  ∃ random_samples,
    Experiment1.generate_random_samples (λ _, draws_counting) 3 5
    = Sampled random_samples ∧
    length random_samples = 3%nat ∧
    Forall (λ s, sample_sound 5 s ∧
                 (amino_acid_order s).*1 `prefix_of` amino_acids s ∧
                 amino_acids_directions s !! 0%nat = Some "Start")
      random_samples.
Proof.
  apply (stochastic_samples (λ _, draws_counting) 3 5). lia.
Defined.

(** X21: sampling with the deterministic-directional engine: the same
    guarantees as for the stochastic engine, with the directions of
    [generate_random_directions]. *)
Theorem directional_samples rngs N total :
  (2 ≤ total)%nat →
  ∃ random_samples,
    Experiment2.generate_random_samples rngs N total
    = Sampled random_samples ∧
    length random_samples = N ∧
    Forall (λ s, sample_sound total s ∧
                 (amino_acid_order s).*1 `prefix_of` amino_acids s ∧
                 amino_acids_directions s !! 0%nat = Some "Start")
      random_samples.
Proof.
  intros Htotal. apply repeat_sample_spec. intros rng.
  unfold Experiment2.one_sample.
  destruct (random_division_spec rng total Htotal)
    as (nh & np & chain & -> & Hnh & Hnp & Hsum & Hperm).
  rewrite bind_Sampled.
  destruct (sorted_chain_residues _ _ _ Hperm) as [Hres Hlen].
  pose proof (chain_not_nil _ _ _ Hnh Hperm) as Hne.
  destruct (directional_spec chain
              (Directional.generate_random_directions
                 (next_draws (next_draws rng)) total) Hne Hres
              (generated_turn_sequence _ _))
    as (g & order & -> & Hw & Hprefix & Horder).
  simpl of_result. rewrite bind_Sampled.
  assert (HL : length chain = total) by lia. rewrite HL in *.
  destruct (record_sample_spec total determine_directions "Start"
              nh np chain g order) as (s & -> & Hs & Hchain & _ & Ho & Hd);
    try done; try lia.
  - intros ->. simpl in Horder. lia.
  - apply determine_directions_length. intros ->. simpl in Horder. lia.
  - by apply prefix_sublist.
  - exists s. split; [done|]. split; [done|]. by rewrite Hchain, Ho.
Qed.

Lemma directional_samples_witness :
  ∃ random_samples,
    Experiment2.generate_random_samples (λ _, draws_counting) 3 5
    = Sampled random_samples ∧
    length random_samples = 3%nat ∧
    Forall (λ s, sample_sound 5 s ∧
                 (amino_acid_order s).*1 `prefix_of` amino_acids s ∧
                 amino_acids_directions s !! 0%nat = Some "Start")
      random_samples.
Proof.
  apply (directional_samples (λ _, draws_counting) 3 5). lia.
Defined.

(** X22: sampling with the backtracking engine.  With a recursion limit
    above twice the total, [generate_random_samples] returns [N] samples for
    every total of at least two residues; each satisfies the guarantees of
    the other two samplers, except that the placed residues are a sublist
    of the chain and not always a prefix, and that the first direction is
    written ['start']; the field [backtracks] is the number of residues of
    the chain that are not on the grid. *)
Theorem backtracking_samples depth rngs N total :
  (2 ≤ total)%nat → (2 * total < depth)%nat →
  ∃ random_samples,
    Experiment4.generate_random_samples depth rngs N total
    = Sampled random_samples ∧
    length random_samples = N ∧
    Forall (λ '(s, backtracks),
              sample_sound total s ∧
              (amino_acids_on_grid s + backtracks = total)%nat ∧
              amino_acids_directions s !! 0%nat = Some "start")
      random_samples.
Proof.
  intros Htotal Hdepth. apply repeat_sample_spec. intros rng.
  unfold Experiment4.one_sample.
  destruct (random_division_spec rng total Htotal)
    as (nh & np & chain & -> & Hnh & Hnp & Hsum & Hperm).
  rewrite bind_Sampled.
  destruct (sorted_chain_residues _ _ _ Hperm) as [Hres Hlen].
  pose proof (chain_not_nil _ _ _ Hnh Hperm) as Hne.
  assert (HL : length chain = total) by lia.
  destruct (backtracking_spec depth (next_draws (next_draws rng)) chain
              Hne Hres) as (g & order & bc & Hrun & -> & Hw & Hsub & Hacc & _);
    [lia|].
  destruct (backtracking_run depth (next_draws (next_draws rng)) chain
              Hne Hres) as (g' & order' & bc' & Hrun' & _ & Hone); [lia|].
  rewrite Hrun in Hrun'. injection Hrun' as <- <- <-.
  simpl of_result. rewrite bind_Sampled. rewrite HL in *.
  destruct (record_sample_spec total Experiment4.determine_directions
              "start" nh np chain g order)
    as (s & -> & Hs & Hchain & _ & Ho & Hd); try done; try lia.
  - by apply determine_directions_4_length.
  - simpl of_result. rewrite bind_Sampled.
    exists (s, bc). split; [done|]. split; [done|]. split; [|done].
    destruct Hs as (_ & _ & _ & _ & _ & _ & -> & _). rewrite Ho. lia.
Qed.

Lemma backtracking_samples_witness :
  ∃ random_samples,
    Experiment4.generate_random_samples 19 (λ _, draws_dead_end) 2 9
    = Sampled random_samples ∧
    length random_samples = 2%nat ∧
    Forall (λ '(s, backtracks),
              sample_sound 9 s ∧
              (amino_acids_on_grid s + backtracks = 9)%nat ∧
              amino_acids_directions s !! 0%nat = Some "start")
      random_samples.
Proof.
  apply (backtracking_samples 19 (λ _, draws_dead_end) 2 9); lia.
Defined.

(** X23: no sampler accepts a total below two residues: the first pass of
    the loop raises ValueError in [random_division], before the engine is
    called.  Without a pass ([N = 0]) the list of samples is empty. *)
Theorem samples_need_two_residues depth rngs N total :
  (total < 2)%nat →
  let outcome {T} (run : sampled (list T)) :=
    match N with
    | O => run = Sampled []
    | S _ => run = ValueError
    end in
  outcome (Experiment1.generate_random_samples rngs N total) ∧
  outcome (Experiment2.generate_random_samples rngs N total) ∧
  outcome (Experiment4.generate_random_samples depth rngs N total).
Proof.
  intros Htotal outcome.
  assert (Hdiv : ∀ rng, random_division rng total = ValueError).
  { intros rng. unfold random_division, randint.
    destruct (decide (1 < total)%nat); [lia|done]. }
  unfold outcome, Experiment1.generate_random_samples,
    Experiment2.generate_random_samples, Experiment4.generate_random_samples,
    Experiment1.one_sample, Experiment2.one_sample, Experiment4.one_sample.
  destruct N as [|N]; [done|]. simpl. by rewrite !Hdiv.
Qed.

Lemma samples_need_two_residues_witness :
  Experiment1.generate_random_samples (λ _, draws_counting) 2 1 = ValueError ∧
  Experiment2.generate_random_samples (λ _, draws_counting) 2 1 = ValueError ∧
  Experiment4.generate_random_samples 19 (λ _, draws_counting) 2 1
  = ValueError.
Proof.
  apply (samples_need_two_residues 19 (λ _, draws_counting) 2 1). lia.
Defined.

(** ** Conformations that the engines can produce *)

Lemma shuffled_first_lookup {A} (l : list A) i x :
  l !! i = Some x → shuffled_first i l = Ok x.
Proof.
  intros Hi. unfold shuffled_first.
  rewrite Nat.mod_small by (by eapply lookup_lt_Some). by rewrite Hi.
Qed.

(** The next cell of a walk is among the free neighbours of its last
    cell. *)
Lemma next_cell_valid L g order b p a q rest :
  walk_inv L g order → last order = Some (b, p) →
  NoDup (order ++ (a, q) :: rest).*2 → connected (order ++ (a, q) :: rest) →
  (length (order ++ (a, q) :: rest) ≤ L)%nat →
  q ∈ four_neighbors p ∧ inside (L * 2) q ∧ cell g q = "".
Proof.
  intros Hw Hlast Hnodup Hconn Hlen.
  rewrite length_app in Hlen. simpl in Hlen.
  rewrite last_lookup in Hlast.
  assert (Hpos : (0 < length order)%nat).
  { destruct order; [done|simpl; lia]. }
  assert (Hadj : adjacent q p).
  { apply (Hconn (pred (length order)) b p a q).
    - by rewrite lookup_app_l by lia.
    - replace (S (pred (length order))) with (length order) by lia.
      by rewrite list_lookup_middle. }
  pose proof (w_near _ _ _ Hw _ _ _ Hlast) as Hnear.
  assert (Hin : inside (L * 2) q).
  { unfold adjacent in Hadj. unfold inside. lia. }
  split; [by apply adjacent_four_neighbors|]. split; [done|].
  apply (c_empty _ _ _ (w_consistent _ _ _ Hw)); [done|].
  rewrite fmap_app in Hnodup. apply NoDup_app in Hnodup as (_ & Hdisj & _).
  intros Hq. apply (Hdisj _ Hq). simpl. by left.
Qed.

Lemma place_loop_reaches L g order rest :
  walk_inv L g order → order ≠ [] → Forall residue rest.*1 →
  NoDup (order ++ rest).*2 → connected (order ++ rest) →
  (length (order ++ rest) ≤ L)%nat →
  ∃ rng g',
    Stochastic.place_loop rng (length rest) (Z.of_nat (L * 2)) g rest.*1 order
    = Ok (g', order ++ rest) ∧
    walk_inv L g' (order ++ rest).
Proof.
  revert g order.
  induction rest as [|[a q] rest IH]; intros g order Hw Hne Hres Hnodup Hconn
    Hlen.
  - exists (λ _, 0%nat), g. rewrite app_nil_r. by split.
  - destruct (last order) as [[b p]|] eqn:Hlast.
    2:{ apply last_None in Hlast. done. }
    destruct (next_cell_valid L g order b p a q rest Hw Hlast Hnodup Hconn
                Hlen) as (Hnb & Hin & He).
    simpl in Hres. apply Forall_cons in Hres as [Hres_a Hres].
    destruct (walk_inv_extend L g order a q b p Hw Hlast Hnb Hin He Hres_a)
      as (g1 & Hset & Hw1).
    destruct (IH g1 (order ++ [(a, q)]) Hw1) as (rng & g' & Hrun & Hw').
    { by destruct order. }
    { done. }
    { by rewrite <- app_assoc. }
    { by rewrite <- app_assoc. }
    { by rewrite <- app_assoc. }
    rewrite <- app_assoc in Hrun, Hw'. simpl in Hrun, Hw'.
    assert (Hvalid : q ∈ filter (λ q, inside (L * 2) q ∧ cell g q = "")
                           (four_neighbors p)).
    { apply list_elem_of_filter. by split. }
    apply list_elem_of_lookup_1 in Hvalid as [i Hi].
    exists (draws_cons i rng), g'. split; [|done].
    simpl. unfold last_placement. rewrite Hlast. simpl.
    rewrite (valid_neighbors_square _ _ _
               (c_square _ _ _ (w_consistent _ _ _ Hw))).
    simpl.
    destruct (filter _ (four_neighbors p)) as [|v valid] eqn:Hfilter; [done|].
    rewrite (shuffled_first_lookup _ _ _ Hi). simpl. rewrite Hset. simpl.
    exact Hrun.
Qed.

(** X24: the stochastic engine can produce every conformation.  For each
    self-avoiding connected walk of residues that starts at the centre there
    are draws for which [initialize_grid], called with the residues of the
    walk, returns exactly this walk as the placement order, on a grid that
    agrees with it. *)
Theorem stochastic_reaches_every_walk (order : list placement) :
  centred_walk order →
  ∃ rng g,
    Stochastic.initialize_grid rng order.*1 = Ok (g, order) ∧
    consistent (length order * 2) g order.
Proof.
  intros (Hne & Hres & Hnodup & Hconn & Hfirst).
  destruct order as [|[a p] rest] eqn:Horder; [done|].
  set (L := length ((a, p) :: rest)) in *.
  assert (HL : (0 < L)%nat) by (subst L; simpl; lia).
  rewrite (Hfirst a p eq_refl) in *.
  simpl in Hres. apply Forall_cons in Hres as [Hres_a Hres].
  destruct (walk_inv_first L a HL Hres_a) as (g1 & Hset & Hw1).
  destruct (place_loop_reaches L g1 [(a, (Z.of_nat L, Z.of_nat L))] rest Hw1)
    as (rng & g' & Hrun & Hw'); [done..|].
  exists rng, g'. split; [|apply Hw'].
  unfold Stochastic.initialize_grid.
  change (((a, (Z.of_nat L, Z.of_nat L)) :: rest).*1) with (a :: rest.*1).
  assert (Hlen : length (a :: rest.*1) = L).
  { subst L. simpl. by rewrite length_fmap. }
  cbv beta iota zeta.
  rewrite Hlen, grid_size_nat, centre_div, Hset, bind_Ok.
  replace (L - 1)%nat with (length rest) by (subst L; simpl; lia).
  exact Hrun.
Qed.

Lemma stochastic_reaches_every_walk_witness :
  ∃ rng g,
    Stochastic.initialize_grid rng walk_hook.*1 = Ok (g, walk_hook) ∧
    consistent (length walk_hook * 2) g walk_hook.
Proof.
  apply (stochastic_reaches_every_walk walk_hook).
  split; [discriminate|]. split; [solve_residues|].
  split; [exact (bool_decide_unpack (NoDup walk_hook.*2) I)|]. split.
  - intros i a p b q Hi HSi.
    destruct i as [|[|[|[|i]]]]; simplify_eq/=; unfold adjacent; simpl; lia.
  - by intros a p [= _ <-].
Defined.

(** The label that [determine_directions] gives to a step is a turn that
    leads the deterministic engine onto the cell of that step. *)
Lemma direction_at_turn order i a0 (p0 : pos) a1 (p1 : pos) a2 (p2 : pos) o :
  (2 ≤ i)%nat →
  order !! (i - 2)%nat = Some (a0, p0) →
  order !! (i - 1)%nat = Some (a1, p1) →
  order !! i = Some (a2, p2) →
  movement_vectors o = Ok (p1.1 - p0.1, p1.2 - p0.2)%Z →
  adjacent p2 p1 → p2 ≠ p0 →
  ∃ d o',
    direction_at order i = Ok d ∧ d ≠ "Start" ∧
    Directional.turn_orientation o d = Ok o' ∧
    movement_vectors o' = Ok (p2.1 - p1.1, p2.2 - p1.2)%Z.
Proof.
  intros Hi H0 H1 H2 Hv Hadj Hback.
  unfold direction_at, position_at. rewrite H0, H1, H2, !bind_Ok.
  change (movement_vectors "up") with (@Ok pos (-1, 0)%Z).
  change (movement_vectors "down") with (@Ok pos (1, 0)%Z).
  change (movement_vectors "left") with (@Ok pos (0, -1)%Z).
  change (movement_vectors "right") with (@Ok pos (0, 1)%Z).
  rewrite !bind_Ok.
  destruct (i =? 1)%nat eqn:Hone; [apply Nat.eqb_eq in Hone; lia|].
  destruct p0 as [r0 c0], p1 as [r1 c1], p2 as [r2 c2].
  unfold adjacent in Hadj. cbn [fst snd] in *.
  assert (Hmove : ((r2 - r1 = -1 ∧ c2 - c1 = 0) ∨ (r2 - r1 = 1 ∧ c2 - c1 = 0)
            ∨ (r2 - r1 = 0 ∧ c2 - c1 = -1) ∨ (r2 - r1 = 0 ∧ c2 - c1 = 1))%Z)
    by lia.
  assert (Hnot : ¬ (r2 = r0 ∧ c2 = c0)) by (intros [-> ->]; done).
  pose proof (movement_vectors_valid o _ Hv) as Ho.
  destruct Ho as [-> | [-> | [-> | ->]]]; injection Hv as Hr Hc;
    destruct Hmove as [[Hr' Hc'] | [[Hr' Hc'] | [[Hr' Hc'] | [Hr' Hc']]]];
    try (exfalso; apply Hnot; lia);
    rewrite <- Hr, <- Hc, Hr', Hc';
    decide_vectors; eexists _, _;
    (split; [reflexivity|]; split; [done|]; split; reflexivity).
Qed.

Lemma map_r_cons_inv {A B} (f : A → result B) x (l : list A) ys :
  map_r f (x :: l) = Ok ys →
  ∃ y ys', ys = y :: ys' ∧ f x = Ok y ∧ map_r f l = Ok ys'.
Proof.
  simpl. destruct (f x) as [y|]; [|done]. rewrite bind_Ok.
  destruct (map_r f l) as [ys'|]; [|done]. rewrite bind_Ok.
  intros [= <-]. by exists y, ys'.
Qed.

Lemma walk_follows L rest :
  ∀ g order dirs a0 (p0 : pos) a1 (current : pos) o,
  walk_inv L g order → (2 ≤ length order)%nat →
  order !! (length order - 2)%nat = Some (a0, p0) →
  order !! (length order - 1)%nat = Some (a1, current) →
  movement_vectors o = Ok (current.1 - p0.1, current.2 - p0.2)%Z →
  Forall residue rest.*1 → NoDup (order ++ rest).*2 →
  connected (order ++ rest) → (length (order ++ rest) ≤ L)%nat →
  map_r (direction_at (order ++ rest)) (seq (length order) (length rest))
  = Ok dirs →
  ∃ g',
    Directional.walk dirs (Z.of_nat (L * 2)) g rest.*1 order current o
    = Ok (g', order ++ rest) ∧
    walk_inv L g' (order ++ rest).
Proof.
  induction rest as [|[a q] rest IH];
    intros g order dirs a0 p0 a1 current o Hw Hlen H0 H1 Hv Hres Hnodup Hconn
      HL Hdirs.
  - simpl in Hdirs. injection Hdirs as <-. exists g. rewrite app_nil_r.
    by split.
  - cbn [length seq] in Hdirs.
    apply map_r_cons_inv in Hdirs as (d & dirs' & -> & Hd & Hdirs).
    assert (Hlast : last order = Some (a1, current)).
    { rewrite last_lookup.
      by replace (pred (length order)) with (length order - 1)%nat by lia. }
    destruct (next_cell_valid L g order a1 current a q rest Hw Hlast Hnodup
                Hconn HL) as (Hnb & Hin & He).
    destruct (direction_at_turn (order ++ (a, q) :: rest) (length order)
                a0 p0 a1 current a q o) as (d' & o' & Hd' & Hstart & Hto & Hv');
      try done.
    { by rewrite lookup_app_l by lia. }
    { by rewrite lookup_app_l by lia. }
    { by rewrite list_lookup_middle. }
    { by apply four_neighbors_adjacent. }
    { intros ->. rewrite fmap_app in Hnodup.
      apply NoDup_app in Hnodup as (_ & Hdisj & _).
      apply (Hdisj p0); [|simpl; by left].
      apply list_elem_of_fmap. exists (a0, p0). split; [done|].
      by eapply list_elem_of_lookup_2. }
    rewrite Hd in Hd'. injection Hd' as <-.
    simpl in Hres. apply Forall_cons in Hres as [Hres_a Hres].
    destruct (walk_inv_extend L g order a q a1 current Hw Hlast Hnb Hin He
                Hres_a) as (g1 & Hset & Hw1).
    assert (Hnext : (current.1 + (q.1 - current.1),
                     current.2 + (q.2 - current.2))%Z = q).
    { destruct q, current. simpl. f_equal; lia. }
    cbn [Directional.walk fmap list_fmap].
    destruct (String.eqb_spec d "Start") as [|_]; [done|].
    rewrite Hto, bind_Ok, Hv', bind_Ok. cbn [fst snd]. rewrite Hnext.
    rewrite (free_cell_square _ _ _ (c_square _ _ _ (w_consistent _ _ _ Hw))).
    rewrite bind_Ok, bool_decide_eq_true_2 by done.
    change (list_fmap placement string fst ((a, q) :: rest))
      with (a :: rest.*1).
    cbv iota. rewrite Hset, bind_Ok.
    destruct rest as [|e rest'].
    + simpl. exists g1. by split.
    + assert (Hassoc : (order ++ [(a, q)]) ++ e :: rest'
                       = order ++ (a, q) :: e :: rest')
        by (by rewrite <- app_assoc).
      assert (Hlen1 : length (order ++ [(a, q)]) = S (length order))
        by (rewrite length_app; simpl; lia).
      destruct (IH g1 (order ++ [(a, q)]) dirs' a1 current a q o' Hw1)
        as (g' & Hrun & Hw').
      { lia. }
      { rewrite Hlen1, lookup_app_l by lia.
        by replace (S (length order) - 2)%nat with (length order - 1)%nat
          by lia. }
      { rewrite Hlen1, lookup_app_r by lia.
        by replace (S (length order) - 1 - length order)%nat with 0%nat
          by lia. }
      { done. }
      { done. }
      { by rewrite Hassoc. }
      { by rewrite Hassoc. }
      { by rewrite Hassoc. }
      { by rewrite Hassoc, Hlen1. }
      rewrite Hassoc in Hrun, Hw'. exists g'. split; [|done].
      change (list_fmap placement string fst (e :: rest'))
        with (e.1 :: rest'.*1) in *.
      cbv iota. exact Hrun.
Qed.

(** X25: the labels of [determine_directions] are enough to rebuild a
    conformation.  For every self-avoiding connected walk from the centre
    whose second residue lies to the right of the first,
    [initialize_grid_directional], called with the residues of the walk and
    with the labels that [determine_directions] computes for it, returns
    this walk as the placement order, on a grid that agrees with it. *)
Theorem determine_directions_rebuilds_walk (order : list placement) :
  centred_walk order →
  (∀ b q, order !! 1%nat = Some (b, q) →
          q = (Z.of_nat (length order), Z.of_nat (length order) + 1)%Z) →
  ∃ directions g,
    determine_directions order = Ok directions ∧
    Directional.initialize_grid_directional order.*1 directions
    = Ok (g, order) ∧
    consistent (length order * 2) g order.
Proof.
  intros (Hne & Hres & Hnodup & Hconn & Hfirst) Hsecond.
  destruct (determine_directions_length order Hne) as (ds & Hds & _).
  exists ("Start" :: ds). pose proof Hds as Hdd.
  unfold determine_directions in Hds.
  destruct (map_r (direction_at order) (seq 1 (length order - 1)))
    as [ds'|] eqn:Hmap; [|done].
  rewrite bind_Ok in Hds. injection Hds as ->.
  destruct order as [|[a p] rest] eqn:Horder; [done|].
  set (L := length ((a, p) :: rest)) in *.
  assert (HL : (0 < L)%nat) by (subst L; simpl; lia).
  rewrite (Hfirst a p eq_refl) in *.
  simpl in Hres. apply Forall_cons in Hres as [Hres_a Hres].
  destruct (walk_inv_first L a HL Hres_a) as (g1 & Hset & Hw1).
  assert (Hlen : length (a :: rest.*1) = L).
  { subst L. simpl. by rewrite length_fmap. }
  assert (Hstart : Directional.initialize_grid_directional
            (a :: rest.*1) ("Start" :: ds)
          = match rest.*1 with
            | [] => Ok (g1, [(a, (Z.of_nat L, Z.of_nat L))])
            | _ => Directional.walk ds (Z.of_nat (L * 2)) g1 rest.*1
                     [(a, (Z.of_nat L, Z.of_nat L))]
                     (Z.of_nat L, Z.of_nat L) "right"
            end).
  { unfold Directional.initialize_grid_directional.
    cbv zeta. rewrite Hlen, grid_size_nat, centre_div.
    cbn [Directional.walk]. change (String.eqb "Start" "Start") with true.
    cbv iota. by rewrite Hset, bind_Ok. }
  change (((a, (Z.of_nat L, Z.of_nat L)) :: rest).*1) with (a :: rest.*1).
  rewrite Hstart. clear Hstart.
  destruct rest as [|[b q] rest'].
  { exists g1. split; [exact Hdd|]. split; [done|]. apply Hw1. }
  rewrite (Hsecond b q eq_refl) in *.
  replace (L - 1)%nat with (S (length rest')) in Hmap by (subst L; simpl; lia).
  cbn [seq] in Hmap.
  apply map_r_cons_inv in Hmap as (d & dirs & -> & Hd & Hdirs).
  assert (d = "straight") as ->.
  { destruct (direction_at_total ((a, (Z.of_nat L, Z.of_nat L))
                :: (b, (Z.of_nat L, (Z.of_nat L + 1)%Z)) :: rest') 1)
      as (d' & Hd' & _ & Hstraight); [simpl; lia|].
    rewrite Hd in Hd'. injection Hd' as ->. by apply Hstraight. }
  assert (Hlast1 : last [(a, (Z.of_nat L, Z.of_nat L))]
                   = Some (a, (Z.of_nat L, Z.of_nat L))) by done.
  destruct (next_cell_valid L g1 [(a, (Z.of_nat L, Z.of_nat L))] a
              (Z.of_nat L, Z.of_nat L) b (Z.of_nat L, (Z.of_nat L + 1)%Z)
              rest' Hw1 Hlast1) as (Hnb & Hin & He); [done|done|done|].
  simpl in Hres. apply Forall_cons in Hres as [Hres_b Hres].
  destruct (walk_inv_extend L g1 [(a, (Z.of_nat L, Z.of_nat L))] b
              (Z.of_nat L, (Z.of_nat L + 1)%Z) a (Z.of_nat L, Z.of_nat L)
              Hw1 Hlast1 Hnb Hin He Hres_b) as (g2 & Hset2 & Hw2).
  change (((b, (Z.of_nat L, (Z.of_nat L + 1)%Z)) :: rest').*1)
    with (b :: rest'.*1).
  cbv iota. cbn [Directional.walk].
  change (String.eqb "straight" "Start") with false. cbv iota.
  change (Directional.turn_orientation "right" "straight")
    with (@Ok string "right").
  rewrite bind_Ok.
  change (movement_vectors "right") with (@Ok pos (0, 1)%Z).
  rewrite bind_Ok. cbn [fst snd].
  replace (Z.of_nat L + 0)%Z with (Z.of_nat L) by lia.
  rewrite (free_cell_square _ _ _ (c_square _ _ _ (w_consistent _ _ _ Hw1))).
  rewrite bind_Ok, bool_decide_eq_true_2 by done.
  rewrite Hset2, bind_Ok.
  destruct rest' as [|e rest''].
  { exists g2. split; [exact Hdd|]. split; [done|]. apply Hw2. }
  destruct (walk_follows L (e :: rest'') g2
              ([(a, (Z.of_nat L, Z.of_nat L))]
               ++ [(b, (Z.of_nat L, (Z.of_nat L + 1)%Z))]) dirs
              a (Z.of_nat L, Z.of_nat L) b (Z.of_nat L, (Z.of_nat L + 1)%Z)
              "right" Hw2) as (g' & Hrun & Hw'); try done.
  { change (movement_vectors "right") with (@Ok pos (0, 1)%Z).
    cbn [fst snd]. do 2 f_equal; lia. }
  change (list_fmap placement string fst (e :: rest''))
    with (e.1 :: rest''.*1) in *.
  cbv iota. exists g'. split; [exact Hdd|]. split; [exact Hrun|]. apply Hw'.
Qed.

Lemma determine_directions_rebuilds_walk_witness :
  ∃ directions g,
    determine_directions walk_hook_right = Ok directions ∧
    Directional.initialize_grid_directional walk_hook_right.*1 directions
    = Ok (g, walk_hook_right) ∧
    consistent (length walk_hook_right * 2) g walk_hook_right.
Proof.
  apply (determine_directions_rebuilds_walk walk_hook_right).
  - split; [discriminate|]. split; [solve_residues|].
    split; [exact (bool_decide_unpack (NoDup walk_hook_right.*2) I)|]. split.
    + intros i a p b q Hi HSi.
      destruct i as [|[|[|[|i]]]]; simplify_eq/=; unfold adjacent; simpl; lia.
    + by intros a p [= _ <-].
  - by intros b q [= _ <-].
Defined.

(** ** Turns of the direction model *)

(** X26: [get_new_orientation] is a quarter turn of the movement vector.
    For each heading with vector [(r, c)] the turn ['left'] gives the
    heading with vector [(-c, r)] and any other turn, ['right'] among them,
    the heading with vector [(c, -r)]; so a left turn and a right turn undo
    each other, two equal turns reverse the heading and four equal turns
    restore it. *)
Theorem turn_is_quarter_rotation o (v : pos) :
  movement_vectors o = Ok v →
  ∃ l r,
    Directional.get_new_orientation o "left" = Some l ∧
    movement_vectors l = Ok (- v.2, v.1)%Z ∧
    (∀ turn, turn ≠ "left" →
             Directional.get_new_orientation o turn = Some r) ∧
    movement_vectors r = Ok (v.2, - v.1)%Z ∧
    Directional.get_new_orientation l "right" = Some o ∧
    Directional.get_new_orientation r "left" = Some o ∧
    (∃ back, Directional.get_new_orientation l "left" = Some back ∧
             Directional.get_new_orientation r "right" = Some back ∧
             movement_vectors back = Ok (- v.1, - v.2)%Z ∧
             Directional.get_new_orientation back "left" = Some r ∧
             Directional.get_new_orientation back "right" = Some l).
Proof.
  intros Hv. pose proof (movement_vectors_valid o v Hv) as Ho.
  assert (Hturn : ∀ turn, turn ≠ "left" → String.eqb turn "left" = false).
  { intros turn Hne. by destruct (String.eqb_spec turn "left"). }
  destruct Ho as [-> | [-> | [-> | ->]]]; injection Hv as <-;
    eexists _, _;
    (split; [reflexivity|]; split; [reflexivity|]; split;
     [intros turn Hne; unfold Directional.get_new_orientation;
      rewrite (Hturn turn Hne); reflexivity|];
     split; [reflexivity|]; split; [reflexivity|]; split; [reflexivity|];
     eexists; repeat split; reflexivity).
Qed.

Lemma turn_is_quarter_rotation_witness :
  ∃ l r,
    Directional.get_new_orientation "down" "left" = Some l ∧
    movement_vectors l = Ok (0, 1)%Z ∧
    (∀ turn, turn ≠ "left" →
             Directional.get_new_orientation "down" turn = Some r) ∧
    movement_vectors r = Ok (0, -1)%Z.
Proof.
  destruct (turn_is_quarter_rotation "down" (1, 0)%Z eq_refl)
    as (l & r & H1 & H2 & H3 & H4 & _).
  exists l, r. split; [exact H1|]. split; [exact H2|]. split; [exact H3|].
  exact H4.
Defined.

Lemma random_turns_reach turns :
  Forall relative_turn turns →
  ∃ rng, Directional.random_turns rng (length turns) = turns.
Proof.
  induction 1 as [|d turns Hd _ [rng IH]]; [by exists (λ _, 0%nat)|].
  destruct Hd as [-> | [-> | ->]].
  - exists (draws_cons 0 rng). simpl. by rewrite <- IH at 2.
  - exists (draws_cons 1 rng). simpl. by rewrite <- IH at 2.
  - exists (draws_cons 2 rng). simpl. by rewrite <- IH at 2.
Qed.

Lemma random_turns_length rng k :
  length (Directional.random_turns rng k) = k.
Proof. revert rng. induction k as [|k IH]; intros rng; simpl; auto. Qed.

(** X27: what [generate_random_directions] returns: a list of
    [max(2, total)] labels, ['Start'], ['straight'], and then labels among
    left, straight, right; and every list of this form is returned for some
    draws.  For a total below 2 the list is longer than the chain. *)
Theorem generate_random_directions_range total :
  (∀ rng,
     generated_directions (Directional.generate_random_directions rng total) ∧
     length (Directional.generate_random_directions rng total)
     = max 2 total) ∧
  (∀ directions,
     generated_directions directions → length directions = max 2 total →
     ∃ rng, Directional.generate_random_directions rng total = directions).
Proof.
  split.
  - intros rng. split; [apply generate_random_directions_generated|].
    unfold Directional.generate_random_directions.
    rewrite length_app, random_turns_length. simpl. lia.
  - intros directions (turns & -> & Hturns) Hlen. simpl in Hlen.
    destruct (random_turns_reach turns Hturns) as [rng Hrng].
    exists rng. unfold Directional.generate_random_directions.
    replace (total - 2)%nat with (length turns) by lia. by rewrite Hrng.
Qed.

Lemma place_amino_acid_reaches L rest :
  ∀ depth g order bc a1 current wjb fl f acids,
  walk_inv L g order → last order = Some (a1, current) →
  Forall residue rest.*1 → NoDup (order ++ rest).*2 →
  connected (order ++ rest) → (length (order ++ rest) ≤ L)%nat →
  (length rest < depth)%nat →
  ∃ rng g',
    Backtracking.place_amino_acid depth rng g rest.*1 order bc (Some current)
      wjb fl f acids = Ok (true, bc, g', order ++ rest) ∧
    walk_inv L g' (order ++ rest).
Proof.
  induction rest as [|[a q] rest IH];
    intros depth g order bc a1 current wjb fl f acids Hw Hlast Hres Hnodup
      Hconn HL Hdepth;
    (destruct depth as [|depth]; [simpl in Hdepth; lia|]).
  - exists (λ _, 0%nat), g. rewrite app_nil_r. by split.
  - pose proof (c_square _ _ _ (w_consistent _ _ _ Hw)) as Hsq.
    destruct (next_cell_valid L g order a1 current a q rest Hw Hlast Hnodup
                Hconn HL) as (Hnb & Hin & He).
    simpl in Hres. apply Forall_cons in Hres as [Hres_a Hres].
    destruct (walk_inv_extend L g order a q a1 current Hw Hlast Hnb Hin He
                Hres_a) as (g1 & Hset & Hw1).
    assert (Hassoc : (order ++ [(a, q)]) ++ rest = order ++ (a, q) :: rest)
      by (by rewrite <- app_assoc).
    destruct (IH depth g1 (order ++ [(a, q)]) bc a q 0%nat fl f
                (acids + 1)%nat Hw1) as (rng & g' & Hrun & Hw').
    { apply last_snoc. }
    { done. }
    { by rewrite Hassoc. }
    { by rewrite Hassoc. }
    { by rewrite Hassoc. }
    { simpl in Hdepth. lia. }
    rewrite Hassoc in Hrun, Hw'.
    assert (Hvalid : q ∈ filter (λ q, inside (L * 2) q ∧ cell g q = "")
                           (four_neighbors current)).
    { apply list_elem_of_filter. by split. }
    apply list_elem_of_lookup_1 in Hvalid as [i Hi].
    exists (draws_cons i rng), g'. split; [|done].
    cbn [Backtracking.place_amino_acid fmap list_fmap].
    change (list_fmap placement string fst ((a, q) :: rest))
      with (a :: rest.*1).
    cbv iota.
    rewrite (proj1 Hsq), (valid_neighbors_square _ _ _ Hsq), bind_Ok.
    destruct (filter _ (four_neighbors current)) as [|v valid] eqn:Hfilter;
      [done|].
    change (draws_cons i rng 0%nat) with i. cbn [fst].
    rewrite (shuffled_first_lookup _ _ _ Hi), bind_Ok, Hset, bind_Ok.
    exact Hrun.
Qed.

(** X28: the backtracking engine can produce every conformation without a
    backtrack.  For each self-avoiding connected walk of residues from the
    centre, and a recursion limit above its length, there are draws for
    which [initialize_grid] returns this walk as the placement order with a
    backtrack count of 0. *)
Theorem backtracking_reaches_every_walk depth (order : list placement) :
  centred_walk order → (length order < depth)%nat →
  ∃ rng g,
    Backtracking.initialize_grid depth rng order.*1 = Ok (g, order, 0%nat) ∧
    consistent (length order * 2) g order.
Proof.
  intros (Hne & Hres & Hnodup & Hconn & Hfirst) Hdepth.
  destruct order as [|[a p] rest] eqn:Horder; [done|].
  set (L := length ((a, p) :: rest)) in *.
  assert (HL : (0 < L)%nat) by (subst L; simpl; lia).
  rewrite (Hfirst a p eq_refl) in *.
  simpl in Hres. apply Forall_cons in Hres as [Hres_a Hres].
  destruct depth as [|depth]; [lia|].
  destruct (walk_inv_first L a HL Hres_a) as (g1 & Hset & Hw1).
  destruct (place_amino_acid_reaches L rest depth g1
              [(a, (Z.of_nat L, Z.of_nat L))] 0%nat a
              (Z.of_nat L, Z.of_nat L) 0%nat 0%nat 0%nat 0%nat Hw1)
    as (rng & g' & Hrun & Hw'); [done..| |].
  { subst L. simpl in Hdepth. lia. }
  exists rng, g'. split; [|apply Hw'].
  unfold Backtracking.initialize_grid.
  change (((a, (Z.of_nat L, Z.of_nat L)) :: rest).*1) with (a :: rest.*1).
  assert (Hlen : length (a :: rest.*1) = L).
  { subst L. simpl. by rewrite length_fmap. }
  cbv zeta. rewrite Hlen. cbn [Backtracking.place_amino_acid].
  assert (Hsize : length (np_full (L * 2)) = (L * 2)%nat)
    by apply length_replicate.
  rewrite Hsize, centre_div, Hset, bind_Ok.
  change ([] ++ [(a, (Z.of_nat L, Z.of_nat L))])
    with [(a, (Z.of_nat L, Z.of_nat L))].
  rewrite Hrun, bind_Ok. done.
Qed.

Lemma backtracking_reaches_every_walk_witness :
  ∃ rng g,
    Backtracking.initialize_grid 5 rng walk_hook.*1
    = Ok (g, walk_hook, 0%nat) ∧
    consistent (length walk_hook * 2) g walk_hook.
Proof.
  apply (backtracking_reaches_every_walk 5 walk_hook); [|simpl; lia].
  split; [discriminate|]. split; [solve_residues|].
  split; [exact (bool_decide_unpack (NoDup walk_hook.*2) I)|]. split.
  - intros i a p b q Hi HSi.
    destruct i as [|[|[|[|i]]]]; simplify_eq/=; unfold adjacent; simpl; lia.
  - by intros a p [= _ <-].
Defined.

(** ** Short chains in the deterministic-directional engine *)

(** No turn of the direction model sends the walk back onto the cell it
    came from. *)
Lemma turn_never_reverses o d o' (v v' : pos) :
  movement_vectors o = Ok v →
  Directional.turn_orientation o d = Ok o' →
  movement_vectors o' = Ok v' →
  (v'.1 + v.1 ≠ 0 ∨ v'.2 + v.2 ≠ 0)%Z.
Proof.
  intros Hv Hto Hv'. pose proof (movement_vectors_valid o v Hv) as Ho.
  unfold Directional.turn_orientation, Directional.get_new_orientation in Hto.
  destruct Ho as [-> | [-> | [-> | ->]]];
    destruct (String.eqb d "straight"), (String.eqb d "left");
    simpl in Hto; injection Hto as <-; injection Hv' as <-;
    injection Hv as <-; simpl; lia.
Qed.

Lemma walk_short_complete L dirs :
  ∀ g copy order (current : pos) o a0 (p0 : pos) a1,
  walk_inv L g order → (2 ≤ length order)%nat →
  order !! (length order - 2)%nat = Some (a0, p0) →
  order !! (length order - 1)%nat = Some (a1, current) →
  movement_vectors o = Ok (current.1 - p0.1, current.2 - p0.2)%Z →
  "Start" ∉ dirs → Forall residue copy → copy ≠ [] →
  (length copy ≤ length dirs)%nat →
  (length order + length copy ≤ 4)%nat →
  (length order + length copy ≤ L)%nat →
  ∃ g' order',
    Directional.walk dirs (Z.of_nat (L * 2)) g copy order current o
    = Ok (g', order') ∧
    order'.*1 = order.*1 ++ copy.
Proof.
  induction dirs as [|d dirs IH];
    intros g copy order current o a0 p0 a1 Hw Hlen H0 H1 Hv Hstart Hres Hne
      Hdirs Hshort HL.
  { destruct copy; [done|simpl in Hdirs; lia]. }
  destruct copy as [|a copy]; [done|]. simpl in Hdirs, Hshort, HL.
  apply Forall_cons in Hres as [Hres_a Hres].
  apply not_elem_of_cons in Hstart as [Hd Hstart].
  pose proof (w_consistent _ _ _ Hw) as Hc.
  destruct (turn_orientation_valid o d (movement_vectors_valid _ _ Hv))
    as (o' & v' & Hto & Ho' & Hv' & Hnb).
  pose proof (turn_never_reverses _ _ _ _ _ Hv Hto Hv') as Hrev.
  cbn [fst snd] in Hrev.
  set (next := (current.1 + v'.1, current.2 + v'.2)%Z) in *.
  assert (Hlast : last order = Some (a1, current)).
  { rewrite last_lookup.
    by replace (pred (length order)) with (length order - 1)%nat by lia. }
  pose proof (four_neighbors_adjacent _ _ (Hnb current)) as Hadj.
  fold next in Hadj.
  pose proof (w_near _ _ _ Hw _ _ _ H1) as Hnear.
  assert (Hin : inside (L * 2) next).
  { unfold adjacent in Hadj. unfold inside. lia. }
  assert (Hfree : next ∉ order.*2).
  { intros ([b q] & Hq & Hi)%list_elem_of_fmap. simpl in Hq. subst q.
    apply list_elem_of_lookup_1 in Hi as [i Hi].
    pose proof (lookup_lt_Some _ _ _ Hi) as Hlt.
    pose proof (w_connected _ _ _ Hw) as Hconn.
    destruct (decide (i = length order - 1)%nat) as [-> | Hi1].
    { rewrite H1 in Hi. injection Hi as _ Heq.
      apply adjacent_ne in Hadj. congruence. }
    destruct (decide (i = length order - 2)%nat) as [-> | Hi2].
    { rewrite H0 in Hi. injection Hi as _ Heq. subst p0.
      unfold next in Hrev. cbn [fst snd] in Hrev. lia. }
    assert (length order = 3%nat ∧ i = 0%nat) as [Hthree ->] by lia.
    rewrite Hthree in *. cbn [Nat.sub] in H0, H1.
    pose proof (Hconn 0%nat _ _ _ _ Hi H0) as Hadj0.
    pose proof (Hconn 1%nat _ _ _ _ H0 H1) as Hadj1.
    unfold adjacent in *. lia. }
  pose proof (c_empty _ _ _ Hc _ Hin Hfree) as He.
  destruct (walk_inv_extend L g order a next a1 current Hw Hlast (Hnb current)
              Hin He Hres_a) as (g1 & Hset & Hw1).
  cbn [Directional.walk].
  destruct (String.eqb_spec d "Start") as [|_]; [done|].
  rewrite Hto, bind_Ok, Hv', bind_Ok. fold next.
  rewrite (free_cell_square _ _ _ (c_square _ _ _ Hc)).
  rewrite bind_Ok, bool_decide_eq_true_2 by done.
  rewrite Hset, bind_Ok.
  destruct copy as [|a' copy].
  { eexists _, _. split; [reflexivity|]. by rewrite fmap_app. }
  assert (Hlen1 : length (order ++ [(a, next)]) = S (length order))
    by (rewrite length_app; simpl; lia).
  destruct (IH g1 (a' :: copy) (order ++ [(a, next)]) next o' a1 current a
              Hw1) as (g' & order' & Hrun & Horder').
  { lia. }
  { rewrite Hlen1, lookup_app_l by lia.
    by replace (S (length order) - 2)%nat with (length order - 1)%nat by lia. }
  { rewrite Hlen1, lookup_app_r by lia.
    by replace (S (length order) - 1 - length order)%nat with 0%nat by lia. }
  { rewrite Hv'. unfold next. destruct current, v'. simpl.
    do 2 f_equal; lia. }
  { done. }
  { done. }
  { done. }
  { simpl in *. lia. }
  { rewrite Hlen1. simpl in *. lia. }
  { rewrite Hlen1. simpl in *. lia. }
  exists g', order'. split; [exact Hrun|].
  rewrite Horder', fmap_app, <- app_assoc. done.
Qed.

(** X29: the deterministic-directional engine places every residue of a
    chain of at most 4 residues, whatever the turns: with ['Start'] first
    and nowhere else, and at least one direction per residue, the walk cannot
    run into itself before 4 residues are placed, and it cannot leave the
    lattice.  With 5 residues it can: three left turns lead back onto the
    first cell. *)
Theorem directional_short_chain_complete amino_acids directions :
  amino_acids ≠ [] → Forall residue amino_acids → turn_sequence directions →
  (length amino_acids ≤ length directions)%nat →
  (length amino_acids ≤ 4)%nat →
  (∃ g order,
     Directional.initialize_grid_directional amino_acids directions
     = Ok (g, order) ∧
     order.*1 = amino_acids) ∧
  (∃ g order,
     Directional.initialize_grid_directional chain_HHPPH turns_spiral
     = Ok (g, order) ∧
     length order = 4%nat).
Proof.
  intros Hne Hres (turns & -> & Hstart) Hdirs Hshort.
  split; [|eexists _, _; split; [vm_compute; reflexivity|done]].
  destruct amino_acids as [|a copy] eqn:Hchain; [done|].
  set (L := length (a :: copy)) in *.
  assert (HL : (0 < L)%nat) by (subst L; simpl; lia).
  apply Forall_cons in Hres as [Hres_a Hres].
  destruct (walk_inv_first L a HL Hres_a) as (g1 & Hset & Hw1).
  unfold Directional.initialize_grid_directional. fold L.
  rewrite grid_size_nat, centre_div.
  cbn [Directional.walk]. change (String.eqb "Start" "Start") with true.
  cbv iota. rewrite Hset, bind_Ok.
  destruct copy as [|a' copy]; [by eexists _, _|].
  destruct turns as [|d turns]; [subst L; simpl in Hdirs; lia|].
  apply not_elem_of_cons in Hstart as [Hd Hstart].
  cbn [Directional.walk].
  destruct (String.eqb_spec d "Start") as [|_]; [done|].
  destruct (turn_orientation_valid "right" d) as (o' & v' & Hto & Ho' & Hv' & Hnb);
    [unfold valid_orientation; tauto|].
  rewrite Hto, bind_Ok, Hv', bind_Ok. cbn [fst snd].
  set (c := (Z.of_nat L, Z.of_nat L)) in *.
  set (next := (Z.of_nat L + v'.1, Z.of_nat L + v'.2)%Z) in *.
  pose proof (w_consistent _ _ _ Hw1) as Hc1.
  pose proof (four_neighbors_adjacent _ _ (Hnb c)) as Hadj.
  change ((c.1 + v'.1)%Z, (c.2 + v'.2)%Z) with next in Hadj.
  assert (HL2 : (2 ≤ L)%nat) by (subst L; simpl; lia).
  assert (Hin : inside (L * 2) next).
  { unfold adjacent, c in Hadj. cbn [fst snd] in Hadj. unfold inside. lia. }
  assert (Hfree : next ∉ [(a, c)].*2).
  { simpl. intros Heq%list_elem_of_singleton.
    apply adjacent_ne in Hadj. done. }
  pose proof (c_empty _ _ _ Hc1 _ Hin Hfree) as He.
  apply Forall_cons in Hres as [Hres_a' Hres].
  destruct (walk_inv_extend L g1 [(a, c)] a' next a c Hw1 eq_refl (Hnb c)
              Hin He Hres_a') as (g2 & Hset2 & Hw2).
  rewrite (free_cell_square _ _ _ (c_square _ _ _ Hc1)).
  rewrite bind_Ok, bool_decide_eq_true_2 by done.
  rewrite Hset2, bind_Ok.
  destruct copy as [|a'' copy]; [by eexists _, _|].
  destruct (walk_short_complete L turns g2 (a'' :: copy)
              ([(a, c)] ++ [(a', next)]) next o' a c a' Hw2)
    as (g' & order' & Hrun & Horder'); try done.
  - rewrite Hv'. unfold next, c. destruct v'. simpl. do 2 f_equal; lia.
  - subst L. simpl in *. lia.
  - exists g', order'. split; [exact Hrun|]. by rewrite Horder'.
Qed.

Lemma directional_short_chain_complete_witness :
  ∃ g order,
    Directional.initialize_grid_directional ["H"; "P"; "P"; "H"]
      ["Start"; "straight"; "left"; "left"] = Ok (g, order) ∧
    order.*1 = ["H"; "P"; "P"; "H"].
Proof.
  apply (directional_short_chain_complete ["H"; "P"; "P"; "H"]
           ["Start"; "straight"; "left"; "left"]).
  - discriminate.
  - solve_residues.
  - solve_turn_sequence.
  - simpl. lia.
  - simpl. lia.
Defined.

(** ** H-ratio of the generated samples *)

Lemma record_sample_ratio L directions_of nh np chain g order ds :
  walk_inv L g order → order ≠ [] → directions_of order = Ok ds →
  ∃ s, record_sample directions_of nh np chain g order = Ok s ∧ h_ratio_ok s.
Proof.
  intros Hw Hne Hds. pose proof (w_consistent _ _ _ Hw) as Hc.
  destruct (sample_stats_consistent _ _ _ Hc Hne)
    as (bonds & ratio & Hbonds & Hcount & Hpos & Hstats & Hratio & Hzero).
  cbn [fst snd] in *.
  assert (Hdiv : true_div (size bonds) (length order) = Ok ratio).
  { unfold sample_stats in Hstats. rewrite Hbonds, bind_Ok, Hcount in Hstats.
    destruct (true_div (size bonds) (length order)) as [q|]; [|done].
    rewrite bind_Ok in Hstats. by injection Hstats as ->. }
  unfold record_sample. rewrite Hds, bind_Ok, Hstats, bind_Ok.
  eexists. split; [reflexivity|]. unfold h_ratio_ok. cbn.
  split; [done|]. split; [done|]. split; [by exists bonds|].
  split; [done|]. split; [done|]. rewrite Hzero. split; [by intros ->|].
  by intros [-> _].
Qed.

Lemma stochastic_sample_ratio total rng :
  (2 ≤ total)%nat →
  ∃ s, Experiment1.one_sample total rng = Sampled s ∧ h_ratio_ok s.
Proof.
  intros Htotal. unfold Experiment1.one_sample.
  destruct (random_division_spec rng total Htotal)
    as (nh & np & chain & -> & Hnh & Hnp & Hsum & Hperm).
  rewrite bind_Sampled.
  destruct (sorted_chain_residues _ _ _ Hperm) as [Hres Hlen].
  pose proof (chain_not_nil _ _ _ Hnh Hperm) as Hne.
  destruct (stochastic_spec (next_draws (next_draws rng)) chain Hne Hres)
    as (g & order & -> & Hw & _ & Horder & _).
  simpl of_result. rewrite bind_Sampled.
  assert (Hone : order ≠ []) by (intros ->; simpl in Horder; lia).
  destruct (determine_directions_length order Hone) as (ds & Hds & _).
  destruct (record_sample_ratio _ determine_directions nh np chain g order _
              Hw Hone Hds) as (s & -> & Hs).
  by exists s.
Qed.

Lemma directional_sample_ratio total rng :
  (2 ≤ total)%nat →
  ∃ s, Experiment2.one_sample total rng = Sampled s ∧ h_ratio_ok s.
Proof.
  intros Htotal. unfold Experiment2.one_sample.
  destruct (random_division_spec rng total Htotal)
    as (nh & np & chain & -> & Hnh & Hnp & Hsum & Hperm).
  rewrite bind_Sampled.
  destruct (sorted_chain_residues _ _ _ Hperm) as [Hres Hlen].
  pose proof (chain_not_nil _ _ _ Hnh Hperm) as Hne.
  destruct (directional_spec chain
              (Directional.generate_random_directions
                 (next_draws (next_draws rng)) total) Hne Hres
              (generated_turn_sequence _ _))
    as (g & order & -> & Hw & _ & Horder).
  simpl of_result. rewrite bind_Sampled.
  assert (Hone : order ≠ []) by (intros ->; simpl in Horder; lia).
  destruct (determine_directions_length order Hone) as (ds & Hds & _).
  destruct (record_sample_ratio _ determine_directions nh np chain g order _
              Hw Hone Hds) as (s & -> & Hs).
  by exists s.
Qed.

Lemma random_division_small rng total :
  (total < 2)%nat → random_division rng total = ValueError.
Proof.
  intros Htotal. unfold random_division, randint.
  destruct (decide (1 < total)%nat); [lia|done].
Qed.

Lemma repeat_sample_guarded (one_sample : draws → sampled sample)
    rngs N total :
  ((2 ≤ total)%nat → ∀ rng, ∃ s, one_sample rng = Sampled s ∧ h_ratio_ok s) →
  ((total < 2)%nat → ∀ rng, one_sample rng = ValueError) →
  ratio_guarded N total (repeat_sample one_sample rngs N).
Proof.
  intros Hok Herr. unfold ratio_guarded.
  destruct (decide (2 ≤ total)%nat) as [Htotal | Htotal].
  - destruct (repeat_sample_spec one_sample h_ratio_ok rngs N (Hok Htotal))
      as (l & -> & Hlen & Hall).
    split; [done|]. intros _. by exists l.
  - split; [|lia]. destruct N as [|N]; [done|]. simpl.
    rewrite Herr by lia. simpl. lia.
Qed.

(** C7: for every sample that [generate_random_samples] records, with the
    stochastic or with the deterministic-directional engine, the H-ratio is
    the bond count divided by the number of residues on the grid, that
    number is positive, and the H-ratio is 0 exactly when the bond count is
    0 (and residues are on the grid).  A division by zero residues has no
    value, it raises ZeroDivisionError, and the samplers never reach it:
    for a total of at least 2 every pass records a sample, and a total below
    2 is refused with ValueError by [random_division] before an engine
    runs. *)
Theorem h_ratio_of_samples rngs N total :
  ratio_guarded N total (Experiment1.generate_random_samples rngs N total) ∧
  ratio_guarded N total (Experiment2.generate_random_samples rngs N total) ∧
  (∀ hbonds, true_div hbonds 0 = Raise ZeroDivisionError).
Proof.
  split; [|split; [|done]].
  - apply repeat_sample_guarded.
    + intros Htotal rng. by apply stochastic_sample_ratio.
    + intros Htotal rng. unfold Experiment1.one_sample.
      by rewrite random_division_small.
  - apply repeat_sample_guarded.
    + intros Htotal rng. by apply directional_sample_ratio.
    + intros Htotal rng. unfold Experiment2.one_sample.
      by rewrite random_division_small.
Qed.
